(** * Content normalisation and reconciliation: a shallow embedding

    The scripts of this repository move Works and Insights between Strapi and
    WordPress.  This development embeds the pure core that the specification
    singles out -- the slug reconciler, the boolean and media normalisers, the
    rich-text sanitiser with its flattened-table recovery, the media
    downloader's file naming and the bounded retry helper -- and states the
    specification's testable properties about them.

    Conventions of the embedding.

    - A JavaScript string is a [string]: a sequence of code units in the range
      0..255 (the Latin-1 part of UTF-16).  Code units above 255 are outside
      the model; where a source regular expression names such a code unit
      (U+200B, U+FEFF, ...) the corresponding alternative cannot fire and is
      left out, with a remark at the place.
    - A JavaScript regular expression literal is a [regex] syntax tree, run by
      the backtracking matcher [Re.m], which follows the ECMAScript pattern
      semantics (greedy and lazy quantifiers, captures, backreferences,
      lookahead, word boundaries, the [i] and [m] flags).
    - JavaScript numbers that count things (identifiers, attempts, delays in
      milliseconds, timestamps) are integers of [Z]; [NaN] is [None].
    - Built-ins whose result is decided outside the program ([Date.parse],
      the WHATWG URL parser, HTTP responses) are parameters of the functions
      that use them. *)

From Stdlib Require Import String Ascii List ZArith Lia Bool Arith PeanoNat.
Import ListNotations.

Set Warnings "-register-all".

Local Open Scope string_scope.
Local Open Scope list_scope.
Local Open Scope nat_scope.

(* ================================================================== *)
(** * Part I: the embedding *)
(* ================================================================== *)

(** ** Characters and strings *)

Module Chars.

Definition code (a : ascii) : nat := nat_of_ascii a.

Definition in_range (lo hi : nat) (a : ascii) : bool :=
  (lo <=? code a) && (code a <=? hi).

Definition is_digit (a : ascii) : bool := in_range 48 57 a.
Definition is_upper (a : ascii) : bool := in_range 65 90 a.
Definition is_lower (a : ascii) : bool := in_range 97 122 a.
Definition is_alpha (a : ascii) : bool := is_upper a || is_lower a.
Definition is_alnum (a : ascii) : bool := is_alpha a || is_digit a.

(** [\w] of a regular expression: [A-Za-z0-9_]. *)
Definition is_word (a : ascii) : bool := is_alnum a || (code a =? 95).

(** ECMAScript WhiteSpace and LineTerminator code units below 256:
    TAB, LF, VT, FF, CR, SPACE, NBSP.  This is [\s] and what [trim]
    removes. *)
Definition is_space (a : ascii) : bool :=
  in_range 9 13 a || (code a =? 32) || (code a =? 160).

(** LineTerminator below 256: LF and CR (what [.] does not match). *)
Definition is_line_terminator (a : ascii) : bool :=
  (code a =? 10) || (code a =? 13).

(** Latin-1 letters with a case partner inside Latin-1: A-Z / a-z and
    U+00C0..U+00DE / U+00E0..U+00FE, the signs U+00D7 and U+00F7 apart. *)
Definition has_lower_partner (a : ascii) : bool :=
  is_upper a || (in_range 192 222 a && negb (code a =? 215)).
Definition has_upper_partner (a : ascii) : bool :=
  is_lower a || (in_range 224 254 a && negb (code a =? 247)).

Definition to_lower (a : ascii) : ascii :=
  if has_lower_partner a then ascii_of_nat (code a + 32) else a.
Definition to_upper (a : ascii) : ascii :=
  if has_upper_partner a then ascii_of_nat (code a - 32) else a.

Definition LF : ascii := ascii_of_nat 10.
Definition CR : ascii := ascii_of_nat 13.
Definition NBSP : ascii := ascii_of_nat 160.

End Chars.

Module Str.

Definition chars := list ascii.

Definition of_string : string -> chars := list_ascii_of_string.
Definition to_string : chars -> string := string_of_list_ascii.

Definition isEmpty (s : string) : bool :=
  match s with EmptyString => true | _ => false end.

(** [String.prototype.toLowerCase] on Latin-1 code units. *)
Fixpoint toLowerCase (s : string) : string :=
  match s with
  | EmptyString => EmptyString
  | String a s' => String (Chars.to_lower a) (toLowerCase s')
  end.

Fixpoint trimStart (s : string) : string :=
  match s with
  | EmptyString => EmptyString
  | String a s' => if Chars.is_space a then trimStart s' else s
  end.

(** Removes trailing white space: the string is rebuilt from the right,
    dropping a character while everything after it has been dropped. *)
Fixpoint trimEnd (s : string) : string :=
  match s with
  | EmptyString => EmptyString
  | String a s' =>
      match trimEnd s' with
      | EmptyString => if Chars.is_space a then EmptyString else String a EmptyString
      | t => String a t
      end
  end.

(** [String.prototype.trim]. *)
Definition trim (s : string) : string := trimEnd (trimStart s).

(** [s.startsWith(p)]. *)
Definition startsWith (p s : string) : bool := prefix p s.

(** [s.includes(p)]: [p] occurs somewhere in [s]. *)
Fixpoint includes (p s : string) : bool :=
  prefix p s ||
  match s with
  | EmptyString => false
  | String _ s' => includes p s'
  end.

(** [s.split(sep)] for a one-character separator: the pieces between the
    occurrences of [sep]; never empty. *)
Fixpoint splitChar (sep : ascii) (s : string) : list string :=
  match s with
  | EmptyString => [EmptyString]
  | String a s' =>
      if Ascii.eqb a sep then EmptyString :: splitChar sep s'
      else match splitChar sep s' with
           | [] => [String a EmptyString]
           | p :: ps => String a p :: ps
           end
  end.

(** [s.slice(from, to)] for [0 <= from] and [0 <= to]. *)
Definition slice (from to : nat) (s : string) : string :=
  substring from (to - from) s.

(** [s.slice(from)]. *)
Definition sliceFrom (from : nat) (s : string) : string :=
  substring from (String.length s - from) s.

Definition dquote : ascii := ascii_of_nat 34.
Definition DQ : string := String dquote EmptyString.

End Str.

(** ** Regular expressions *)

Module Re.

Import Chars.

(** The members of a character class. *)
Inductive citem : Type :=
| CChar (c : ascii)
| CRange (lo hi : ascii)
| CDigit            (* \d *)
| CSpace            (* \s *)
| CNotSpace         (* \S *)
| CWord.            (* \w *)

Inductive regex : Type :=
| Eps
| Chr (c : ascii)                         (* a literal character *)
| Any                                     (* .  *)
| Cls (negated : bool) (items : list citem)   (* [...] and [^...] *)
| Seq (r1 r2 : regex)
| Alt (r1 r2 : regex)
| Quant (r : regex) (min : nat) (max : option nat) (greedy : bool)
| Group (n : nat) (r : regex)             (* the n-th capturing group *)
| Bol                                     (* ^ *)
| Eol                                     (* $ *)
| WordB                                   (* \b *)
| Look (r : regex)                        (* (?=r) *)
| NLook (r : regex)                       (* (?!r) *)
| Backref (n : nat).                      (* \n *)

Record flags : Type := { ignoreCase : bool; multiline : bool }.

Definition plain : flags := {| ignoreCase := false; multiline := false |}.
Definition flag_i : flags := {| ignoreCase := true; multiline := false |}.
Definition flag_m : flags := {| ignoreCase := false; multiline := true |}.

(** *** Character matching *)

Definition item_has (it : citem) (a : ascii) : bool :=
  match it with
  | CChar c => Ascii.eqb a c
  | CRange lo hi => in_range (code lo) (code hi) a
  | CDigit => is_digit a
  | CSpace => is_space a
  | CNotSpace => negb (is_space a)
  | CWord => is_word a
  end.

(** With the [i] flag a character matches a set when some member of the
    set has the same canonical form; below 256 the characters with the
    canonical form of [a] are [a], [to_upper a] and [to_lower a]. *)
Definition items_have (fl : flags) (items : list citem) (a : ascii) : bool :=
  existsb (fun it =>
             item_has it a
             || (ignoreCase fl && (item_has it (to_upper a) || item_has it (to_lower a))))
          items.

Definition cls_match (fl : flags) (negated : bool) (items : list citem) (a : ascii) : bool :=
  xorb negated (items_have fl items a).

Definition chr_match (fl : flags) (c a : ascii) : bool :=
  items_have fl [CChar c] a.

Definition any_match (a : ascii) : bool := negb (is_line_terminator a).

(** *** Matcher states *)

Record mstate : Type := {
  before : list ascii;                     (* the input left of the position, reversed *)
  after  : list ascii;                     (* the input from the position on *)
  caps   : list (nat * list ascii)         (* the captures that are defined *)
}.

Definition pos (x : mstate) : nat := length (before x).

Fixpoint get_cap (n : nat) (cs : list (nat * list ascii)) : option (list ascii) :=
  match cs with
  | [] => None
  | (k, v) :: cs' => if k =? n then Some v else get_cap n cs'
  end.

Definition drop_caps (ns : list nat) (cs : list (nat * list ascii)) : list (nat * list ascii) :=
  filter (fun kv => negb (existsb (Nat.eqb (fst kv)) ns)) cs.

Definition set_cap (n : nat) (v : list ascii) (cs : list (nat * list ascii)) :=
  (n, v) :: drop_caps [n] cs.

(** The capturing groups inside a pattern: a quantifier clears them at the
    start of every iteration. *)
Fixpoint groups_of (r : regex) : list nat :=
  match r with
  | Seq r1 r2 | Alt r1 r2 => groups_of r1 ++ groups_of r2
  | Quant r _ _ _ | Look r | NLook r => groups_of r
  | Group n r => n :: groups_of r
  | _ => []
  end.

Definition advance (x : mstate) (a : ascii) (rest : list ascii) : mstate :=
  {| before := a :: before x; after := rest; caps := caps x |}.

Definition step_if (test : ascii -> bool) (k : mstate -> option mstate) (x : mstate)
  : option mstate :=
  match after x with
  | a :: rest => if test a then k (advance x a rest) else None
  | [] => None
  end.

Definition at_word (l : list ascii) : bool :=
  match l with
  | a :: _ => is_word a
  | [] => false
  end.

Definition at_line_break (l : list ascii) : bool :=
  match l with
  | a :: _ => is_line_terminator a
  | [] => false
  end.

Definition is_nil {A} (l : list A) : bool :=
  match l with [] => true | _ => false end.

(** The text consumed between state [x] and the later state [y]. *)
Definition consumed (x y : mstate) : list ascii :=
  rev (firstn (pos y - pos x) (before y)).

Definition same_char (fl : flags) (c a : ascii) : bool :=
  Ascii.eqb a c || (ignoreCase fl && Ascii.eqb (to_upper a) (to_upper c)).

Fixpoint match_text (fl : flags) (t : list ascii) (x : mstate) : option mstate :=
  match t with
  | [] => Some x
  | c :: t' =>
      match after x with
      | a :: rest => if same_char fl c a then match_text fl t' (advance x a rest) else None
      | [] => None
      end
  end.

Definition dec_max (mx : option nat) : option nat :=
  match mx with
  | Some n => Some (Nat.pred n)
  | None => None
  end.

Definition max_is_zero (mx : option nat) : bool :=
  match mx with
  | Some 0 => true
  | _ => false
  end.

(** *** The matcher

    [m fl r k x] runs pattern [r] from state [x] and hands every way of
    matching it, in priority order, to the continuation [k] until [k]
    accepts: ECMAScript's backtracking semantics in continuation-passing
    style. *)

(** RepeatMatcher, the loop of a quantifier over the matcher [body] of the
    quantified pattern; [inner] are the capturing groups inside it, cleared
    at the start of every iteration.  Once [mn] has come down to zero an
    iteration that consumes nothing is refused, so an iteration past the
    minimum consumes a character and [mn + length (after x)] iterations
    cannot be exceeded; the counter [n] of the loop is started one above
    that bound. *)
Fixpoint rep (body : (mstate -> option mstate) -> mstate -> option mstate)
  (inner : list nat) (greedy : bool) (k : mstate -> option mstate)
  (n : nat) (mn : nat) (mx : option nat) (x : mstate) {struct n} : option mstate :=
  match n with
  | O => None
  | S n' =>
      if max_is_zero mx then k x
      else
        let d := fun y : mstate =>
                   if (mn =? 0) && (pos y =? pos x) then None
                   else rep body inner greedy k n' (Nat.pred mn) (dec_max mx) y in
        let xr := {| before := before x; after := after x;
                     caps := drop_caps inner (caps x) |} in
        if negb (mn =? 0) then body d xr
        else if greedy then
               match body d xr with
               | Some z => Some z
               | None => k x
               end
             else
               match k x with
               | Some z => Some z
               | None => body d xr
               end
  end.

Fixpoint m (fl : flags) (r : regex) (k : mstate -> option mstate) (x : mstate)
  {struct r} : option mstate :=
  match r with
  | Eps => k x
  | Chr c => step_if (chr_match fl c) k x
  | Any => step_if any_match k x
  | Cls negated items => step_if (cls_match fl negated items) k x
  | Seq r1 r2 => m fl r1 (m fl r2 k) x
  | Alt r1 r2 =>
      match m fl r1 k x with
      | Some y => Some y
      | None => m fl r2 k x
      end
  | Quant r' mn mx greedy =>
      rep (m fl r') (groups_of r') greedy k (S (mn + length (after x))) mn mx x
  | Group n r' =>
      m fl r' (fun y => k {| before := before y; after := after y;
                             caps := set_cap n (consumed x y) (caps y) |}) x
  | Bol =>
      if is_nil (before x) || (multiline fl && at_line_break (before x))
      then k x else None
  | Eol =>
      if is_nil (after x) || (multiline fl && at_line_break (after x))
      then k x else None
  | WordB =>
      if xorb (at_word (before x)) (at_word (after x)) then k x else None
  | Look r' =>
      match m fl r' Some x with
      | Some y => k {| before := before x; after := after x; caps := caps y |}
      | None => None
      end
  | NLook r' =>
      match m fl r' Some x with
      | Some _ => None
      | None => k x
      end
  | Backref n =>
      match get_cap n (caps x) with
      | None => k x
      | Some t =>
          match match_text fl t x with
          | Some y => k y
          | None => None
          end
      end
  end.

(** *** Derived forms *)

Fixpoint seq (rs : list regex) : regex :=
  match rs with
  | [] => Eps
  | [r] => r
  | r :: rs' => Seq r (seq rs')
  end.

Fixpoint alt (rs : list regex) : regex :=
  match rs with
  | [] => NLook Eps
  | [r] => r
  | r :: rs' => Alt r (alt rs')
  end.

(** A literal run of characters. *)
Fixpoint lit_chars (l : list ascii) : regex :=
  match l with
  | [] => Eps
  | [c] => Chr c
  | c :: l' => Seq (Chr c) (lit_chars l')
  end.
Definition lit (s : string) : regex := lit_chars (list_ascii_of_string s).

Definition star (r : regex) : regex := Quant r 0 None true.        (* r*  *)
Definition plus (r : regex) : regex := Quant r 1 None true.        (* r+  *)
Definition opt (r : regex) : regex := Quant r 0 (Some 1) true.     (* r?  *)
Definition lazy_star (r : regex) : regex := Quant r 0 None false.  (* r*? *)
Definition range (r : regex) (lo hi : nat) : regex := Quant r lo (Some hi) true.  (* r{lo,hi} *)
Definition at_least (r : regex) (lo : nat) : regex := Quant r lo None true.       (* r{lo,} *)

Definition digit : regex := Cls false [CDigit].          (* \d *)
Definition space : regex := Cls false [CSpace].          (* \s *)
Definition nonspace : regex := Cls false [CNotSpace].    (* \S *)
Definition anything : regex := Cls false [CSpace; CNotSpace].   (* [\s\S] *)
Definition oneof (s : string) : regex :=                 (* [abc] *)
  Cls false (map CChar (list_ascii_of_string s)).
Definition noneof (s : string) : regex :=                (* [^abc] *)
  Cls true (map CChar (list_ascii_of_string s)).

(** *** Running a pattern over a string *)

(** A successful match: where it starts, what it covers, its captures,
    and the input behind it. *)
Record result : Type := {
  index : nat;
  matched : string;
  groups : list (nat * list ascii);
  rest : list ascii;          (* the input after the match *)
  upto : list ascii           (* the input before the end of the match, reversed *)
}.

(** [$n] of a replacement / [match[n]]: the text of group [n], [None]
    when the group did not take part. *)
Definition group (n : nat) (mr : result) : option string :=
  option_map string_of_list_ascii (get_cap n (groups mr)).

(** A group spliced into a replacement string: [undefined] gives nothing. *)
Definition sub (n : nat) (mr : result) : string :=
  match group n mr with
  | Some s => s
  | None => EmptyString
  end.

Definition start_state (bef aft : list ascii) : mstate :=
  {| before := bef; after := aft; caps := [] |}.

Definition result_of (x y : mstate) : result :=
  {| index := pos x;
     matched := string_of_list_ascii (consumed x y);
     groups := caps y;
     rest := after y;
     upto := before y |}.

(** The match that starts exactly at the position of [bef]/[aft]. *)
Definition match_here (fl : flags) (r : regex) (bef aft : list ascii) : option result :=
  match m fl r Some (start_state bef aft) with
  | Some y => Some (result_of (start_state bef aft) y)
  | None => None
  end.

(** The leftmost match at or after the position: the characters skipped
    on the way, and the match. *)
Fixpoint search (fl : flags) (r : regex) (bef aft : list ascii)
  : option (list ascii * result) :=
  match match_here fl r bef aft with
  | Some mr => Some ([], mr)
  | None =>
      match aft with
      | [] => None
      | a :: aft' =>
          match search fl r (a :: bef) aft' with
          | Some (skipped, mr) => Some (a :: skipped, mr)
          | None => None
          end
      end
  end.

(** [re.exec(s)] / [s.match(re)] for a pattern without the [g] flag. *)
Definition exec (fl : flags) (r : regex) (s : string) : option result :=
  option_map snd (search fl r [] (list_ascii_of_string s)).

(** [re.test(s)]. *)
Definition test (fl : flags) (r : regex) (s : string) : bool :=
  match exec fl r s with Some _ => true | None => false end.

(** All matches of a [g] pattern, left to right, as [exec] in a loop or
    [replace] finds them: after a match the search resumes at its end,
    one character further when the match was empty.  Each match comes
    with the unmatched text before it; the unmatched tail comes last.
    Every round moves the position forward, so [length aft + 1] rounds
    are enough; [n] starts there. *)
Fixpoint scan (n : nat) (fl : flags) (r : regex) (bef aft : list ascii)
  : list (list ascii * result) * list ascii :=
  match n with
  | O => ([], aft)
  | S n' =>
      match search fl r bef aft with
      | None => ([], aft)
      | Some (skipped, mr) =>
          if Str.isEmpty (matched mr) then
            match rest mr with
            | [] => ([(skipped, mr)], [])
            | a :: aft' =>
                let '(ms, tail) := scan n' fl r (a :: upto mr) aft' in
                match ms with
                | [] => ([(skipped, mr)], a :: tail)
                | (sk, mr') :: ms' => ((skipped, mr) :: (a :: sk, mr') :: ms', tail)
                end
            end
          else
            let '(ms, tail) := scan n' fl r (upto mr) (rest mr) in
            ((skipped, mr) :: ms, tail)
      end
  end.

Definition scan_string (fl : flags) (r : regex) (s : string) :=
  scan (S (String.length s)) fl r [] (list_ascii_of_string s).

(** [s.match(re)] for a [g] pattern: the matched texts. *)
Definition match_all (fl : flags) (r : regex) (s : string) : list result :=
  map snd (fst (scan_string fl r s)).

(** [s.replace(re, f)] for a [g] pattern; [f] is the replacement
    callback, or the replacement string with its [$n] spelled out. *)
Definition replace_all (fl : flags) (r : regex) (f : result -> string) (s : string)
  : string :=
  let '(ms, tail) := scan_string fl r s in
  string_of_list_ascii
    (flat_map (fun sm => fst sm ++ list_ascii_of_string (f (snd sm))) ms ++ tail).

(** [s.replace(re, f)] for a pattern without the [g] flag: the first
    match only. *)
Definition replace_first (fl : flags) (r : regex) (f : result -> string) (s : string)
  : string :=
  match search fl r [] (list_ascii_of_string s) with
  | None => s
  | Some (skipped, mr) =>
      string_of_list_ascii (skipped ++ list_ascii_of_string (f mr) ++ rest mr)
  end.

(** [s.split(re)] for a pattern without capturing groups.  The matcher
    is tried at each position [q] behind the last cut [p]; a match that
    ends at [p] itself is passed over; any other match closes the piece.
    [piece] holds the characters since the last cut, reversed.  A round
    moves the position or, on a cut, empties the piece, so twice the
    length of the input plus two rounds are enough. *)
Fixpoint split_loop (n : nat) (fl : flags) (r : regex)
  (bef piece aft : list ascii) : list string :=
  match n with
  | O => []
  | S n' =>
      match aft with
      | [] => [string_of_list_ascii (rev piece)]
      | a :: aft' =>
          match match_here fl r bef aft with
          | Some mr =>
              if is_nil piece && Str.isEmpty (matched mr)
              then split_loop n' fl r (a :: bef) (a :: piece) aft'
              else string_of_list_ascii (rev piece)
                     :: split_loop n' fl r (upto mr) [] (rest mr)
          | None => split_loop n' fl r (a :: bef) (a :: piece) aft'
          end
      end
  end.

Definition split (fl : flags) (r : regex) (s : string) : list string :=
  match s with
  | EmptyString =>
      match match_here fl r [] [] with
      | Some _ => []
      | None => [EmptyString]
      end
  | _ => split_loop (2 * String.length s + 2) fl r [] [] (list_ascii_of_string s)
  end.

End Re.

(** ** JSON values as the scripts see them *)

Module Js.

(** A decoded JSON value, or [undefined].  Numbers are restricted to
    integers (identifiers and 0/1 flags are what the scripts read).  An
    object keeps its properties in insertion order, one entry per key. *)
Inductive value : Type :=
| Undefined
| Null
| Bool (b : bool)
| Num (n : Z)
| Str (s : string)
| Arr (items : list value)
| Obj (props : list (string * value)).

(** [Boolean(v)], the test of [if (v)] and of [!v]. *)
Definition truthy (v : value) : bool :=
  match v with
  | Undefined | Null => false
  | Bool b => b
  | Num n => negb (n =? 0)%Z
  | Str s => negb (Str.isEmpty s)
  | Arr _ | Obj _ => true
  end.

Fixpoint lookup (key : string) (props : list (string * value)) : option value :=
  match props with
  | [] => None
  | (k, v) :: ps => if String.eqb k key then Some v else lookup key ps
  end.

(** [v.key] for a truthy [v]: an absent property reads as [undefined]. *)
Definition get (key : string) (v : value) : value :=
  match v with
  | Obj props =>
      match lookup key props with
      | Some x => x
      | None => Undefined
      end
  | _ => Undefined
  end.

(** [Object.prototype.hasOwnProperty.call(v, key)] for a key that is
    neither an index nor [length]. *)
Definition hasOwn (key : string) (v : value) : bool :=
  match v with
  | Obj props =>
      match lookup key props with
      | Some _ => true
      | None => false
      end
  | _ => false
  end.

(** [typeof v === 'object']. *)
Definition isObjectType (v : value) : bool :=
  match v with
  | Null | Arr _ | Obj _ => true
  | _ => false
  end.


(** Defines or overwrites one property; an existing key keeps its place. *)
Fixpoint define (key : string) (v : value) (props : list (string * value))
  : list (string * value) :=
  match props with
  | [] => [(key, v)]
  | (k, x) :: ps =>
      if String.eqb k key then (k, v) :: ps else (k, x) :: define key v ps
  end.

Fixpoint decimal_digits (fuel n : nat) (acc : string) : string :=
  match fuel with
  | O => acc
  | S fuel' =>
      let acc' := String (ascii_of_nat (48 + n mod 10)) acc in
      if n / 10 =? 0 then acc' else decimal_digits fuel' (n / 10) acc'
  end.

(** The property name of an array index. *)
Definition index_key (n : nat) : string := decimal_digits (S n) n EmptyString.

Fixpoint indexed (n : nat) (items : list value) : list (string * value) :=
  match items with
  | [] => []
  | v :: vs => (index_key n, v) :: indexed (S n) vs
  end.

(** The own enumerable properties that [{...v}] copies. *)
Definition ownProps (v : value) : list (string * value) :=
  match v with
  | Obj props => props
  | Arr items => indexed 0 items
  | _ => []
  end.

(** [{ ...base, ...v }] given the properties of the literal so far. *)
Definition spread (base : list (string * value)) (v : value) : list (string * value) :=
  fold_left (fun acc kv => define (fst kv) (snd kv) acc) (ownProps v) base.

End Js.

(** ** Entity normaliser: Strapi media wrappers
    (complete-migration.mjs and the migrate-to-wp script) *)

Module Media.

Import Js.

Definition normalizeStrapiMediaNode (node : value) : value :=
  if negb (truthy node) then Null
  else if truthy (get "attributes" node) && isObjectType (get "attributes" node)
       then Obj (spread [("id", get "id" node)] (get "attributes" node))
       else node.

Definition normalizeStrapiMedia (v : value) : value :=
  if negb (truthy v) then Null
  else
    match v with
    | Arr items => Arr (filter truthy (map normalizeStrapiMediaNode items))
    | _ =>
        if hasOwn "data" v then
          let data := get "data" v in
          if negb (truthy data) then Null
          else
            match data with
            | Arr items => Arr (filter truthy (map normalizeStrapiMediaNode items))
            | _ => normalizeStrapiMediaNode data
            end
        else normalizeStrapiMediaNode v
    end.

End Media.

(** ** Entity normaliser: boolean-ish fields *)

Module Booleans.

Import Js.

(** [parseAcfBoolean] of the WordPress client; [parseBoolean] of
    complete-migration.mjs has the same body. *)
(** [v === lit] for a primitive literal [lit]. *)
Definition strictEq (v lit : value) : bool :=
  match v, lit with
  | Undefined, Undefined => true
  | Null, Null => true
  | Bool a, Bool b => Bool.eqb a b
  | Num a, Num b => (a =? b)%Z
  | Str a, Str b => String.eqb a b
  | _, _ => false
  end.

Definition parseAcfBoolean (v : value) : bool :=
  if strictEq v (Bool true) then true
  else if strictEq v (Bool false) then false
  else if strictEq v (Num 1) || strictEq v (Str "1") then true
  else if strictEq v (Num 0) || strictEq v (Str "0") then false
  else if strictEq v (Str "true") then true
  else if strictEq v (Str "false") then false
  else if strictEq v (Str "") || strictEq v Null || strictEq v Undefined then false
  else truthy v.

(** [parseBoolean] of the CSV parsers ([value: string]). *)
Definition parseBoolean (value : string) : bool :=
  if Str.isEmpty value then false
  else
    let normalized := Str.trim (Str.toLowerCase value) in
    String.eqb normalized "true" || String.eqb normalized "yes"
    || String.eqb normalized "1".

End Booleans.

(** ** Slug reconciler (WordPress client) *)

Module Slug.

Import Re.

(** The pattern  ^ ( .* ) - ( \d{1,2} ) $  of [stripWpDuplicateSuffix]. *)
Definition duplicateSuffix : regex :=
  seq [Bol; Group 1 (star Any); Chr "-"; Group 2 (range digit 1 2); Eol].

(** [Number(s)] for a string of decimal digits; [None] stands for a
    value that is not a finite number. *)
Fixpoint digitsValue (acc : Z) (s : string) : option Z :=
  match s with
  | EmptyString => Some acc
  | String a s' =>
      if Chars.is_digit a
      then digitsValue (10 * acc + Z.of_nat (Chars.code a - 48)) s'
      else None
  end.

Definition Number (s : string) : option Z :=
  if Str.isEmpty s then None else digitsValue 0 s.

Definition stripWpDuplicateSuffix (slug : string) : string :=
  match exec plain duplicateSuffix slug with
  | None => slug
  | Some mt =>
      match Number (sub 2 mt) with
      | None => slug
      | Some n => if (n <? 2)%Z || (n >? 99)%Z then slug else sub 1 mt
      end
  end.

Definition isWpDuplicateSlug (slug : string) : bool :=
  negb (String.eqb (stripWpDuplicateSuffix slug) slug).

(** [stripWpDuplicateSuffix] of sync_wp_insights_from_csv.mjs trims first. *)
Definition stripWpDuplicateSuffix_csv (slug : string) : string :=
  stripWpDuplicateSuffix (Str.trim slug).

(** [pickPreferredBySlug] and [dedupeBySlug] are generic in the record
    type; they read [slug], and through [any] the properties [date] and
    [id]. *)
Section Dedupe.

Variable T : Type.
Variable slug : T -> string.
(** The [date] property, [None] when it is absent or empty. *)
Variable date : T -> option string.
(** [Number(x.id)], [None] when it is not finite. *)
Variable id : T -> option Z.
(** [Date.parse], [None] for [NaN]. *)
Variable Date_parse : string -> option Z.

Definition dateOf (a : T) : option Z :=
  match date a with
  | Some d => Date_parse d
  | None => None
  end.

Definition pickPreferredBySlug (a b : T) : T :=
  let aIsDup := isWpDuplicateSlug (slug a) in
  let bIsDup := isWpDuplicateSlug (slug b) in
  if negb (Bool.eqb aIsDup bIsDup) then (if aIsDup then b else a)
  else
    match dateOf a, dateOf b with
    | Some aDate, Some bDate =>
        if negb (aDate =? bDate)%Z then (if (aDate >? bDate)%Z then a else b)
        else
          match id a, id b with
          | Some aId, Some bId =>
              if negb (aId =? bId)%Z then (if (aId >? bId)%Z then a else b) else a
          | _, _ => a
          end
    | _, _ =>
        match id a, id b with
        | Some aId, Some bId =>
            if negb (aId =? bId)%Z then (if (aId >? bId)%Z then a else b) else a
        | _, _ => a
        end
    end.

(** The [Map<string, T>] of [dedupeBySlug]: keys in insertion order. *)
Fixpoint map_get (key : string) (mp : list (string * T)) : option T :=
  match mp with
  | [] => None
  | (k, v) :: mp' => if String.eqb k key then Some v else map_get key mp'
  end.

Fixpoint map_set (key : string) (v : T) (mp : list (string * T)) : list (string * T) :=
  match mp with
  | [] => [(key, v)]
  | (k, x) :: mp' =>
      if String.eqb k key then (k, v) :: mp' else (k, x) :: map_set key v mp'
  end.

Definition dedupeStep (mp : list (string * T)) (item : T) : list (string * T) :=
  let key := stripWpDuplicateSuffix (slug item) in
  match map_get key mp with
  | None => map_set key item mp
  | Some existing => map_set key (pickPreferredBySlug existing item) mp
  end.

Definition dedupeBySlug (items : list T) : list T :=
  map snd (fold_left dedupeStep items []).

End Dedupe.

(** The records that reach [dedupeBySlug]: the [Work] and [Insight]
    objects built by [transformWork] and [transformInsight].  Of their
    fields the reconciler can see [id], [slug] and [publishDate]; neither
    has a property called [date]. *)
Record post : Type := {
  post_id : Z;
  post_slug : string;
  post_date : option string
}.

Record Work : Type := {
  id : Z;
  slug : string;
  publishDate : option string
}.

Definition transformWork (p : post) : Work :=
  {| id := post_id p; slug := post_slug p; publishDate := post_date p |}.

Definition dedupeWorks (Date_parse : string -> option Z) (works : list Work) : list Work :=
  dedupeBySlug Work slug (fun _ => None) (fun w => Some (id w)) Date_parse works.

End Slug.

(** ** Sync driver: bounded retry (utils/retry.ts) *)

Module Retry.

Inductive event : Type :=
| Invoked (attempt : Z)                         (* fn() was called *)
| Warned (attempt maxRetries delay : Z)         (* logger.warn *)
| Failed (maxRetries : Z)                       (* logger.error *)
| Slept (ms : Z).                               (* await sleep(ms) *)

Inductive outcome (E T : Type) : Type :=
| Returned (v : T)
| Threw (e : E)                 (* the error of an attempt, rethrown *)
| Unreachable                   (* throw new Error('Unreachable') *)
| Unfinished.                   (* the iteration budget of the model ran out *)
Arguments Returned {E T} v.
Arguments Threw {E T} e.
Arguments Unreachable {E T}.
Arguments Unfinished {E T}.

Record options : Type := {
  opt_maxRetries : option Z;
  opt_delay : option Z
}.


Definition or_default (o : option Z) (d : Z) : Z :=
  match o with
  | Some v => v
  | None => d
  end.

Section Retry.

Context {E T : Type}.

(** The wrapped function, as the sequence of its outcomes: [fn n] is
    what the call made after [n] earlier calls does -- it rejects with
    an error or resolves with a value. *)
Variable fn : nat -> E + T.
Variables maxRetries delay : Z.

(** The [for] loop from [attempt] on; [calls] counts the invocations
    made so far, [n] bounds the iterations of the model. *)
Fixpoint loop (n : nat) (attempt : Z) (calls : nat) : list event * outcome E T :=
  if (attempt <=? maxRetries)%Z then
    match n with
    | O => ([], Unfinished)
    | S n' =>
        match fn calls with
        | inr v => ([Invoked attempt], Returned v)
        | inl error =>
            if (attempt =? maxRetries)%Z
            then ([Invoked attempt; Failed maxRetries], Threw error)
            else
              let '(tr, out) := loop n' (attempt + 1)%Z (S calls) in
              (Invoked attempt :: Warned attempt maxRetries delay
                 :: Slept (delay * attempt)%Z :: tr, out)
        end
    end
  else ([], Unreachable).

End Retry.

Definition retry {E T : Type} (fn : nat -> E + T) (o : options)
  : list event * outcome E T :=
  let maxRetries := or_default (opt_maxRetries o) 3 in
  let delay := or_default (opt_delay o) 1000 in
  loop fn maxRetries delay (Z.to_nat maxRetries) 1%Z 0.

Definition is_call (e : event) : bool :=
  match e with Invoked _ => true | _ => false end.

(** How often the wrapped function was invoked in a run. *)
Definition calls_of (tr : list event) : nat := length (filter is_call tr).

(** The delays of a run, in order. *)
Fixpoint delays_of (tr : list event) : list Z :=
  match tr with
  | [] => []
  | Slept ms :: tr' => ms :: delays_of tr'
  | _ :: tr' => delays_of tr'
  end.

End Retry.

(** ** Media downloader (migration/src/uploaders/media.ts) and the
       WordPress uploader's file naming *)

Module Download.

Import Chars.

(** *** [decodeURIComponent]

    The result is a sequence of UTF-16 code units: an escape sequence can
    name any code point.  [None] is a [URIError]. *)

Definition hexValue (a : ascii) : option N :=
  if is_digit a then Some (N.of_nat (code a - 48))
  else if in_range 65 70 a then Some (N.of_nat (code a - 55))
  else if in_range 97 102 a then Some (N.of_nat (code a - 87))
  else None.

(** The byte of an escape [%XX] at the head of the input. *)
Definition escape (l : list ascii) : option (N * list ascii) :=
  match l with
  | c :: h1 :: h2 :: l' =>
      if Ascii.eqb c "%" then
        match hexValue h1, hexValue h2 with
        | Some a, Some b => Some (16 * a + b, l')%N
        | _, _ => None
        end
      else None
  | _ => None
  end.

Fixpoint escapes (n : nat) (l : list ascii) : option (list N * list ascii) :=
  match n with
  | O => Some ([], l)
  | S n' =>
      match escape l with
      | Some (b, l') =>
          match escapes n' l' with
          | Some (bs, l'') => Some (b :: bs, l'')
          | None => None
          end
      | None => None
      end
  end.

(** The number of leading 1 bits of a byte. *)
Definition leadingOnes (b : N) : nat :=
  if (b <? 128)%N then 0
  else if (b <? 192)%N then 1
  else if (b <? 224)%N then 2
  else if (b <? 240)%N then 3
  else if (b <? 248)%N then 4
  else 5.

Definition isContinuation (b : N) : bool := (128 <=? b)%N && (b <? 192)%N.

(** The code point of a well-formed UTF-8 sequence of 2 to 4 bytes: no
    overlong form, no surrogate, nothing above U+10FFFF. *)
Definition utf8CodePoint (b : N) (bs : list N) : option N :=
  if forallb isContinuation bs then
    let v := fold_left (fun acc c => (64 * acc + (c - 128))%N) bs
               (match bs with
                | [_] => b - 192
                | [_; _] => b - 224
                | _ => b - 240
                end)%N in
    let least := match bs with
                 | [_] => 128
                 | [_; _] => 2048
                 | _ => 65536
                 end%N in
    if (least <=? v)%N && (v <=? 1114111)%N
       && negb ((55296 <=? v)%N && (v <=? 57343)%N)
    then Some v else None
  else None.

(** UTF16EncodeCodePoint. *)
Definition utf16 (v : N) : list N :=
  if (v <? 65536)%N then [v]
  else [55296 + (v - 65536) / 1024; 56320 + (v - 65536) mod 1024]%N.

(** One round handles one character or one escaped code point; the
    input shrinks every round, so [length l] rounds are enough. *)
Fixpoint decodeLoop (n : nat) (l : list ascii) : option (list N) :=
  match l with
  | [] => Some []
  | c :: l' =>
      match n with
      | O => None
      | S n' =>
          if Ascii.eqb c "%" then
            match escape l with
            | None => None
            | Some (b, l1) =>
                match leadingOnes b with
                | 0 => option_map (cons b) (decodeLoop n' l1)
                | 1 => None
                | S k =>
                    if 4 <? S k then None
                    else
                      match escapes k l1 with
                      | None => None
                      | Some (bs, l2) =>
                          match utf8CodePoint b bs with
                          | None => None
                          | Some v => option_map (app (utf16 v)) (decodeLoop n' l2)
                          end
                      end
                end
            end
          else option_map (cons (N.of_nat (code c))) (decodeLoop n' l')
      end
  end.

Definition decodeURIComponent (s : string) : option (list N) :=
  decodeLoop (String.length s) (list_ascii_of_string s).

(** *** [downloadImage] *)

Record response : Type := {
  data : string;
  (** [response.headers['content-type']], when the header is there *)
  contentTypeHeader : option string
}.

Inductive error : Type :=
| HttpError (status : option nat)    (* an axios error; [error.response?.status] *)
| URIError                           (* thrown by decodeURIComponent *)
| UploadError.                       (* 'Upload response did not include file ID' *)

Record image : Type := {
  buffer : string;
  filename : string;
  contentType : string
}.

(** [a || b] on strings that may be undefined. *)
Definition orElse (a : option string) (b : string) : string :=
  match a with
  | Some x => if Str.isEmpty x then b else x
  | None => b
  end.

(** [decoded.replace(/[^a-zA-Z0-9._-]/g, '_')], code unit by code unit. *)
Definition safeUnit (u : N) : ascii :=
  let a := ascii_of_N u in
  if (u <? 256)%N
     && (is_alnum a || Ascii.eqb a "." || Ascii.eqb a "_" || Ascii.eqb a "-")
  then a else "_"%char.

Definition cleanFilename (units : list N) : string :=
  string_of_list_ascii (map safeUnit units).

(** [urlParts[urlParts.length - 1].split('?')[0]]. *)
Definition rawFilename (url : string) : string :=
  hd EmptyString
     (Str.splitChar "?" (last (Str.splitChar "/" url) EmptyString)).

(** [contentType.split('/')[1]?.split(';')[0] || 'jpg'] with
    [contentType = response.headers['content-type'] || 'image/jpeg']. *)
Definition inferredExtension (header : option string) : string :=
  let contentType := orElse header "image/jpeg" in
  orElse (option_map (fun sub => hd EmptyString (Str.splitChar ";" sub))
                     (nth_error (Str.splitChar "/" contentType) 1))
         "jpg".

(** The block "Ensure it has an extension". *)
Definition ensureExtension (filename : string) (header : option string) : string :=
  if negb (Str.includes "." filename)
  then (filename ++ "." ++ inferredExtension header)%string
  else filename.

(** [error.response?.status === 404]. *)
Definition isNotFound (e : error) : bool :=
  match e with
  | HttpError (Some status) => status =? 404
  | _ => false
  end.

(** The result of the promise: [inl] is a rejection, [inr None] is the
    resolved [null]. *)
Definition downloadImage (axios_get : string -> error + response) (url : string)
  : error + option image :=
  let attempt : error + option image :=
    match axios_get url with
    | inl e => inl e
    | inr resp =>
        match decodeURIComponent (rawFilename url) with
        | None => inl URIError
        | Some units =>
            inr (Some {| buffer := data resp;
                         filename := ensureExtension (cleanFilename units)
                                                     (contentTypeHeader resp);
                         contentType := orElse (contentTypeHeader resp) "image/jpeg" |})
        end
    end in
  match attempt with
  | inl e => if isNotFound e then inr None else inl e
  | inr r => inr r
  end.

(** [uploadToStrapi]; [axios_post] gives [response.data[0]?.id]. *)
Definition uploadToStrapi (dryRun : bool) (axios_post : image -> error + option Z)
  (img : image) : error + option Z :=
  if dryRun then inr (Some (-1)%Z)
  else
    match axios_post img with
    | inl e => inl e
    | inr (Some fileId) => inr (Some fileId)
    | inr None => inl UploadError
    end.

(** The function [processImage] hands to [retry]; [n] counts the earlier
    attempts, and the network answers each attempt on its own. *)
Definition processAttempt (dryRun : bool)
  (axios_get : nat -> string -> error + response)
  (axios_post : nat -> image -> error + option Z)
  (url : string) (n : nat) : error + option Z :=
  match downloadImage (axios_get n) url with
  | inl e => inl e
  | inr None => inr None
  | inr (Some img) => uploadToStrapi dryRun (axios_post n) img
  end.

Definition processImage (dryRun : bool)
  (axios_get : nat -> string -> error + response)
  (axios_post : nat -> image -> error + option Z)
  (url : string) : list Retry.event * option Z :=
  if Str.isEmpty url then ([], None)
  else
    let '(tr, out) :=
      Retry.retry (processAttempt dryRun axios_get axios_post url)
        {| Retry.opt_maxRetries := Some 3%Z; Retry.opt_delay := Some 1000%Z |} in
    match out with
    | Retry.Returned v => (tr, v)
    | _ => (tr, None)
    end.

(** *** [pickFilenameFromUrl] of the WordPress uploader *)

(** The pattern  \.[a-z0-9]{2,5}$  with the [i] flag. *)
Definition hasExtension : Re.regex :=
  Re.seq [Re.Chr "."; Re.range (Re.Cls false [Re.CRange "a" "z"; Re.CRange "0" "9"]) 2 5;
          Re.Eol].

Definition extFromType (contentType : string) : string :=
  let ct := Str.toLowerCase contentType in
  if Str.includes "image/jpeg" ct then "jpg"
  else if Str.includes "image/png" ct then "png"
  else if Str.includes "image/webp" ct then "webp"
  else if Str.includes "image/gif" ct then "gif"
  else if Str.includes "image/avif" ct then "avif"
  else if Str.includes "image/svg" ct then "svg"
  else "bin".

Definition units_of (s : string) : list N :=
  map (fun a => N.of_nat (code a)) (list_ascii_of_string s).

(** [contentType] is [String(contentType || '')]; [None] is a [URIError]. *)
Definition pickFilenameFromUrl (url contentType : string) : option (list N) :=
  let clean := hd EmptyString
                 (Str.splitChar "?" (hd EmptyString (Str.splitChar "#" url))) in
  let base := orElse (Some (last (Str.splitChar "/" clean) EmptyString)) "image" in
  if Re.test Re.flag_i hasExtension base then decodeURIComponent base
  else
    option_map (fun d => d ++ units_of ("." ++ extFromType contentType)%string)
               (decodeURIComponent base).

End Download.

(** ** Rich-text sanitiser (WordPress client) *)

Module RichText.

Import Re Chars.
Import Str(DQ, dquote).

(** What the sanitiser takes from its surroundings: the two site
    addresses and the host name the WHATWG URL parser finds in an
    address ([new URL(u).hostname], [None] when the parser throws). *)
Record env : Type := {
  WP_URL : string;
  SITE_URL : string;
  hostname : string -> option string
}.

Definition const (s : string) : result -> string := fun _ => s.

(** Characters used in patterns. *)
Definition SQ : string := "'".
Definition quotes : regex := Cls false [CChar dquote; CChar "'"].       (* one of the two quotes *)
Definition hexdigit : regex :=
  Cls false [CRange "0" "9"; CRange "a" "f"; CRange "A" "F"].
Definition letter : regex := Cls false [CRange "a" "z"; CRange "A" "Z"].
Definition alnum : regex := Cls false [CRange "0" "9"; CRange "A" "Z"; CRange "a" "z"].
Definition nl : regex := Chr LF.
Definition NL : string := String LF EmptyString.

(** *** Hosts and addresses *)

Section WithEnv.

Variable e : env.

(** The pattern  ^www\.  *)
Definition leadingWww : regex := seq [Bol; lit "www."].

Definition normalizeHost (host : option string) : option string :=
  match host with
  | None => None
  | Some h =>
      if Str.isEmpty h then None
      else Some (replace_first plain leadingWww (const "") (Str.toLowerCase h))
  end.

Definition WP_HOST_NORMALIZED : option string := normalizeHost (hostname e (WP_URL e)).
Definition SITE_HOST_NORMALIZED : option string := normalizeHost (hostname e (SITE_URL e)).

Definition sameHost (allowed : option string) (normalized : string) : bool :=
  match allowed with
  | Some h => String.eqb normalized h
  | None => false
  end.

Definition isAllowedContentHost (host : option string) : bool :=
  match normalizeHost host with
  | None => false
  | Some normalized =>
      if Str.isEmpty normalized then false
      else sameHost WP_HOST_NORMALIZED normalized
           || sameHost SITE_HOST_NORMALIZED normalized
  end.

Definition isAllowedContentUrl (url : string) : bool :=
  if Str.startsWith "/" url then true
  else
    match hostname e url with
    | Some h => isAllowedContentHost (Some h)
    | None => false
    end.

End WithEnv.

(** *** [decodeHtmlEntities] *)

(** The pattern  & ( #x?[0-9a-fA-F]+ | [a-zA-Z]+ ) ;  *)
Definition entity : regex :=
  seq [Chr "&";
       Group 1 (Alt (seq [Chr "#"; opt (Chr "x"); plus hexdigit]) (plus letter));
       Chr ";"].

(** [parseInt(s, 10)] and [parseInt(s, 16)] on a run of hexadecimal
    digits: the value of the longest prefix in the radix, [None] ([NaN])
    when that prefix is empty. *)
Fixpoint parseDigits (radix : N) (acc : option N) (s : string) : option N :=
  match s with
  | EmptyString => acc
  | String a s' =>
      match Download.hexValue a with
      | Some d =>
          if (d <? radix)%N
          then parseDigits radix
                 (Some (radix * match acc with Some v => v | None => 0 end + d)%N) s'
          else acc
      | None => acc
      end
  end.

Definition parseInt (s : string) (radix : N) : option N := parseDigits radix None s.

(** [String.fromCodePoint(n)].  A code point above 255 is a character
    outside the modelled alphabet (and above U+10FFFF a [RangeError]):
    the caller then keeps the reference as it stands. *)
Definition fromCodePoint (n : N) : option string :=
  if (n <? 256)%N then Some (String (ascii_of_N n) EmptyString) else None.

Definition named (name : string) : option string :=
  if String.eqb name "amp" then Some "&"
  else if String.eqb name "lt" then Some "<"
  else if String.eqb name "gt" then Some ">"
  else if String.eqb name "quot" then Some DQ
  else if String.eqb name "apos" then Some "'"
  else if String.eqb name "nbsp" then Some " "
  else None.

Definition decodeEntity (mt : result) : string :=
  let ent := sub 1 mt in
  match ent with
  | EmptyString => matched mt
  | String first _ =>
      if Ascii.eqb first "#" then
        let isHex := match Str.slice 1 2 ent with
                     | String c _ => Ascii.eqb (to_lower c) "x"
                     | EmptyString => false
                     end in
        let num := if isHex then parseInt (Str.sliceFrom 2 ent) 16
                   else parseInt (Str.sliceFrom 1 ent) 10 in
        match num with
        | None => matched mt
        | Some n =>
            match fromCodePoint n with
            | Some s => s
            | None => matched mt
            end
        end
      else
        match named (Str.toLowerCase ent) with
        | Some s => s
        | None => matched mt
        end
  end.

Definition decodeHtmlEntities (value : string) : string :=
  replace_all plain entity decodeEntity value.

Definition escapeHtml (text : string) : string :=
  replace_all plain (Chr "'") (const "&#39;")
    (replace_all plain (Chr dquote) (const "&quot;")
       (replace_all plain (Chr ">") (const "&gt;")
          (replace_all plain (Chr "<") (const "&lt;")
             (replace_all plain (Chr "&") (const "&amp;") text)))).

(** *** Patterns shared by the sanitiser and the table recovery *)

(** <\s*br\s*\/?\s*>  *)
Definition brTag : regex :=
  seq [Chr "<"; star space; lit "br"; star space; opt (Chr "/"); star space; Chr ">"].
(** <[^>]+>  *)
Definition anyTag : regex := seq [Chr "<"; plus (noneof ">"); Chr ">"].
(** <\/?span\b[^>]*>  *)
Definition spanTag : regex :=
  seq [Chr "<"; opt (Chr "/"); lit "span"; WordB; star (noneof ">"); Chr ">"].
(** &nbsp;|&#160;|&#xA0;  *)
Definition nbspEntity : regex := alt [lit "&nbsp;"; lit "&#160;"; lit "&#xA0;"].
(** [\s ]+  *)
Definition spaces : regex := plus (Cls false [CSpace; CChar NBSP]).
(** \n{3,}  *)
Definition blankLines : regex := at_least nl 3.

(** *** [recoverFlatTgTable] *)

Record headerConfig : Type := { columns : nat; expectedHeader : list string }.

Definition headerConfigs : list headerConfig :=
  [ {| columns := 4; expectedHeader := ["variable"; "category"; "subcategory"; "details"] |};
    {| columns := 3; expectedHeader := ["key metrics"; "category"; "details"] |} ].

Definition normalizeHeaderText (text : string) : string :=
  Str.toLowerCase (Str.trim (replace_all plain spaces (const " ") text)).

(** <!--[\s\S]*?-->  *)
Definition htmlComment : regex := seq [lit "<!--"; lazy_star anything; lit "-->"].
(** &nbsp;|&#160;|&#xA0;|&ZeroWidthSpace;  *)
Definition blankEntity : regex :=
  alt [lit "&nbsp;"; lit "&#160;"; lit "&#xA0;"; lit "&ZeroWidthSpace;"].

(** The last pattern of the chain also lists U+200B, U+200C, U+200D and
    U+FEFF, which lie outside the alphabet. *)
Definition isIgnorableBetween (text : string) : bool :=
  let stripped :=
    replace_all plain spaces (const "")
      (replace_all flag_i blankEntity (const "")
         (replace_all plain anyTag (const "")
            (replace_all flag_i spanTag (const "")
               (replace_all flag_i brTag (const "")
                  (replace_all plain htmlComment (const "") text))))) in
  String.length stripped =? 0.

Definition formatCellHtml (text : string) : string :=
  let safe := escapeHtml text in
  replace_all plain nl (const "<br/>")
    (replace_all plain (at_least nl 2) (const NL) safe).

Definition nonEmpty (s : string) : bool := negb (Str.isEmpty s).

Definition splitRowTokens (text : string) : option (list string) :=
  let raw := text in
  let hasNewline := Str.includes NL raw in
  let hasPipes := Str.includes "|" raw in
  if negb hasNewline && negb hasPipes then None
  else
    let parts :=
      filter nonEmpty
        (map (fun p => Str.trim (replace_all plain spaces (const " ") p))
             (if hasPipes then Str.splitChar "|" raw else split plain (plus nl) raw)) in
    if length parts <? 2 then None
    else if 6 <? length parts then None
    else Some parts.

(** One paragraph found by [pRegex]. *)
Record paragraph : Type := {
  p_start : nat;
  p_end : nat;
  p_inner : string;
  p_text : string
}.

(** <p\b[^>]*>[\s\S]*?<\/p>  with the flags [gi]. *)
Definition pRegex : regex :=
  seq [lit "<p"; WordB; star (noneof ">"); Chr ">"; lazy_star anything; lit "</p>"].
(** ^<p\b[^>]*>  and  <\/p>$  *)
Definition openingP : regex := seq [Bol; lit "<p"; WordB; star (noneof ">"); Chr ">"].
Definition closingP : regex := seq [lit "</p>"; Eol].

(** The text of a paragraph; the removal of U+200B, U+200C, U+200D and
    U+FEFF before [trim] has nothing to remove inside the alphabet. *)
Definition paragraphText (inner : string) : string :=
  Str.trim
    (replace_all flag_i nbspEntity (const " ")
       (replace_all plain anyTag (const "")
          (replace_all flag_i brTag (const NL)
             (decodeHtmlEntities inner)))).

Definition paragraphOf (mt : result) : paragraph :=
  let full := matched mt in
  let inner := replace_first flag_i closingP (const "")
                 (replace_first flag_i openingP (const "") full) in
  {| p_start := index mt;
     p_end := index mt + String.length full;
     p_inner := inner;
     p_text := paragraphText inner |}.

Definition paragraphs (inputHtml : string) : list paragraph :=
  map paragraphOf (match_all flag_i pRegex inputHtml).

(** [hs.every((h, i) => normalizeHeaderText(h) === expected[i])]. *)
Fixpoint everyMatches (hs expected : list string) : bool :=
  match hs with
  | [] => true
  | h :: hs' =>
      match expected with
      | [] => false
      | x :: expected' =>
          String.eqb (normalizeHeaderText h) x && everyMatches hs' expected'
      end
  end.

(** A paragraph text that counts as blank: empty (the comparison with
    the single character U+200D cannot succeed inside the alphabet). *)
Definition blank (t : string) : bool := Str.isEmpty t.

(** The header row written in one paragraph: the first configuration
    whose labels the tokens of the paragraph spell. *)
Definition headerInOneParagraph (text : string) : option (headerConfig * list string) :=
  match splitRowTokens text with
  | None => None
  | Some maybeRow =>
      option_map (fun cfg => (cfg, maybeRow))
        (find (fun cfg => (length maybeRow =? columns cfg)
                          && everyMatches maybeRow (expectedHeader cfg))
              headerConfigs)
  end.

(** The [while] loop that looks for the remaining labels in the
    paragraphs after the first one, skipping blank ones. *)
Fixpoint labelsFollow (expected : list string) (later : list paragraph) : bool :=
  match expected with
  | [] => true
  | x :: expected' =>
      match later with
      | [] => false
      | pj :: later' =>
          let t := normalizeHeaderText (p_text pj) in
          if blank t then labelsFollow expected later'
          else if String.eqb t x then labelsFollow expected' later'
               else false
      end
  end.

Definition headerAcrossParagraphs (t0 : string) (later : list paragraph)
  : option headerConfig :=
  find (fun cfg =>
          match expectedHeader cfg with
          | first :: others => String.eqb t0 first && labelsFollow others later
          | [] => false
          end)
       headerConfigs.

Record headerFound : Type := {
  headerIndex : nat;
  headerCfg : headerConfig;
  headerFromSingleParagraph : option (list string)
}.

(** The search for the header row; [i] is the index of the first
    paragraph of [ms]. *)
Fixpoint findHeader (i : nat) (ms : list paragraph) : option headerFound :=
  match ms with
  | [] => None
  | pi :: later =>
      let t0 := normalizeHeaderText (p_text pi) in
      if blank t0 then findHeader (S i) later
      else
        match headerInOneParagraph (p_text pi) with
        | Some (cfg, row) =>
            Some {| headerIndex := i; headerCfg := cfg;
                    headerFromSingleParagraph := Some row |}
        | None =>
            match headerAcrossParagraphs t0 later with
            | Some cfg =>
                Some {| headerIndex := i; headerCfg := cfg;
                        headerFromSingleParagraph := None |}
            | None => findHeader (S i) later
            end
        end
  end.

(** ^#{1,6}\s+  and  <\s*h[1-6]\b  *)
Definition headingMark : regex := seq [Bol; range (Chr "#") 1 6; plus space].
Definition headingTag : regex :=
  seq [Chr "<"; star space; Chr "h"; Cls false [CRange "1" "6"]; WordB].

Record collected : Type := {
  cells : list string;
  endIndex : Z
}.

(** The loop that gathers the cells, from paragraph [i] on. *)
Fixpoint collectCells (cols : nat) (inputHtml : string) (i : nat) (ms : list paragraph)
  (acc : list string) (blankStreak lastEnd : nat) (endIdx : Z) : collected :=
  match ms with
  | [] => {| cells := acc; endIndex := endIdx |}
  | pi :: later =>
      let between := Str.slice lastEnd (p_start pi) inputHtml in
      if negb (isIgnorableBetween between) then {| cells := acc; endIndex := endIdx |}
      else
        let text := p_text pi in
        if blank text then
          if (2 <=? S blankStreak) && (cols * 2 <=? length acc)
          then {| cells := acc; endIndex := endIdx |}
          else collectCells cols inputHtml (S i) later acc (S blankStreak) (p_end pi)
                            (Z.of_nat i)
        else if test plain headingMark text then {| cells := acc; endIndex := endIdx |}
        else if test flag_i headingTag between then {| cells := acc; endIndex := endIdx |}
        else
          let maybeRow := splitRowTokens text in
          let atRowStart := length acc mod cols =? 0 in
          let acc' :=
            match maybeRow with
            | Some row =>
                if atRowStart && (length row =? cols) then acc ++ row else acc ++ [text]
            | None => acc ++ [text]
            end in
          collectCells cols inputHtml (S i) later acc' 0 (p_end pi) (Z.of_nat i)
  end.

Definition tag (name inner : string) : string :=
  ("<" ++ name ++ ">" ++ inner ++ "</" ++ name ++ ">")%string.

Definition tableHtml (cols : nat) (header rowsNormalized : list string) (rowCount : nat)
  : string :=
  let thead :=
    tag "thead" (tag "tr" (String.concat "" (map (fun h => tag "th" (formatCellHtml h)) header))) in
  let tbodyRows :=
    map (fun i =>
           let row := firstn cols (skipn (i * cols) rowsNormalized) in
           tag "tr" (String.concat "" (map (fun c => tag "td" (formatCellHtml c)) row)))
        (List.seq 0 rowCount) in
  tag "table" (thead ++ tag "tbody" (String.concat "" tbodyRows))%string.

(** [recoverOnce]: [None] is [{ changed: false, html: inputHtml }]. *)
Definition recoverOnce (inputHtml : string) : option string :=
  let matches := paragraphs inputHtml in
  if length matches <? 6 then None
  else
    match findHeader 0 matches with
    | None => None
    | Some hf =>
        let cols := columns (headerCfg hf) in
        let hdr := nth (headerIndex hf) matches
                       {| p_start := 0; p_end := 0; p_inner := ""; p_text := "" |} in
        let start := p_start hdr in
        let got :=
          match headerFromSingleParagraph hf with
          | Some row =>
              collectCells cols inputHtml (S (headerIndex hf))
                (skipn (S (headerIndex hf)) matches) row 0 (p_end hdr)
                (Z.of_nat (headerIndex hf))
          | None =>
              collectCells cols inputHtml (headerIndex hf)
                (skipn (headerIndex hf) matches) [] 0 (p_start hdr)
                (Z.of_nat (headerIndex hf) - 1)
          end in
        if length (cells got) <? cols * 2 then None
        else
          let header := firstn cols (cells got) in
          if negb (everyMatches header (expectedHeader (headerCfg hf))) then None
          else
            let rows := skipn cols (cells got) in
            let rowCount := length rows / cols in
            if rowCount <? 1 then None
            else
              let rowsNormalized := firstn (rowCount * cols) rows in
              let table := tableHtml cols header rowsNormalized rowCount in
              let last := Z.to_nat (Z.max (Z.of_nat (headerIndex hf)) (endIndex got)) in
              let end_ := p_end (nth last matches
                                    {| p_start := 0; p_end := 0; p_inner := ""; p_text := "" |}) in
              Some (Str.slice 0 start inputHtml ++ table
                      ++ Str.sliceFrom end_ inputHtml)%string
    end.

Fixpoint recoverLoop (n : nat) (current : string) : string :=
  match n with
  | O => current
  | S n' =>
      match recoverOnce current with
      | None => current
      | Some html => recoverLoop n' html
      end
  end.

Definition recoverFlatTgTable (html : string) : string := recoverLoop 5 html.

(** *** [normalizeWpRichText] *)

Section Sanitiser.

Variable e : env.

(** href= ( [DQ '] ) ( https?:\/\/admin\.ahmadkarmi\.com ) ( \/ [^DQ ']* )? ( \1 )
    with the flags [gi]; DQ is the double quote. *)
Definition adminHref : regex :=
  seq [lit "href="; Group 1 quotes;
       Group 2 (seq [lit "http"; opt (Chr "s"); lit "://admin.ahmadkarmi.com"]);
       opt (Group 3 (seq [Chr "/"; star (Cls true [CChar dquote; CChar "'"])]));
       Group 4 (Backref 1)].
(** \/wp-content\/uploads\/  with the flag [i]. *)
Definition uploadsPath : regex := lit "/wp-content/uploads/".

Definition rewriteHref (mt : result) : string :=
  let urlPath := sub 3 mt in
  if test flag_i uploadsPath urlPath then matched mt
  else ("href=" ++ sub 1 mt ++ SITE_URL e ++ urlPath ++ sub 4 mt)%string.

(** <\s*[a-z][\s\S]*>  with the flag [i]. *)
Definition htmlLike : regex :=
  seq [Chr "<"; star space; Cls false [CRange "a" "z"]; star anything; Chr ">"].
(** <\s* ( img | iframe | figure | video | audio | table | pre | code | ul | ol
          | blockquote | h[1-6] ) \b  with the flag [i]. *)
Definition complexTag : regex :=
  seq [Chr "<"; star space;
       Group 1 (alt [lit "img"; lit "iframe"; lit "figure"; lit "video"; lit "audio";
                     lit "table"; lit "pre"; lit "code"; lit "ul"; lit "ol";
                     lit "blockquote"; seq [Chr "h"; Cls false [CRange "1" "6"]]]);
       WordB].
(** <\s*\/\s*p\s*>  and  <\s*p\b[^>]*>  *)
Definition closeP : regex :=
  seq [Chr "<"; star space; Chr "/"; star space; Chr "p"; star space; Chr ">"].
Definition openP : regex :=
  seq [Chr "<"; star space; Chr "p"; WordB; star (noneof ">"); Chr ">"].
(** [ \t]+\n  *)
Definition trailingBlanks : regex :=
  seq [plus (Cls false [CChar " "; CChar (ascii_of_nat 9)]); nl].
(** \bVisit Button\b\s*(?=\.modern-btn\b)  *)
Definition visitButton : regex :=
  seq [WordB; lit "Visit Button"; WordB; star space;
       Look (seq [lit ".modern-btn"; WordB])].
(** \.modern-btn[^\{]*\{[\s\S]*?\}\s*  and the same for  .tg  *)
Definition cssRule (selector : string) : regex :=
  seq [lit selector; star (noneof "{"); Chr "{"; lazy_star anything; Chr "}"; star space].

(** The seven tests of [looksLikeMarkdown]. *)
Definition mdHeading : regex :=       (* ( ^ | \n | \s ) #{1,6} \s+ \S *)
  seq [Group 1 (alt [Bol; nl; space]); range (Chr "#") 1 6; plus space; nonspace].
Definition mdBullet : regex :=        (* ( ^ | \n ) \s* [-*+] \s+ \S *)
  seq [Group 1 (alt [Bol; nl]); star space; oneof "-*+"; plus space; nonspace].
Definition mdNumbered : regex :=      (* ( ^ | \n ) \s* \d{1,2} \. \s+ \S *)
  seq [Group 1 (alt [Bol; nl]); star space; range digit 1 2; Chr "."; plus space; nonspace].
Definition mdBold : regex :=          (* \*\*[^*\n]{2,}\*\* *)
  seq [lit "**"; at_least (Cls true [CChar "*"; CChar LF]) 2; lit "**"].
Definition mdUnderline : regex :=     (* __[^_\n]{2,}__ *)
  seq [lit "__"; at_least (Cls true [CChar "_"; CChar LF]) 2; lit "__"].
Definition mdImage : regex :=         (* !\[ [^\]]* \]\( [^)]+ \) *)
  seq [lit "!["; star (noneof "]"); lit "]("; plus (noneof ")"); Chr ")"].
Definition mdLink : regex :=          (* \[ [^\]]+ \]\( [^)]+ \) *)
  seq [Chr "["; plus (noneof "]"); lit "]("; plus (noneof ")"); Chr ")"].

Definition looksLikeMarkdown (markdownCandidate : string) : bool :=
  test plain mdHeading markdownCandidate
  || test plain mdBullet markdownCandidate
  || test plain mdNumbered markdownCandidate
  || test plain mdBold markdownCandidate
  || test plain mdUnderline markdownCandidate
  || test plain mdImage markdownCandidate
  || test plain mdLink markdownCandidate.

(** ( ^ | [^\n] ) \s ( #{1,6} ) \s+ (?= [0-9A-Za-z*] )  *)
Definition inlineHeading : regex :=
  seq [Group 1 (alt [Bol; noneof (String LF EmptyString)]); space;
       Group 2 (range (Chr "#") 1 6); plus space;
       Look (Cls false [CRange "0" "9"; CRange "A" "Z"; CRange "a" "z"; CChar "*"])].
(** ( ^ | [^\n#] ) \s ( \d{1,2}\. ) \s+ (?= \*\* | __ | [A-Za-z0-9] )  *)
Definition inlineNumbered : regex :=
  seq [Group 1 (alt [Bol; Cls true [CChar LF; CChar "#"]]); space;
       Group 2 (seq [range digit 1 2; Chr "."]); plus space;
       Look (alt [lit "**"; lit "__";
                  Cls false [CRange "A" "Z"; CRange "a" "z"; CRange "0" "9"]])].
(** ^ \s{4,} ( #{1,6} \s+ )  with the flags [gm]. *)
Definition indentedHeading : regex :=
  seq [Bol; at_least space 4; Group 1 (seq [range (Chr "#") 1 6; plus space])].
(** \s - \s+ (?= ( \*\* | __ | \[ ) )  *)
Definition bulletSeparator : regex :=
  seq [space; Chr "-"; plus space; Look (Group 1 (alt [lit "**"; lit "__"; Chr "["]))].
(** !\[ [^\]]* \]\( ( https?:\/\/ [^)]+ ) \)  with the flags [gi]. *)
Definition externalImage : regex :=
  seq [lit "!["; star (noneof "]"); lit "](";
       Group 1 (seq [lit "http"; opt (Chr "s"); lit "://"; plus (noneof ")")]);
       Chr ")"].

Definition keepIfAllowed (n : nat) (mt : result) : string :=
  if isAllowedContentUrl e (sub n mt) then matched mt else EmptyString.

(** The body shared by the two Markdown branches. *)
Definition finishMarkdown (markdownCandidate : string) : string :=
  let fixedMarkdown :=
    replace_all plain (lit "](/wp-includes/")
      (const ("](" ++ WP_URL e ++ "/wp-includes/")%string)
      (replace_all plain (lit "](/wp-content/")
         (const ("](" ++ WP_URL e ++ "/wp-content/")%string) markdownCandidate) in
  let normalizedMarkdown :=
    Str.trim
      (replace_all plain blankLines (const (NL ++ NL)%string)
         (replace_all flag_m indentedHeading (fun mt => sub 1 mt)
            (replace_all plain inlineNumbered
               (fun mt => (sub 1 mt ++ NL ++ NL ++ sub 2 mt ++ " ")%string)
               (replace_all plain inlineHeading
                  (fun mt => (sub 1 mt ++ NL ++ NL ++ sub 2 mt ++ " ")%string)
                  fixedMarkdown)))) in
  let bulletSeparatorMatches := match_all plain bulletSeparator normalizedMarkdown in
  let normalizedMarkdownWithBullets :=
    if 2 <=? length bulletSeparatorMatches
    then replace_all plain bulletSeparator (const (NL ++ "- ")%string) normalizedMarkdown
    else normalizedMarkdown in
  replace_all flag_i externalImage (keepIfAllowed 1) normalizedMarkdownWithBullets.

(** Patterns of the HTML branch. *)
Definition styleBlock : regex :=      (* <style\b[^>]*>[\s\S]*?<\/style> *)
  seq [lit "<style"; WordB; star (noneof ">"); Chr ">"; lazy_star anything; lit "</style>"].
(** ( src | href ) = DQ \/wp-content\/  and its three siblings: the quote
    and the directory vary. *)
Definition relativeUrl (quote : ascii) (dir : string) : regex :=
  seq [Group 1 (alt [lit "src"; lit "href"]); Chr "="; Chr quote; Chr "/"; lit dir; Chr "/"].
Definition absoluteUrl (quote : ascii) (dir : string) (mt : result) : string :=
  (sub 1 mt ++ "=" ++ String quote EmptyString ++ WP_URL e ++ "/" ++ dir ++ "/")%string.
(** ( <figure\b [^>]*? ) \s style= ( [' DQ] ) [^' DQ >]* \2 ( [^>]* > )
    and the same for  img  *)
Definition inlineStyle (element : string) : regex :=
  seq [Group 1 (seq [Chr "<"; lit element; WordB; lazy_star (noneof ">")]);
       space; lit "style="; Group 2 quotes;
       star (Cls true [CChar "'"; CChar dquote; CChar ">"]); Backref 2;
       Group 3 (seq [star (noneof ">"); Chr ">"])].
(** \s srcset= ( [' DQ] ) ( [^' DQ < >]+ ) \1  *)
Definition srcset : regex :=
  seq [space; lit "srcset="; Group 1 quotes;
       Group 2 (plus (Cls true [CChar "'"; CChar dquote; CChar "<"; CChar ">"]));
       Backref 1].
(** ^https?:\/\/  with the flag [i]. *)
Definition httpPrefix : regex := seq [Bol; lit "http"; opt (Chr "s"); lit "://"].

Definition checkSrcset (mt : result) : string :=
  let raw := sub 2 mt in
  if negb (Str.includes "http" raw) then matched mt
  else
    let urls :=
      filter nonEmpty
        (map (fun part => hd EmptyString (split plain (plus space) (Str.trim part)))
             (Str.splitChar "," raw)) in
    let hasExternal :=
      existsb (fun u => test flag_i httpPrefix u && negb (isAllowedContentUrl e u)) urls in
    if hasExternal then EmptyString else matched mt.

(** The empty paragraph:
    <p\b [^>]* > (?: \s | &nbsp; | &#160; | &#xA0; | &ZeroWidthSpace; | NBSP
                   | <br\s*\/?\s*> | <\/?span\b[^>]*> )* <\/p>
    The alternatives U+200B, U+200C, U+200D and U+FEFF lie outside the
    alphabet. *)
Definition emptyParagraph : regex :=
  seq [lit "<p"; WordB; star (noneof ">"); Chr ">";
       star (alt [space; lit "&nbsp;"; lit "&#160;"; lit "&#xA0;"; lit "&ZeroWidthSpace;";
                  Chr NBSP; brTag; spanTag]);
       lit "</p>"].
(** <img\b [^>]* \b src= ( [' DQ] ) ( https?:\/\/ [^' DQ]+ ) \1 [^>]* >  *)
Definition imgWithSrc : regex :=
  seq [lit "<img"; WordB; star (noneof ">"); WordB; lit "src="; Group 1 quotes;
       Group 2 (seq [lit "http"; opt (Chr "s"); lit "://";
                     plus (Cls true [CChar "'"; CChar dquote])]);
       Backref 1; star (noneof ">"); Chr ">"].
(** <img\b (?! [^>]* \b loading= ) ( [^>]*? ) >  and the same for  decoding  *)
Definition imgWithout (attribute : string) : regex :=
  seq [lit "<img"; WordB;
       NLook (seq [star (noneof ">"); WordB; lit attribute; Chr "="]);
       Group 1 (lazy_star (noneof ">")); Chr ">"].
Definition imgWith (attribute value : string) (mt : result) : string :=
  ("<img " ++ attribute ++ "=" ++ DQ ++ value ++ DQ ++ sub 1 mt ++ ">")%string.

Definition fixHtml (value : string) : string :=
  let s1 := replace_all flag_i styleBlock (const "") value in
  let s2 := replace_all flag_i visitButton (const "") s1 in
  let s3 := replace_all flag_i (cssRule ".modern-btn") (const "") s2 in
  let s4 := replace_all flag_i (cssRule ".tg") (const "") s3 in
  let s5 := replace_all flag_i (relativeUrl dquote "wp-content")
              (absoluteUrl dquote "wp-content") s4 in
  let s6 := replace_all flag_i (relativeUrl "'" "wp-content")
              (absoluteUrl "'" "wp-content") s5 in
  let s7 := replace_all flag_i (relativeUrl dquote "wp-includes")
              (absoluteUrl dquote "wp-includes") s6 in
  let s8 := replace_all flag_i (relativeUrl "'" "wp-includes")
              (absoluteUrl "'" "wp-includes") s7 in
  let s9 := replace_all flag_i (inlineStyle "figure")
              (fun mt => (sub 1 mt ++ sub 3 mt)%string) s8 in
  let s10 := replace_all flag_i (inlineStyle "img")
               (fun mt => (sub 1 mt ++ sub 3 mt)%string) s9 in
  let s11 := replace_all flag_i srcset checkSrcset s10 in
  let s12 := replace_all flag_i emptyParagraph (const "") s11 in
  let s13 := replace_all flag_i imgWithSrc (keepIfAllowed 2) s12 in
  let s14 := replace_all flag_i (imgWithout "loading") (imgWith "loading" "lazy") s13 in
  replace_all flag_i (imgWithout "decoding") (imgWith "decoding" "async") s14.

(** [content] is a string here; for any other value the function
    returns [undefined], which is [None]. *)
Definition normalizeWpRichText (content : string) : option string :=
  let value := Str.trim content in
  if Str.isEmpty value then None
  else
    let value := replace_all flag_i adminHref rewriteHref value in
    let containsHtml := test flag_i htmlLike value in
    let hasComplexHtml := test flag_i complexTag value in
    let asTextForMarkdown :=
      Str.trim
        (replace_all plain blankLines (const (NL ++ NL)%string)
           (replace_all plain anyTag (const "")
              (replace_all flag_i openP (const "")
                 (replace_all flag_i closeP (const (NL ++ NL)%string)
                    (replace_all flag_i brTag (const NL) value))))) in
    let markdownCandidate :=
      Str.trim
        (replace_all plain blankLines (const (NL ++ NL)%string)
           (replace_all plain trailingBlanks (const NL)
              (replace_all plain (Chr NBSP) (const " ")
                 (decodeHtmlEntities asTextForMarkdown)))) in
    let markdownCandidate :=
      if Str.includes ".modern-btn" markdownCandidate then
        Str.trim
          (replace_all plain blankLines (const (NL ++ NL)%string)
             (replace_all flag_i (cssRule ".modern-btn") (const "")
                (replace_all flag_i visitButton (const "") markdownCandidate)))
      else markdownCandidate in
    let markdownCandidate :=
      if Str.includes ".tg" markdownCandidate then
        Str.trim
          (replace_all plain blankLines (const (NL ++ NL)%string)
             (replace_all flag_i (cssRule ".tg") (const "") markdownCandidate))
      else markdownCandidate in
    let looksMarkdown := looksLikeMarkdown markdownCandidate in
    let isWrappedMarkdown := containsHtml && negb hasComplexHtml && looksMarkdown in
    if isWrappedMarkdown then Some (finishMarkdown markdownCandidate)
    else if negb containsHtml && looksMarkdown then Some (finishMarkdown markdownCandidate)
    else Some (recoverFlatTgTable (fixHtml value)).

(** The sanitiser applied to a value that may be [undefined]. *)
Definition sanitize (content : option string) : option string :=
  match content with
  | Some s => normalizeWpRichText s
  | None => None
  end.

End Sanitiser.


End RichText.

(** ** Vocabulary of the statements *)

(** The string [s] does not contain the character [sep]. *)
Definition lacks (sep : ascii) (s : string) : Prop :=
  forall a, In a (list_ascii_of_string s) -> a <> sep.

(** Two characters that are equal, or the two cases of one ASCII letter. *)
Definition sameLetter (a b : ascii) : bool :=
  Ascii.eqb a b
  || (Chars.is_upper a && (Chars.code b =? Chars.code a + 32))
  || (Chars.is_lower a && (Chars.code b + 32 =? Chars.code a)).

(** [s] is [t] up to the case of its ASCII letters. *)
Fixpoint caseVariant (s t : string) : bool :=
  match s, t with
  | EmptyString, EmptyString => true
  | String a s', String b t' => sameLetter a b && caseVariant s' t'
  | _, _ => false
  end.

(** What the loop of [dedupeBySlug] maintains: the keys are distinct, and
    every value is an input record filed under its own base slug. *)
Definition dedupeInvariant (T : Type) (slug : T -> string)
  (items : list T) (mp : list (string * T)) : Prop :=
  NoDup (map fst mp)
  /\ forall kv, In kv mp ->
                Slug.stripWpDuplicateSuffix (slug (snd kv)) = fst kv /\ In (snd kv) items.

(** ** The specification's wording, where it is compared with the code *)

Module Claimed.


End Claimed.

(** ** Vocabulary of the matcher's properties *)

(** [y] is a later position of the same input as [x]. *)
Definition reach (x y : Re.mstate) : Prop :=
  exists c, Re.before y = rev c ++ Re.before x /\ Re.after x = c ++ Re.after y.

(** The 256 characters. *)
Definition all_chars : list ascii := map ascii_of_nat (seq 0 256).

(** Every character that [test] accepts satisfies [P]. *)
Definition within (test P : ascii -> bool) : bool :=
  forallb (fun a => implb (test a) (P a)) all_chars.

(** A sufficient condition for: every match of [r] covers a character that
    satisfies [P], or, for a lookahead, sees one. *)
Fixpoint requires (fl : Re.flags) (P : ascii -> bool) (r : Re.regex) : bool :=
  match r with
  | Re.Chr c => within (Re.chr_match fl c) P
  | Re.Any => within Re.any_match P
  | Re.Cls negated items => within (Re.cls_match fl negated items) P
  | Re.Seq r1 r2 => requires fl P r1 || requires fl P r2
  | Re.Alt r1 r2 => requires fl P r1 && requires fl P r2
  | Re.Quant r' mn mx _ => negb (mn =? 0) && negb (Re.max_is_zero mx) && requires fl P r'
  | Re.Group _ r' => requires fl P r'
  | Re.Look r' => requires fl P r'
  | _ => false
  end.

(** No character of the list satisfies [P]. *)
Definition free (P : ascii -> bool) (l : list ascii) : Prop :=
  forall a, In a l -> P a = false.

(** A matcher that only looks at what its continuation does on later
    positions of the input. *)
Definition local (body : (Re.mstate -> option Re.mstate) -> Re.mstate -> option Re.mstate) : Prop :=
  forall k k' x, (forall y, reach x y -> k y = k' y) -> body k x = body k' x.

(** [r] matches exactly the characters accepted by [t]. *)
Definition single (fl : Re.flags) (r : Re.regex) (t : ascii -> bool) : Prop :=
  Re.groups_of r = [] /\ forall k x, Re.m fl r k x = Re.step_if t k x.

(** ** Vocabulary of the slug properties *)

(** One or two decimal digits. *)
Definition oneOrTwoDigits (ds : string) : bool :=
  match ds with
  | String d1 EmptyString => Chars.is_digit d1
  | String d1 (String d2 EmptyString) => Chars.is_digit d1 && Chars.is_digit d2
  | _ => false
  end.

(** No line terminator in the string. *)
Definition singleLine (s : string) : bool :=
  forallb Re.any_match (list_ascii_of_string s).

(** The digits of a duplicate suffix at the very end of the input: what
    the part  - ( \d{1,2} ) $  of the pattern accepts. *)
Definition suffixDigits (l : list ascii) : option (list ascii) :=
  match l with
  | dash :: d1 :: [] =>
      if Ascii.eqb dash "-" && Chars.is_digit d1 then Some [d1] else None
  | dash :: d1 :: d2 :: [] =>
      if Ascii.eqb dash "-" && Chars.is_digit d1 && Chars.is_digit d2
      then Some [d1; d2] else None
  | _ => None
  end.

(** The way the greedy  ( .* )  of the pattern finds the base: the longest
    run of characters, none a line terminator, that leaves a duplicate
    suffix behind. *)
Fixpoint splitSuffix (l : list ascii) : option (list ascii * list ascii) :=
  match l with
  | [] => None
  | a :: l' =>
      match (if Re.any_match a then splitSuffix l' else None) with
      | Some (b, ds) => Some (a :: b, ds)
      | None =>
          match suffixDigits l with
          | Some ds => Some ([], ds)
          | None => None
          end
      end
  end.

(** The tail of the duplicate-suffix pattern:  - ( \d{1,2} ) $  *)
Definition suffixTail : Re.regex :=
  Re.seq [Re.Chr "-"; Re.Group 2 (Re.range Re.digit 1 2); Re.Eol].

(** ** Vocabulary of the rich-text properties *)




(** ** Vocabulary of the table-recovery properties *)




(** An HTML element without attributes. *)
Definition element (name content : string) : string :=
  ("<" ++ name ++ ">" ++ content ++ "</" ++ name ++ ">")%string.







(** ** Vocabulary of the survivor rule *)

(** [a] is at least as good a survivor as [b]: a slug that is not a
    duplicate beats a duplicate one, then the later timestamp wins, then
    the higher identifier. *)
Definition atLeastAsGood (dupA dupB : bool) (dateA dateB idA idB : Z) : Prop :=
  (dupA = false /\ dupB = true)
  \/ (dupA = dupB
      /\ ((dateB < dateA)%Z \/ (dateA = dateB /\ (idB <= idA)%Z))).

Section Survivor.

Variable T : Type.
Variable slug : T -> string.
Variable date : T -> option string.
Variable id : T -> option Z.
Variable Date_parse : string -> option Z.

(** The record carries a timestamp that parses, [d], and a numeric
    identifier, [i]. *)
Definition hasDateAndId (x : T) (d i : Z) : Prop :=
  Slug.dateOf T date Date_parse x = Some d /\ id x = Some i.

(** [a] is at least as good a survivor as [b], both carrying a timestamp
    and an identifier. *)
Definition survivesOver (a b : T) : Prop :=
  exists da ia db ib,
    hasDateAndId a da ia /\ hasDateAndId b db ib
    /\ atLeastAsGood (Slug.isWpDuplicateSlug (slug a)) (Slug.isWpDuplicateSlug (slug b))
                     da db ia ib.

(** Every record seen so far is represented in the map, under its base
    slug, by a record that is at least as good. *)
Definition representedIn (seen : list T) (mp : list (string * T)) : Prop :=
  forall x, In x seen ->
    exists v, In (Slug.stripWpDuplicateSuffix (slug x), v) mp /\ survivesOver v x.

End Survivor.

(** ** Media downloader: galleries *)

Module Gallery.

Import Download.

(** [processGallery]: the addresses are processed one after the other and
    the identifiers that are not [null] are collected in order.  The
    network answers the [n]-th attempt for the [i]-th image of the run. *)
Fixpoint processGalleryFrom (dryRun : bool)
  (axios_get : nat -> nat -> string -> error + response)
  (axios_post : nat -> nat -> image -> error + option Z)
  (i : nat) (urls : list string) : list Retry.event * list Z :=
  match urls with
  | [] => ([], [])
  | url :: urls' =>
      let '(tr, id) := processImage dryRun (axios_get i) (axios_post i) url in
      let '(tr', mediaIds) :=
        processGalleryFrom dryRun axios_get axios_post (S i) urls' in
      (tr ++ tr', match id with
                  | Some v => v :: mediaIds
                  | None => mediaIds
                  end)
  end.

Definition processGallery (dryRun : bool)
  (axios_get : nat -> nat -> string -> error + response)
  (axios_post : nat -> nat -> image -> error + option Z)
  (urls : list string) : list Retry.event * list Z :=
  processGalleryFrom dryRun axios_get axios_post 0 urls.

End Gallery.

(** ** Vocabulary of the file-name properties *)

(** A character that the clean-up of a file name keeps: the class
    [a-zA-Z0-9._-]. *)
Definition safeChar (a : ascii) : bool :=
  Chars.is_alnum a || Ascii.eqb a "." || Ascii.eqb a "_" || Ascii.eqb a "-".

Definition safeName (s : string) : bool :=
  forallb safeChar (list_ascii_of_string s).

(** ** Vocabulary of the order of the survivors *)

(** The keys of a list in the order in which they first occur. *)
Definition addKey (acc : list string) (k : string) : list string :=
  if in_dec string_dec k acc then acc else acc ++ [k].

Definition firstOccurrences (keys : list string) : list string :=
  fold_left addKey keys [].

(** ** Vocabulary of global replacement and splitting *)

(** The text a global replacement builds from the matches of a scan. *)
Definition spliced (f : Re.result -> string)
  (r : list (list ascii * Re.result) * list ascii) : list ascii :=
  flat_map (fun sm => fst sm ++ list_ascii_of_string (f (snd sm))) (fst r) ++ snd r.

(** The scan of an input one character longer at the front, when nothing
    matches at that character. *)
Definition skipped (a : ascii) (r : list (list ascii * Re.result) * list ascii)
  : list (list ascii * Re.result) * list ascii :=
  match fst r with
  | [] => ([], a :: snd r)
  | (sk, mr) :: ms => ((a :: sk, mr) :: ms, snd r)
  end.

(** The longest run of characters accepted by [t] at the front of a text,
    and what is behind it. *)
Fixpoint takeRun (t : ascii -> bool) (l : list ascii) : list ascii :=
  match l with
  | a :: l' => if t a then a :: takeRun t l' else []
  | [] => []
  end.

Fixpoint dropRun (t : ascii -> bool) (l : list ascii) : list ascii :=
  match l with
  | a :: l' => if t a then dropRun t l' else l
  | [] => []
  end.

(** Every character accepted by [t] replaced by [c]. *)
Definition substitute (t : ascii -> bool) (c : list ascii) (l : list ascii) : list ascii :=
  flat_map (fun a => if t a then c else [a]) l.

(** Every maximal run of characters accepted by [t] replaced by [c];
    [inRun] tells that the character before was part of a run. *)
Fixpoint collapse (t : ascii -> bool) (c : list ascii) (inRun : bool) (l : list ascii)
  : list ascii :=
  match l with
  | [] => []
  | a :: l' =>
      if t a then (if inRun then collapse t c true l' else c ++ collapse t c true l')
      else a :: collapse t c false l'
  end.

(** The pieces between the maximal runs of characters accepted by [t];
    [piece] holds the current piece, reversed. *)
Fixpoint pieces (t : ascii -> bool) (piece : list ascii) (inRun : bool) (l : list ascii)
  : list string :=
  match l with
  | [] => [string_of_list_ascii (rev piece)]
  | a :: l' =>
      if t a then
        (if inRun then pieces t [] true l'
         else string_of_list_ascii (rev piece) :: pieces t [] true l')
      else pieces t (a :: piece) false l'
  end.

(** ** Vocabulary of the escaping properties *)

(** What [escapeHtml] writes for one character. *)
Definition escapeChar (a : ascii) : list ascii :=
  if Ascii.eqb a "&" then list_ascii_of_string "&amp;"
  else if Ascii.eqb a "<" then list_ascii_of_string "&lt;"
  else if Ascii.eqb a ">" then list_ascii_of_string "&gt;"
  else if Ascii.eqb a Str.dquote then list_ascii_of_string "&quot;"
  else if Ascii.eqb a "'" then list_ascii_of_string "&#39;"
  else [a].

(** A character that opens or closes markup or an attribute value. *)
Definition markupChar (a : ascii) : bool :=
  Ascii.eqb a "<" || Ascii.eqb a ">" || Ascii.eqb a Str.dquote || Ascii.eqb a "'".

(** ** Tag slugs (complete-migration.mjs, reapply-insight-tags.mjs,
       sync_wp_insights_from_csv.mjs) *)

Module Tags.

Import Re.

(** The class  [\u001A']  *)
Definition quoteMarks : regex := Cls false [CChar (ascii_of_nat 26); CChar "'"].
(** [^a-z0-9]+  *)
Definition nonSlugRun : regex := plus (Cls true [CRange "a" "z"; CRange "0" "9"]).
(** (^-|-$)  *)
Definition edgeDash : regex := Group 1 (Alt (Seq Bol (Chr "-")) (Seq (Chr "-") Eol)).

Definition slugifyTag (tag : string) : string :=
  replace_all plain edgeDash (fun _ => "")
    (replace_all plain nonSlugRun (fun _ => "-")
       (replace_all plain quoteMarks (fun _ => "")
          (Str.toLowerCase (Str.trim tag)))).

End Tags.

(** ** Vocabulary of the tag-slug properties *)

Definition isDash (a : ascii) : bool := Ascii.eqb a "-".

(** A character of a slug: a lower-case ASCII letter, a digit or a
    hyphen. *)
Definition slugChar (a : ascii) : bool :=
  Chars.is_lower a || Chars.is_digit a || isDash a.

(** No two hyphens in a row. *)
Fixpoint noDashPair (l : list ascii) : bool :=
  match l with
  | a :: l' =>
      match l' with
      | b :: _ => negb (isDash a && isDash b)
      | [] => true
      end && noDashPair l'
  | [] => true
  end.

Definition startsWithDash (l : list ascii) : bool :=
  match l with
  | a :: _ => isDash a
  | [] => false
  end.

Definition endsWithDash (l : list ascii) : bool := isDash (last l "x"%char).

(** A well-formed slug: slug characters only, no hyphen at either end and
    no two hyphens in a row; the empty string counts. *)
Definition tagSlug (s : string) : bool :=
  let l := list_ascii_of_string s in
  forallb slugChar l && noDashPair l && negb (startsWithDash l) && negb (endsWithDash l).

(** A text without a hyphen at its end. *)
Fixpoint dropLastDash (l : list ascii) : list ascii :=
  match l with
  | [] => []
  | a :: l' =>
      match l' with
      | [] => if isDash a then [] else [a]
      | _ :: _ => a :: dropLastDash l'
      end
  end.

(** A text without one hyphen at its start and one at its end. *)
Definition trimDashes (l : list ascii) : list ascii :=
  match l with
  | a :: l' => if isDash a then dropLastDash l' else dropLastDash l
  | [] => []
  end.

(** The one-character tests of the patterns of [slugifyTag]. *)
Definition quoteTest : ascii -> bool :=
  Re.cls_match Re.plain false [Re.CChar (ascii_of_nat 26); Re.CChar "'"].
Definition nonSlugTest : ascii -> bool :=
  Re.cls_match Re.plain true [Re.CRange "a" "z"; Re.CRange "0" "9"].

(** ** Client logos: the back-fill script (the script behind
       InsightsFilter.tsx) and [guessClientLogo] of the WordPress client *)

Module Logos.

Import Re.

(** -\d+$  *)
Definition numericSuffix : regex := seq [Chr "-"; plus digit; Eol].

(** [stripWpDuplicateSuffix] of the back-fill script; [slug] is
    [String(slug || '')]. *)
Definition stripWpDuplicateSuffix (slug : string) : string :=
  replace_first plain numericSuffix (fun _ => "") slug.

(** [^a-z0-9]+  *)
Definition nonAlnumRun : regex := plus (Cls true [CRange "a" "z"; CRange "0" "9"]).

(** [tokenize]; [value] is [String(value || '')]. *)
Definition tokenize (value : string) : list string :=
  filter (fun t => 3 <=? String.length t)
         (map Str.trim (split plain nonAlnumRun (Str.toLowerCase value))).

Definition scoreLogoCandidate (filename : string) (tokens : list string) : Z :=
  let lower := Str.toLowerCase filename in
  fold_left (fun score token =>
               if negb (Str.isEmpty token) && Str.includes token lower
               then (score + 3)%Z else score)
            tokens
            (if Str.includes "logo" lower then 10%Z else 0%Z).

Record logo : Type := { id : Z; source_url : string }.

Record candidate : Type := { c_id : Z; c_score : Z; c_filename : string }.

(** [Array.from(new Set([...tokenize(client), ...tokenize(slugBase)]))]. *)
Definition tokensOf (client slug : string) : list string :=
  firstOccurrences (tokenize client ++ tokenize (stripWpDuplicateSuffix slug)).

(** [logo.source_url.split('/').pop() || '']. *)
Definition filenameOf (l : logo) : string :=
  last (Str.splitChar "/" (source_url l)) EmptyString.

(** The body of the loop over the logos. *)
Definition better (tokens : list string) (best : option candidate) (l : logo)
  : option candidate :=
  let filename := filenameOf l in
  let score := scoreLogoCandidate filename tokens in
  match best with
  | None => Some {| c_id := id l; c_score := score; c_filename := filename |}
  | Some b =>
      if (score >? c_score b)%Z
      then Some {| c_id := id l; c_score := score; c_filename := filename |}
      else best
  end.

(** [findBestLogoId({ client, slug }, logos)]; [None] is [null]. *)
Definition findBestLogoId (client slug : string) (logos : list logo) : option Z :=
  let tokens := tokensOf client slug in
  match fold_left (better tokens) logos None with
  | None => None
  | Some best => if (c_score best <? 10)%Z then None else Some (c_id best)
  end.

End Logos.

(** ** Vocabulary of the logo properties *)

(** A lower-case ASCII letter or a digit. *)
Definition lowerAlnum (a : ascii) : bool := Chars.is_lower a || Chars.is_digit a.

(** The test of the pattern  [^a-z0-9]  *)
Definition nonAlnumTest : ascii -> bool :=
  Re.cls_match Re.plain true [Re.CRange "a" "z"; Re.CRange "0" "9"].

(** The score of a logo for a work. *)
Definition logoScore (client slug : string) (l : Logos.logo) : Z :=
  Logos.scoreLogoCandidate (Logos.filenameOf l) (Logos.tokensOf client slug).

(** The tokens of a work that occur in the file name of a logo. *)
Definition tokensFound (client slug : string) (l : Logos.logo) : list string :=
  filter (fun token => negb (Str.isEmpty token)
                       && Str.includes token (Str.toLowerCase (Logos.filenameOf l)))
         (Logos.tokensOf client slug).

(** What the loop over the logos has found after some of them: nothing
    yet, or the first of the logos with the highest score. *)
Definition firstBestOf (tokens : list string) (seen : list Logos.logo)
  (best : option Logos.candidate) : Prop :=
  match best with
  | None => seen = []
  | Some b =>
      let score := fun l => Logos.scoreLogoCandidate (Logos.filenameOf l) tokens in
      exists pre l post,
        seen = pre ++ l :: post
        /\ Logos.c_id b = Logos.id l /\ Logos.c_score b = score l
        /\ (forall p, In p pre -> (score p < score l)%Z)
        /\ (forall q, In q post -> (score q <= score l)%Z)
  end.

(** ** Search index: reading time (pages/search-index.json.ts) *)

Module SearchIndex.

Import Re.

(** \s+  *)
Definition whitespaceRun : regex := plus space.

(** [wordCount]; [input] is [String(input || '')]. *)
Definition wordCount (input : string) : Z :=
  let tokens :=
    filter (fun t => negb (Str.isEmpty t))
           (Str.splitChar " "
              (Str.trim (replace_all plain whitespaceRun (fun _ => " ") input))) in
  Z.of_nat (length tokens).

(** [Math.max(1, Math.ceil(count / wpm))]: the quotient of two counts is
    rounded up. *)
Definition estimateReadTimeMinutes (text : string) : Z :=
  let wpm := 200%Z in
  let count := wordCount text in
  Z.max 1 ((count + wpm - 1) / wpm).

End SearchIndex.

(** ** Vocabulary of the word count *)

(** The number of words of a text: of its maximal runs of characters that
    are not white space; [inWord] tells that the character before was part
    of a word. *)
Fixpoint countWords (inWord : bool) (l : list ascii) : nat :=
  match l with
  | [] => 0
  | a :: l' =>
      if Chars.is_space a then countWords false l'
      else (if inWord then 0 else 1) + countWords true l'
  end.

(** The only white space of the text is the space character. *)
Definition spacesOnly (l : list ascii) : Prop :=
  forall a, In a l -> Chars.is_space a = true -> a = " "%char.

Definition nonEmptyCount (ps : list string) : nat :=
  length (filter (fun t => negb (Str.isEmpty t)) ps).

(** ** CSV parser: lists in a cell (parsers/csv-parser.ts) *)

Module Csv.

(** [parseTags]: a comma-separated cell. *)
Definition parseTags (tagString : string) : list string :=
  if Str.isEmpty tagString then []
  else filter (fun tag => negb (Str.isEmpty tag))
              (map Str.trim (Str.splitChar "," tagString)).

(** [parseGalleryUrls]: a semicolon-separated cell. *)
Definition parseGalleryUrls (galleryString : string) : list string :=
  if Str.isEmpty galleryString then []
  else filter (fun url => negb (Str.isEmpty url))
              (map Str.trim (Str.splitChar ";" galleryString)).

End Csv.

(** ** Vocabulary of the list properties *)

(** An entry as the list parsers return it: not empty, without white
    space at its ends and without the separator. *)
Definition cleanEntry (sep : ascii) (t : string) : Prop :=
  t <> EmptyString /\ Str.trim t = t /\ lacks sep t.

(** ** Dates of the CSV synchroniser (sync_wp_insights_from_csv.mjs) *)

Module Dates.





(** [s.endsWith(suffix)]. *)
Definition endsWith (suffix s : string) : bool :=
  (String.length suffix <=? String.length s)
  && String.eqb (substring (String.length s - String.length suffix)
                           (String.length suffix) s) suffix.

(** [dateGmt] is [String(dateGmt || '')]. *)
Definition normalizeWpGmt (dateGmt : string) : string :=
  let value := Str.trim dateGmt in
  if Str.isEmpty value then EmptyString
  else if endsWith "Z" value then value else (value ++ "Z")%string.

End Dates.

(** ** Vocabulary of the date properties *)



(** ** Media library upload (upload-media-to-wp.mjs) *)

Module Upload.

Section WithPath.

(** [path.extname]: the extension of the last segment of a path, from its
    last dot on, or the empty string. *)
Variable extname : string -> string.

Definition isOriginalFile (filename : string) : bool :=
  if Str.startsWith "." filename then false
  else if Str.startsWith "thumbnail_" filename then false
  else if Str.startsWith "small_" filename then false
  else if Str.startsWith "medium_" filename then false
  else if Str.startsWith "large_" filename then false
  else
    let ext := Str.toLowerCase (extname filename) in
    existsb (String.eqb ext) [".jpg"; ".jpeg"; ".png"; ".webp"; ".gif"; ".pdf"]%string.

Definition mimeTypes : list (string * string) :=
  [(".jpg", "image/jpeg"); (".jpeg", "image/jpeg"); (".png", "image/png");
   (".gif", "image/gif"); (".webp", "image/webp"); (".pdf", "application/pdf")]%string.

Fixpoint lookup (key : string) (table : list (string * string)) : option string :=
  match table with
  | [] => None
  | (k, v) :: table' => if String.eqb k key then Some v else lookup key table'
  end.

(** [mimeTypes[ext] || 'application/octet-stream']; an extension is empty
    or starts with a dot, so it names no inherited property. *)
Definition getMimeType (filename : string) : string :=
  let ext := Str.toLowerCase (extname filename) in
  match lookup ext mimeTypes with
  | Some mime => mime
  | None => "application/octet-stream"%string
  end.

End WithPath.

End Upload.

(** ** Clean-up of leaked style sheets: patching the strings of a value
       (the cleanup-wp-css-leaks script) *)

Module Patch.

Import Js.

(** [next[k] = v] on the object literal under construction: the name
    [__proto__] reaches the prototype setter and defines no property. *)
Definition assign (key : string) (v : value) (props : list (string * value))
  : list (string * value) :=
  if String.eqb key "__proto__" then props else define key v props.

(** [patchObjectStrings(obj, patchFn)]: the pair of [next] and [changed].
    The properties of an object are visited in the order of
    [Object.entries]. *)
Fixpoint patchObjectStrings (patchFn : string -> string) (obj : value) : value * bool :=
  match obj with
  | Null | Undefined => (obj, false)
  | Str s =>
      let next := patchFn s in
      (Str next, negb (String.eqb next s))
  | Arr items =>
      let res := map (patchObjectStrings patchFn) items in
      (Arr (map fst res), existsb snd res)
  | Obj props =>
      let res := map (fun kv => match kv with
                                | (k, v) => (k, patchObjectStrings patchFn v)
                                end) props in
      (Obj (fold_left (fun next kr => assign (fst kr) (fst (snd kr)) next) res []),
       existsb (fun kr => snd (snd kr)) res)
  | Bool _ | Num _ => (obj, false)
  end.

End Patch.

(** ** Vocabulary of the patching properties *)

(** A value as [JSON.parse] gives it for ordinary input: the properties of
    an object have distinct names, none of them [__proto__]. *)
Fixpoint ordinary (v : Js.value) : Prop :=
  match v with
  | Js.Arr items => (fix all (l : list Js.value) : Prop :=
                       match l with
                       | [] => True
                       | x :: l' => ordinary x /\ all l'
                       end) items
  | Js.Obj props =>
      NoDup (map fst props)
      /\ ~ In "__proto__"%string (map fst props)
      /\ (fix all (l : list (string * Js.value)) : Prop :=
            match l with
            | [] => True
            | (_, x) :: l' => ordinary x /\ all l'
            end) props
  | _ => True
  end.

(** ** Entity normaliser: Strapi entries (complete-migration.mjs and the
       migrate-to-wp script) *)

Module Entry.

Import Js Media.






End Entry.

(** ** The local environment files (the scripts' parseDotEnv and
       loadLocalEnv) *)

Module Env.

Import Chars Str Re.

(** [/\r?\n/] *)
Definition lineBreak : regex := Seq (opt (Chr CR)) (Chr LF).

(** [s.indexOf(c)] for a one-character [c]; [None] is [-1]. *)
Fixpoint indexOf (c : ascii) (s : string) : option nat :=
  match s with
  | EmptyString => None
  | String a s' =>
      if Ascii.eqb a c then Some 0 else option_map S (indexOf c s')
  end.

(** An object whose values are strings, and [process.env]: the own
    properties in the order of their definition. *)
Definition table : Type := list (string * string).

Fixpoint get (key : string) (t : table) : option string :=
  match t with
  | [] => None
  | (k, v) :: t' => if String.eqb k key then Some v else get key t'
  end.

(** Defines or overwrites one property; an existing key keeps its place. *)
Fixpoint set (key v : string) (t : table) : table :=
  match t with
  | [] => [(key, v)]
  | (k, x) :: t' => if String.eqb k key then (k, v) :: t' else (k, x) :: set key v t'
  end.

(** [out[key] = value] on an ordinary object: the name [__proto__]
    reaches the prototype setter, which ignores a string. *)
Definition assign (key v : string) (out : table) : table :=
  if String.eqb key "__proto__" then out else set key v out.

(** One round of the loop of [parseDotEnv]: the binding of a line, if
    it has one. *)
Definition parseLine (rawLine : string) : option (string * string) :=
  let line := trim rawLine in
  if isEmpty line || startsWith "#" line then None
  else
    match indexOf "=" line with
    | None => None
    | Some idx =>
        let key := trim (slice 0 idx line) in
        let value := trim (sliceFrom (idx + 1) line) in
        if isEmpty key then None else Some (key, value)
    end.

(** [String(contents || '')] for the text of a file, [null] when the
    file could not be read. *)
Definition textOf (contents : option string) : string :=
  match contents with
  | Some s => s
  | None => EmptyString
  end.

Definition parseDotEnv (contents : option string) : table :=
  fold_left
    (fun out rawLine =>
       match parseLine rawLine with
       | Some (key, value) => assign key value out
       | None => out
       end)
    (split plain lineBreak (textOf contents)) [].

(** The names [process.env] inherits from [Object.prototype]: reading
    one that is not set gives the inherited member, not [undefined]. *)
Definition inherited (key : string) : bool :=
  existsb (String.eqb key)
    ["constructor"; "hasOwnProperty"; "isPrototypeOf"; "propertyIsEnumerable";
     "toLocaleString"; "toString"; "valueOf"; "__proto__";
     "__defineGetter__"; "__defineSetter__"; "__lookupGetter__"; "__lookupSetter__"].

(** [process.env[key]] is truthy. *)
Definition isSet (key : string) (env : table) : bool :=
  match get key env with
  | Some v => negb (isEmpty v)
  | None => inherited key
  end.

(** [{ ...backendEnv, ...frontendEnv }] *)
Definition merge (backendEnv frontendEnv : table) : table :=
  fold_left (fun acc kv => set (fst kv) (snd kv) acc) frontendEnv backendEnv.

(** The loop of [loadLocalEnv] over the entries of the merged object.
    A round reads and writes the variable of its own key only and the
    keys of the object are distinct, so the order of the entries does
    not show in the variables. *)
Definition fill (entries : table) (env : table) : table :=
  fold_left
    (fun e kv =>
       if negb (isSet (fst kv) e) && negb (isEmpty (snd kv))
       then set (fst kv) (snd kv) e
       else e)
    entries env.

(** [loadLocalEnv()] of the tag script, as a function of the texts of
    frontend/.env, backend/.env and backend/TOKEN.txt ([None] for a file
    that cannot be read) and of [process.env]. *)
Definition loadLocalEnv (frontendText backendText tokenText : option string)
  (env : table) : table :=
  let frontendEnv := parseDotEnv frontendText in
  let backendEnv := parseDotEnv backendText in
  let env1 := fill (merge backendEnv frontendEnv) env in
  let env2 :=
    if negb (isSet "WP_URL" env1) && isSet "PUBLIC_WP_URL" env1
    then set "WP_URL" (textOf (get "PUBLIC_WP_URL" env1)) env1
    else env1 in
  if negb (isSet "STRAPI_API_TOKEN" env2)
  then
    let token := trim (textOf tokenText) in
    if negb (isEmpty token) then set "STRAPI_API_TOKEN" token env2 else env2
  else env2.

(** The clean-up scripts read one file straight into [process.env].
    One round of the loop of [loadEnvFile]: the binding of a line. *)
Definition envFileLine (line : string) : option (string * string) :=
  let trimmed := trim line in
  if isEmpty trimmed || startsWith "#" trimmed then None
  else
    match indexOf "=" trimmed with
    | None | Some 0 => None
    | Some idx =>
        let key := trim (slice 0 idx trimmed) in
        let value := trim (sliceFrom (idx + 1) trimmed) in
        if isEmpty key then None else Some (key, value)
    end.

(** [process.env[key] !== undefined] *)
Definition isDefined (key : string) (env : table) : bool :=
  match get key env with
  | Some _ => true
  | None => inherited key
  end.

(** [loadEnvFile(filePath)] as a function of the text of the file; a
    file that cannot be read changes nothing. *)
Definition loadEnvFile (contents : option string) (env : table) : table :=
  match contents with
  | None => env
  | Some raw =>
      fold_left
        (fun e line =>
           match envFileLine line with
           | Some (key, value) => if isDefined key e then e else set key value e
           | None => e
           end)
        (split plain lineBreak raw) env
  end.

Definition loadDefaultEnv (contents : option string) (env : table) : table :=
  let env1 := loadEnvFile contents env in
  if negb (isSet "WP_URL" env1) && isSet "PUBLIC_WP_URL" env1
  then set "WP_URL" (textOf (get "PUBLIC_WP_URL" env1)) env1
  else env1.

End Env.

(** ** Vocabulary of the environment files *)

(** A line of an environment file. *)
Inductive envLine : Type :=
| Binding (key value : string)
| Comment (text : string)
| Blank.

Definition render (l : envLine) : string :=
  match l with
  | Binding k v => (k ++ "=" ++ v)%string
  | Comment t => ("#" ++ t)%string
  | Blank => EmptyString
  end.

(** The line ends of a file: LF, or CR LF. *)
Definition lineEnd (windows : bool) : string :=
  if windows then String Chars.CR (String Chars.LF EmptyString)
  else String Chars.LF EmptyString.

(** The characters of further lines, each behind a line end. *)
Definition joinedLines (windows : bool) (ls : list string) : list ascii :=
  flat_map (fun l => list_ascii_of_string (lineEnd windows) ++ list_ascii_of_string l) ls.

(** A key as [parseDotEnv] stores it: not empty, no white space at its
    ends, no equals sign, no number sign in front. *)
Definition cleanKey (k : string) : Prop :=
  k <> EmptyString /\ Str.trim k = k /\ lacks "=" k /\ Str.startsWith "#" k = false.

Definition wellFormed (l : envLine) : Prop :=
  match l with
  | Binding k v =>
      cleanKey k /\ singleLine k = true /\ Str.trim v = v /\ singleLine v = true
  | Comment t => singleLine t = true
  | Blank => True
  end.

(** The value of the last line that binds [key]. *)
Definition lastBinding (key : string) (lines : list envLine) : option string :=
  fold_left
    (fun acc l =>
       match l with
       | Binding k v => if String.eqb k key then Some v else acc
       | _ => acc
       end)
    lines None.

(** The value of the first line that binds [key]. *)
Fixpoint firstBinding (key : string) (lines : list envLine) : option string :=
  match lines with
  | [] => None
  | Binding k v :: lines' => if String.eqb k key then Some v else firstBinding key lines'
  | _ :: lines' => firstBinding key lines'
  end.

(** The variable after one file has been read: a variable that is
    defined stays, empty or not; one that is not takes the value of the
    first line that binds it. *)
Definition fromFile (lines : list envLine) (env : Env.table) (key : string)
  : option string :=
  match Env.get key env with
  | Some v => Some v
  | None => if Env.inherited key then None else firstBinding key lines
  end.

(** What the files say about a variable: the frontend file before the
    backend file. *)
Definition fileValue (frontendEnv backendEnv : Env.table) (key : string) : option string :=
  match Env.get key frontendEnv with
  | Some v => Some v
  | None => Env.get key backendEnv
  end.

(** The variable after the files have been applied: a variable that is
    set stays; one that is not takes the value of the files unless that
    is empty. *)
Definition fromFiles (frontendEnv backendEnv env : Env.table) (key : string)
  : option string :=
  if Env.isSet key env then Env.get key env
  else
    match fileValue frontendEnv backendEnv key with
    | Some v => if Str.isEmpty v then Env.get key env else Some v
    | None => Env.get key env
    end.

(** A value that is present and not empty. *)
Definition filled (v : option string) : bool :=
  match v with
  | Some s => negb (Str.isEmpty s)
  | None => false
  end.

(** ** Replacing addresses in a text (the media script's
       replaceAllExternalUrls), and the vocabulary of the host check *)

(** [l] without the characters [cs] in front of it. *)
Fixpoint stripChars (cs l : list ascii) : option (list ascii) :=
  match cs with
  | [] => Some l
  | c :: cs' =>
      match l with
      | a :: l' => if Ascii.eqb a c then stripChars cs' l' else None
      | [] => None
      end
  end.

Module Urls.

(** [s.split(sep)] for a separator string that is not empty: the
    separator is looked for at each position behind the last cut.
    [piece] holds the characters since the last cut, reversed; a round
    moves the position, so [length l + 1] rounds are enough. *)
Fixpoint splitOn (n : nat) (sep piece l : list ascii) : list string :=
  match n with
  | O => []
  | S n' =>
      match l with
      | [] => [string_of_list_ascii (rev piece)]
      | a :: l' =>
          match stripChars sep l with
          | Some behind => string_of_list_ascii (rev piece) :: splitOn n' sep [] behind
          | None => splitOn n' sep (a :: piece) l'
          end
      end
  end.

(** [out.split(from).join(to)] *)
Definition replaceEvery (from to out : string) : string :=
  String.concat to
    (splitOn (S (String.length out)) (list_ascii_of_string from) []
       (list_ascii_of_string out)).

(** [replaceAllExternalUrls(value, urlMap)] for a text [value]; the
    entries of the map come in the order of their insertion. *)
Definition replaceAllExternalUrls (value : string) (urlMap : list (string * string))
  : string :=
  fold_left
    (fun out entry =>
       if Str.isEmpty (fst entry) || Str.isEmpty (snd entry) then out
       else replaceEvery (fst entry) (snd entry) out)
    urlMap value.

End Urls.



(* ================================================================== *)
(** * Part II: the properties *)
(* ================================================================== *)

(** ** Bounded retry *)

Section RetryFacts.

Import Retry.

Context {E T : Type}.
Variable fn : nat -> E + T.
Variables maxRetries delay : Z.

Lemma calls_of_cons_call (a : Z) (tr : list event) :
  calls_of (Invoked a :: tr) = S (calls_of tr).
Proof. reflexivity. Qed.

(** A run that starts inside the range makes between one call and as many
    calls as there are attempts left, and ends by returning or by
    rethrowing. *)
Lemma loop_calls_bounded (n : nat) :
  forall (attempt : Z) (calls : nat),
    (attempt <= maxRetries)%Z ->
    Z.of_nat n = (maxRetries - attempt + 1)%Z ->
    1 <= calls_of (fst (loop fn maxRetries delay n attempt calls)) <= n
    /\ snd (loop fn maxRetries delay n attempt calls) <> Unreachable
    /\ snd (loop fn maxRetries delay n attempt calls) <> Unfinished.
Proof.
  induction n as [|n IH]; intros attempt calls Hle Hn.
  - lia.
  - simpl. destruct (Z.leb_spec attempt maxRetries) as [_|Hgt]; [|lia].
    destruct (fn calls) as [err|v].
    + destruct (Z.eqb_spec attempt maxRetries) as [Heq|Hne].
      * simpl. repeat split; try discriminate; unfold calls_of; simpl; lia.
      * specialize (IH (attempt + 1)%Z (S calls)).
        destruct (loop fn maxRetries delay n (attempt + 1) (S calls)) as [tr out].
        simpl in *. destruct IH as (Hc & Hu & Hf); try lia.
        repeat split; try assumption; unfold calls_of in *; simpl; lia.
    + simpl. repeat split; try discriminate; unfold calls_of; simpl; lia.
Qed.

(** When every remaining attempt fails, all of them are made, the delays
    grow by one base delay per attempt, and the last error is rethrown. *)
Lemma loop_all_fail (err : nat -> E) (n : nat) :
  forall (attempt : Z) (calls : nat),
    (attempt <= maxRetries)%Z ->
    Z.of_nat n = (maxRetries - attempt + 1)%Z ->
    (forall k, calls <= k < calls + n -> fn k = inl (err k)) ->
    snd (loop fn maxRetries delay n attempt calls) = Threw (err (calls + n - 1))
    /\ calls_of (fst (loop fn maxRetries delay n attempt calls)) = n
    /\ delays_of (fst (loop fn maxRetries delay n attempt calls))
       = map (fun i => (delay * (attempt + Z.of_nat i))%Z) (seq 0 (n - 1)).
Proof.
  induction n as [|n IH]; intros attempt calls Hle Hn Hfail.
  - lia.
  - simpl loop. destruct (Z.leb_spec attempt maxRetries) as [_|Hgt]; [|lia].
    rewrite (Hfail calls) by lia.
    destruct (Z.eqb_spec attempt maxRetries) as [Heq|Hne].
    + assert (n = 0) by lia. subst n. simpl.
      replace (calls + 1 - 1) with calls by lia. repeat split.
    + specialize (IH (attempt + 1)%Z (S calls)).
      destruct (loop fn maxRetries delay n (attempt + 1) (S calls)) as [tr out].
      simpl in *. destruct IH as (Ho & Hc & Hd); try lia.
      { intros k Hk. apply Hfail. lia. }
      repeat split.
      * rewrite Ho. f_equal. f_equal. lia.
      * unfold calls_of in *. simpl. lia.
      * rewrite Hd. destruct n as [|n]; [lia|].
        simpl. rewrite Nat.sub_0_r. rewrite Z.add_0_r. f_equal.
        rewrite <- seq_shift, map_map. apply map_ext. intros i. f_equal. lia.
Qed.

End RetryFacts.

(** C4.  With [maxRetries = 3], a function that fails twice and then
    succeeds makes [retry] return the success value after exactly two
    delays, the k-th lasting k times the base delay (and three calls); a
    function that fails on each of its [maxRetries] attempts makes [retry]
    rethrow the error of the last attempt, after [maxRetries] calls. *)
Theorem retry_policy :
  (forall (E T : Type) (fn : nat -> E + T) (e1 e2 : E) (v : T) (delay : Z),
      fn 0 = inl e1 -> fn 1 = inl e2 -> fn 2 = inr v ->
      let run := Retry.retry fn {| Retry.opt_maxRetries := Some 3%Z;
                                   Retry.opt_delay := Some delay |} in
      snd run = Retry.Returned v
      /\ Retry.delays_of (fst run) = [(delay * 1)%Z; (delay * 2)%Z]
      /\ Retry.calls_of (fst run) = 3)
  /\
  (forall (E T : Type) (fn : nat -> E + T) (err : nat -> E) (maxRetries delay : Z),
      (1 <= maxRetries)%Z ->
      (forall k, k < Z.to_nat maxRetries -> fn k = inl (err k)) ->
      let run := Retry.retry fn {| Retry.opt_maxRetries := Some maxRetries;
                                   Retry.opt_delay := Some delay |} in
      snd run = Retry.Threw (err (Z.to_nat maxRetries - 1))
      /\ Retry.calls_of (fst run) = Z.to_nat maxRetries).
Proof.
  split.
  - intros E T fn e1 e2 v delay H0 H1 H2. unfold Retry.retry. simpl.
    rewrite H0. simpl. rewrite H1. simpl. rewrite H2. simpl. repeat split.
  - intros E T fn err maxRetries delay Hpos Hfail. unfold Retry.retry. simpl.
    destruct (loop_all_fail fn maxRetries delay err (Z.to_nat maxRetries) 1%Z 0)
      as (Ho & Hc & _); try lia.
    { intros k Hk. apply Hfail. lia. }
    split; assumption.
Qed.

Lemma retry_policy_witness :
  (let run := Retry.retry (fun n : nat => if n <? 2 then inl n else inr "ok"%string)
                {| Retry.opt_maxRetries := Some 3%Z; Retry.opt_delay := Some 1000%Z |} in
   snd run = Retry.Returned "ok"%string
   /\ Retry.delays_of (fst run) = [1000; 2000]%Z
   /\ Retry.calls_of (fst run) = 3)
  /\
  (let run := Retry.retry (fun n : nat => @inl nat string n)
                {| Retry.opt_maxRetries := Some 4%Z; Retry.opt_delay := Some 10%Z |} in
   snd run = Retry.Threw 3 /\ Retry.calls_of (fst run) = 4).
Proof.
  split.
  - apply (proj1 retry_policy nat string
             (fun n : nat => if n <? 2 then inl n else inr "ok"%string) 0 1 "ok"%string
             1000%Z); reflexivity.
  - apply (proj2 retry_policy nat string (fun n : nat => @inl nat string n)
             (fun n => n) 4%Z 10%Z); [lia | reflexivity].
Defined.



(** ** Media downloader *)

Section StringFacts.

Lemma chars_app (s t : string) :
  list_ascii_of_string (s ++ t) = list_ascii_of_string s ++ list_ascii_of_string t.
Proof. induction s as [|a s IH]; simpl; [reflexivity | now rewrite IH]. Qed.

Lemma string_of_chars_app (l1 l2 : list ascii) :
  string_of_list_ascii (l1 ++ l2)
  = (string_of_list_ascii l1 ++ string_of_list_ascii l2)%string.
Proof. induction l1 as [|a l1 IH]; simpl; [reflexivity | now rewrite IH]. Qed.

Lemma chars_length (s : string) : length (list_ascii_of_string s) = String.length s.
Proof. induction s as [|a s IH]; simpl; [reflexivity | now rewrite IH]. Qed.

End StringFacts.

Section SplitFacts.

Import Str.

Lemma lacks_cons (sep a : ascii) (s : string) :
  lacks sep (String a s) -> a <> sep /\ lacks sep s.
Proof.
  intros H. split.
  - apply H. simpl. now left.
  - intros b Hb. apply H. simpl. now right.
Qed.

Lemma splitChar_not_nil (sep : ascii) (s : string) : splitChar sep s <> [].
Proof.
  destruct s as [|a s]; simpl; [discriminate|].
  destruct (Ascii.eqb a sep); [discriminate|].
  destruct (splitChar sep s); discriminate.
Qed.

(** A string without the separator is a single piece. *)
Lemma splitChar_lacks (sep : ascii) (s : string) :
  lacks sep s -> splitChar sep s = [s].
Proof.
  induction s as [|a s IH]; intros H; [reflexivity|].
  apply lacks_cons in H. destruct H as [Ha Hs]. simpl.
  destruct (Ascii.eqb_spec a sep); [contradiction|].
  now rewrite (IH Hs).
Qed.

(** The first separator ends the first piece. *)
Lemma splitChar_app (sep : ascii) (s t : string) :
  lacks sep s ->
  splitChar sep (s ++ String sep t) = s :: splitChar sep t.
Proof.
  induction s as [|a s IH]; intros H; simpl.
  - now rewrite Ascii.eqb_refl.
  - apply lacks_cons in H. destruct H as [Ha Hs].
    destruct (Ascii.eqb_spec a sep); [contradiction|].
    now rewrite (IH Hs).
Qed.

End SplitFacts.





(** C9.  A 404 answer makes [downloadImage] resolve with [null] instead of
    throwing, so [processImage] returns [null] after a single attempt and
    the media field stays unset; any other failure of the request is
    rethrown by [downloadImage] to its caller, the function wrapped by
    [retry] in [processImage], which therefore tries again. *)

(** C9.  A 404 answer makes [downloadImage] resolve with [null] instead of
    throwing, so [processImage] returns [null] after a single attempt and
    the media field stays unset; any other failure of the request is
    rethrown by [downloadImage] to its caller, the function wrapped by
    [retry] in [processImage], which therefore tries again. *)
Theorem download_not_found_is_not_fatal :
  forall (url : string),
    (forall axios_get,
        axios_get url = inl (Download.HttpError (Some 404)) ->
        Download.downloadImage axios_get url = inr None)
    /\ (forall axios_get e,
           axios_get url = inl e -> e <> Download.HttpError (Some 404) ->
           Download.downloadImage axios_get url = inl e)
    /\ (forall dryRun axios_get axios_post,
           url <> ""%string ->
           axios_get 0 url = inl (Download.HttpError (Some 404)) ->
           Download.processImage dryRun axios_get axios_post url
           = ([Retry.Invoked 1], None))
    /\ (forall dryRun axios_get axios_post e,
           url <> ""%string ->
           axios_get 0 url = inl e -> e <> Download.HttpError (Some 404) ->
           exists tr,
             fst (Download.processImage dryRun axios_get axios_post url)
             = Retry.Invoked 1 :: Retry.Warned 1 3 1000 :: Retry.Slept 1000
                 :: Retry.Invoked 2 :: tr).
Proof.
  intros url.
  assert (Hother : forall e, e <> Download.HttpError (Some 404) ->
                             Download.isNotFound e = false).
  { intros [[s|]| |] Hne; try reflexivity. simpl.
    destruct (Nat.eqb_spec s 404) as [->|]; [congruence | reflexivity]. }
  repeat split.
  - intros axios_get H. unfold Download.downloadImage. now rewrite H.
  - intros axios_get e H Hne. unfold Download.downloadImage.
    rewrite H. cbv beta iota zeta. now rewrite (Hother e Hne).
  - intros dryRun axios_get axios_post Hurl H.
    unfold Download.processImage. destruct url; [congruence|].
    unfold Retry.retry. simpl. unfold Download.processAttempt, Download.downloadImage.
    rewrite H. reflexivity.
  - intros dryRun axios_get axios_post e Hurl H Hne.
    assert (Hd : Download.downloadImage (axios_get 0) url = inl e).
    { unfold Download.downloadImage. rewrite H. cbv beta iota zeta.
      now rewrite (Hother e Hne). }
    unfold Download.processImage. destruct url as [|c url]; [congruence|].
    unfold Retry.retry. simpl Retry.or_default. simpl Z.to_nat.
    change (Pos.to_nat 3) with 3. simpl Retry.loop.
    unfold Download.processAttempt at 1. rewrite Hd.
    destruct (Download.processAttempt dryRun axios_get axios_post (String c url) 1)
      as [e1|v1].
    + destruct (Download.processAttempt dryRun axios_get axios_post (String c url) 2)
        as [e2|v2]; simpl; eexists; reflexivity.
    + simpl. eexists; reflexivity.
Qed.

Lemma download_not_found_is_not_fatal_witness :
  Download.processImage false
    (fun _ _ => inl (Download.HttpError (Some 404)))
    (fun _ _ => inr (Some 7%Z)) "https://cdn.example.com/media/photo.png"
  = ([Retry.Invoked 1], None)
  /\ Download.downloadImage (fun _ => inl (Download.HttpError (Some 503)))
       "https://cdn.example.com/media/photo.png"
     = inl (Download.HttpError (Some 503)).
Proof.
  split.
  - apply (proj1 (proj2 (proj2 (download_not_found_is_not_fatal
                                  "https://cdn.example.com/media/photo.png")))).
    + discriminate.
    + reflexivity.
  - apply (proj1 (proj2 (download_not_found_is_not_fatal
                           "https://cdn.example.com/media/photo.png"))).
    + reflexivity.
    + intros H; inversion H.
Defined.

(** ** Strapi media wrappers *)

(** C6.  The four wrapper shapes give the same canonical result: a bare
    media object [m] (an object that is not itself a [data] wrapper) and
    [{data: m}] both normalise to the node of [m]; an array and [{data:
    array}] both normalise to the nodes of the entries, in order, with the
    null entries dropped; and an absent value gives [null] in both forms. *)
Theorem media_wrappers_agree :
  (forall props : list (string * Js.value),
      Js.lookup "data" props = None ->
      Media.normalizeStrapiMedia (Js.Obj [("data"%string, Js.Obj props)])
      = Media.normalizeStrapiMedia (Js.Obj props)
      /\ Media.normalizeStrapiMedia (Js.Obj props)
         = Media.normalizeStrapiMediaNode (Js.Obj props))
  /\ (forall items : list Js.value,
         Media.normalizeStrapiMedia (Js.Obj [("data"%string, Js.Arr items)])
         = Media.normalizeStrapiMedia (Js.Arr items)
         /\ Media.normalizeStrapiMedia (Js.Arr items)
            = Js.Arr (filter Js.truthy (map Media.normalizeStrapiMediaNode items))
         /\ Forall (fun v => v <> Js.Null /\ v <> Js.Undefined)
                   (filter Js.truthy (map Media.normalizeStrapiMediaNode items)))
  /\ Media.normalizeStrapiMedia (Js.Obj [("data"%string, Js.Null)])
     = Media.normalizeStrapiMedia Js.Null.
Proof.
  split; [|split].
  - intros props Hbare. split.
    + unfold Media.normalizeStrapiMedia at 1. simpl.
      unfold Media.normalizeStrapiMedia. simpl. now rewrite Hbare.
    + unfold Media.normalizeStrapiMedia. simpl. now rewrite Hbare.
  - intros items. repeat split.
    apply Forall_forall. intros v Hv. apply filter_In in Hv. destruct Hv as [_ Hv].
    split; intros ->; discriminate.
  - reflexivity.
Qed.

Lemma media_wrappers_agree_witness :
  Media.normalizeStrapiMedia
    (Js.Obj [("data"%string,
              Js.Obj [("id"%string, Js.Num 7);
                      ("attributes"%string,
                       Js.Obj [("url"%string, Js.Str "/uploads/a.png")])])])
  = Media.normalizeStrapiMedia
      (Js.Obj [("id"%string, Js.Num 7);
               ("attributes"%string, Js.Obj [("url"%string, Js.Str "/uploads/a.png")])]).
Proof.
  apply (proj1 (proj1 media_wrappers_agree
                  [("id"%string, Js.Num 7);
                   ("attributes"%string, Js.Obj [("url"%string, Js.Str "/uploads/a.png")])]
                  eq_refl)).
Defined.

(** ** Boolean-ish fields *)

Section CaseFacts.

Import Chars.

Lemma code_inj (a b : ascii) : code a = code b -> a = b.
Proof.
  unfold code. intros H.
  rewrite <- (ascii_nat_embedding a), <- (ascii_nat_embedding b). now rewrite H.
Qed.

(** A character that lower-casing leaves alone and that is not an upper
    case letter is what the lower-casing of any of its case variants gives. *)
Lemma to_lower_sameLetter (a b : ascii) :
  sameLetter a b = true -> to_lower b = b -> is_upper b = false -> to_lower a = b.
Proof.
  unfold sameLetter. intros H Hb Hnu.
  apply orb_true_iff in H. destruct H as [H|H].
  - apply orb_true_iff in H. destruct H as [H|H].
    + apply Ascii.eqb_eq in H. now subst.
    + apply andb_true_iff in H. destruct H as [Hu Hc]. apply Nat.eqb_eq in Hc.
      unfold to_lower, has_lower_partner. rewrite Hu. simpl.
      rewrite <- Hc. apply ascii_nat_embedding.
  - apply andb_true_iff in H. destruct H as [Hl Hc]. apply Nat.eqb_eq in Hc.
    unfold is_lower, is_upper, in_range in *.
    apply andb_true_iff in Hl. destruct Hl as [H1 H2].
    apply Nat.leb_le in H1, H2.
    apply andb_false_iff in Hnu.
    destruct Hnu as [Hnu|Hnu]; apply Nat.leb_gt in Hnu; lia.
Qed.

Lemma toLowerCase_caseVariant (t : string) :
  forall s,
    caseVariant s t = true ->
    Forall (fun b => to_lower b = b /\ is_upper b = false) (list_ascii_of_string t) ->
    Str.toLowerCase s = t.
Proof.
  induction t as [|b t IH]; intros [|a s] Hv Hall; simpl in *; try discriminate.
  - reflexivity.
  - apply andb_true_iff in Hv. destruct Hv as [Hab Hst].
    inversion Hall as [|? ? [Hb1 Hb2] Hall']; subst.
    f_equal; [now apply to_lower_sameLetter | now apply IH].
Qed.

End CaseFacts.

(** C7 (counterexample).  [FALSE] is a case variant of the false-form
    [false], and the ACF boolean parser maps it to [true]. *)
Lemma boolean_parser_counterexample :
  caseVariant "FALSE" "false" = true
  /\ Booleans.parseAcfBoolean (Js.Str "FALSE") = true.
Proof. split; reflexivity. Qed.

(** C7 (amended).  [parseAcfBoolean] maps [true], [1], ['1'] and ['true'] to
    [true] and [false], [0], ['0'], ['false'], the empty string, [null] and
    [undefined] to [false], comparing exactly; every other string is
    non-empty and counts as [true] (so ['Yes'] and ['TRUE'], but also
    ['FALSE']).  The CSV [parseBoolean] is the one that ignores case: every
    case variant of ['true'], ['yes'] or ['1'] gives [true], every case
    variant of ['false'] or ['0'] and the empty string give [false]. *)
Theorem boolean_parsers :
  map Booleans.parseAcfBoolean
      [Js.Bool true; Js.Num 1; Js.Str "1"; Js.Str "true"; Js.Str "Yes"; Js.Str "TRUE"]
  = [true; true; true; true; true; true]
  /\ map Booleans.parseAcfBoolean
         [Js.Bool false; Js.Num 0; Js.Str "0"; Js.Str "false"; Js.Str ""; Js.Null;
          Js.Undefined]
     = [false; false; false; false; false; false; false]
  /\ (forall s : string,
         ~ In s ["1"; "0"; "true"; "false"; ""]%string ->
         Booleans.parseAcfBoolean (Js.Str s) = true)
  /\ (forall s t : string,
         In t ["true"; "yes"; "1"]%string -> caseVariant s t = true ->
         Booleans.parseBoolean s = true)
  /\ (forall s t : string,
         In t ["false"; "0"]%string -> caseVariant s t = true ->
         Booleans.parseBoolean s = false)
  /\ map Booleans.parseBoolean ["Yes"; "0"; ""; "TRUE"]%string = [true; false; false; true].
Proof.
  assert (Hlow : forall s t : string,
             In t ["true"; "yes"; "1"; "false"; "0"]%string -> caseVariant s t = true ->
             Str.toLowerCase s = t /\ s <> ""%string).
  { intros s t Ht Hv. split.
    - apply toLowerCase_caseVariant; [assumption|].
      simpl in Ht.
      repeat (destruct Ht as [<-|Ht]; [repeat constructor|]); contradiction.
    - intros ->. simpl in Ht.
      repeat (destruct Ht as [<-|Ht]; [discriminate|]); contradiction. }
  repeat split.
  - intros s Hs. unfold Booleans.parseAcfBoolean. simpl.
    destruct (String.eqb_spec s "1"); [subst; exfalso; apply Hs; simpl; tauto|].
    destruct (String.eqb_spec s "0"); [subst; exfalso; apply Hs; simpl; tauto|].
    destruct (String.eqb_spec s "true"); [subst; exfalso; apply Hs; simpl; tauto|].
    destruct (String.eqb_spec s "false"); [subst; exfalso; apply Hs; simpl; tauto|].
    destruct (String.eqb_spec s ""); [subst; exfalso; apply Hs; simpl; tauto|].
    simpl. destruct s; [congruence | reflexivity].
  - intros s t Ht Hv.
    destruct (Hlow s t) as [Hl Hne]; [simpl in *; tauto | assumption |].
    unfold Booleans.parseBoolean. destruct s as [|a s]; [congruence|].
    cbv beta iota zeta delta [Str.isEmpty]. rewrite Hl.
    simpl in Ht. repeat (destruct Ht as [<-|Ht]; [reflexivity|]). contradiction.
  - intros s t Ht Hv.
    destruct (Hlow s t) as [Hl Hne]; [simpl in *; tauto | assumption |].
    unfold Booleans.parseBoolean. destruct s as [|a s]; [congruence|].
    cbv beta iota zeta delta [Str.isEmpty]. rewrite Hl.
    simpl in Ht. repeat (destruct Ht as [<-|Ht]; [reflexivity|]). contradiction.
Qed.

Lemma boolean_parsers_witness :
  Booleans.parseBoolean "tRuE" = true /\ Booleans.parseBoolean "False" = false
  /\ Booleans.parseAcfBoolean (Js.Str "off") = true.
Proof.
  split; [|split].
  - apply (proj1 (proj2 (proj2 (proj2 boolean_parsers))) "tRuE"%string "true"%string).
    + simpl. tauto.
    + reflexivity.
  - apply (proj1 (proj2 (proj2 (proj2 (proj2 boolean_parsers)))) "False"%string "false"%string).
    + simpl. tauto.
    + reflexivity.
  - apply (proj1 (proj2 (proj2 boolean_parsers)) "off"%string).
    simpl. intros [H|[H|[H|[H|[H|[]]]]]]; discriminate.
Defined.

(** ** Slug de-duplication *)

Section DedupeFacts.

Import Slug.

Variable T : Type.
Variable slug : T -> string.
Variable date : T -> option string.
Variable id : T -> option Z.
Variable Date_parse : string -> option Z.

Local Notation "'pick'" := (pickPreferredBySlug T slug date id Date_parse).
Local Notation "'step'" := (dedupeStep T slug date id Date_parse).
Local Notation "'key' x" := (stripWpDuplicateSuffix (slug x)) (at level 10, x at level 9).

(** The preferred of two records is one of the two. *)
Lemma pick_one_of (a b : T) : pick a b = a \/ pick a b = b.
Proof.
  unfold pickPreferredBySlug.
  destruct (negb (Bool.eqb (isWpDuplicateSlug (slug a)) (isWpDuplicateSlug (slug b)))).
  - destruct (isWpDuplicateSlug (slug a)); auto.
  - destruct (dateOf T date Date_parse a) as [ta|], (dateOf T date Date_parse b) as [tb|];
      try destruct (negb (ta =? tb)%Z); try destruct (ta >? tb)%Z; auto;
      destruct (id a) as [ia|], (id b) as [ib|]; auto;
      destruct (negb (ia =? ib)%Z); auto; destruct (ia >? ib)%Z; auto.
Qed.

Lemma map_get_some (k : string) (mp : list (string * T)) (v : T) :
  map_get T k mp = Some v -> In (k, v) mp.
Proof.
  induction mp as [|[k' x] mp IH]; simpl; [discriminate|].
  destruct (String.eqb_spec k' k) as [->|Hne].
  - intros [= ->]. now left.
  - intros H. right. now apply IH.
Qed.

Lemma map_get_none (k : string) (mp : list (string * T)) :
  map_get T k mp = None -> ~ In k (map fst mp).
Proof.
  induction mp as [|[k' x] mp IH]; simpl; [tauto|].
  destruct (String.eqb_spec k' k) as [->|Hne]; [discriminate|].
  intros H [Heq|Hin]; [contradiction | now apply IH].
Qed.

(** Setting a key that is there keeps the keys; setting a new key appends
    it. *)
Lemma map_set_keys (k : string) (v : T) (mp : list (string * T)) :
  map fst (map_set T k v mp)
  = if in_dec string_dec k (map fst mp) then map fst mp else map fst mp ++ [k].
Proof.
  induction mp as [|[k' x] mp IH]; simpl; [reflexivity|].
  destruct (String.eqb_spec k' k) as [->|Hne]; simpl.
  - destruct (string_dec k k); [|congruence].
    reflexivity.
  - rewrite IH. destruct (string_dec k' k) as [Heq|Hneq]; [contradiction|].
    destruct (in_dec string_dec k (map fst mp)); reflexivity.
Qed.

Lemma map_set_values (k : string) (v : T) (mp : list (string * T)) (kv : string * T) :
  In kv (map_set T k v mp) -> kv = (k, v) \/ In kv mp.
Proof.
  induction mp as [|[k' x] mp IH]; simpl.
  - intros [H|[]]. now left.
  - destruct (String.eqb_spec k' k) as [->|Hne]; simpl.
    + intros [H|H]; auto.
    + intros [H|H]; auto. destruct (IH H); auto.
Qed.

Local Notation "'dedupe_inv'" := (dedupeInvariant T slug).

Lemma dedupe_step_inv (items : list T) (mp : list (string * T)) (item : T) :
  In item items -> dedupe_inv items mp -> dedupe_inv items (step mp item).
Proof.
  intros Hitem [Hnd Hvals]. unfold dedupeStep.
  destruct (map_get T (key item) mp) as [existing|] eqn:Hget.
  - apply map_get_some in Hget. split.
    + rewrite map_set_keys.
      destruct (in_dec string_dec (key item) (map fst mp)) as [_|Hn]; [assumption|].
      exfalso. apply Hn. apply (in_map fst) in Hget. exact Hget.
    + intros kv Hin. apply map_set_values in Hin. destruct Hin as [->|Hin]; [|auto].
      simpl. destruct (Hvals _ Hget) as [Hk He]. simpl in Hk, He.
      destruct (pick_one_of existing item) as [->| ->]; auto.
  - apply map_get_none in Hget. split.
    + rewrite map_set_keys.
      destruct (in_dec string_dec (key item) (map fst mp)) as [Hin|_]; [contradiction|].
      apply NoDup_app; [assumption | repeat constructor; intros [] | ].
      intros a Ha [<-|[]]. contradiction.
    + intros kv Hin. apply map_set_values in Hin. destruct Hin as [->|Hin]; auto.
Qed.

Lemma dedupe_fold_inv (items : list T) :
  forall (todo : list T) (mp : list (string * T)),
    (forall x, In x todo -> In x items) ->
    dedupe_inv items mp -> dedupe_inv items (fold_left step todo mp).
Proof.
  induction todo as [|x todo IH]; intros mp Hsub Hinv; simpl; [assumption|].
  apply IH.
  - intros y Hy. apply Hsub. now right.
  - apply dedupe_step_inv; [apply Hsub; now left | assumption].
Qed.

(** The first two parts of the de-duplication claim hold for every
    input: the base slugs of the result are pairwise distinct, and every
    record of the result is a record of the input. *)
Lemma dedupe_distinct_and_from_input (items : list T) :
  NoDup (map (fun x => key x) (dedupeBySlug T slug date id Date_parse items))
  /\ forall x, In x (dedupeBySlug T slug date id Date_parse items) -> In x items.
Proof.
  unfold dedupeBySlug.
  destruct (dedupe_fold_inv items items []) as [Hnd Hvals].
  { auto. }
  { split; [constructor | intros kv []]. }
  set (mp := fold_left step items []) in *.
  split.
  - rewrite map_map.
    replace (map (fun kv => key (snd kv)) mp) with (map fst mp); [assumption|].
    apply map_ext_in. intros kv Hin. symmetry. now apply Hvals.
  - intros x Hx. apply in_map_iff in Hx. destruct Hx as [kv [<- Hin]]. now apply Hvals.
Qed.

End DedupeFacts.

(** The records that reach the reconciler carry [publishDate] and no
    [date]: between two works of equal duplicate status the identifier
    decides, whatever their publish dates. *)
Lemma works_are_compared_by_id (Date_parse : string -> option Z) (a b : Slug.Work) :
  Slug.isWpDuplicateSlug (Slug.slug a) = Slug.isWpDuplicateSlug (Slug.slug b) ->
  Slug.pickPreferredBySlug Slug.Work Slug.slug (fun _ => None)
    (fun w => Some (Slug.id w)) Date_parse a b
  = if (Slug.id a <? Slug.id b)%Z then b else a.
Proof.
  intros Hdup. unfold Slug.pickPreferredBySlug, Slug.dateOf. rewrite Hdup.
  rewrite Bool.eqb_reflx. simpl.
  destruct (Z.eqb_spec (Slug.id a) (Slug.id b)) as [Heq|Hne]; simpl.
  - rewrite Heq, Z.ltb_irrefl. reflexivity.
  - destruct (Z.ltb_spec (Slug.id a) (Slug.id b)) as [Hlt|Hge].
    + destruct (Slug.id a >? Slug.id b)%Z eqn:Hgt; [|reflexivity].
      apply Z.gtb_lt in Hgt. lia.
    + destruct (Slug.id a >? Slug.id b)%Z eqn:Hgt; [reflexivity|].
      rewrite Z.gtb_ltb in Hgt. apply Z.ltb_ge in Hgt. lia.
Qed.

(** C3 (the code at the failing input).  Two works whose slugs are both
    duplicate-suffixed forms of [case-study]: the first was published in
    2024 and has the lower identifier, the second in 2020.  The claim makes
    the more recently published first one the survivor; [dedupeBySlug]
    keeps the second, for every behaviour of [Date.parse]. *)
Theorem dedupe_ignores_publish_date :
  forall Date_parse : string -> option Z,
    let newer := Slug.transformWork
                   {| Slug.post_id := 10; Slug.post_slug := "case-study-2";
                      Slug.post_date := Some "2024-06-01T09:00:00"%string |} in
    let older := Slug.transformWork
                   {| Slug.post_id := 11; Slug.post_slug := "case-study-3";
                      Slug.post_date := Some "2020-01-15T09:00:00"%string |} in
    Slug.stripWpDuplicateSuffix (Slug.slug newer) = "case-study"%string
    /\ Slug.stripWpDuplicateSuffix (Slug.slug older) = "case-study"%string
    /\ Slug.dedupeWorks Date_parse [newer; older] = [older]
    /\ Slug.dedupeWorks Date_parse [older; newer] = [older].
Proof. intros Date_parse. repeat split. Qed.

(** ** The matcher *)

Section MatcherFacts.

Import Re.

Lemma reach_refl (x : mstate) : reach x x.
Proof. exists []. split; reflexivity. Qed.

Lemma reach_trans (x y z : mstate) : reach x y -> reach y z -> reach x z.
Proof.
  intros [c1 [Hb1 Ha1]] [c2 [Hb2 Ha2]]. exists (c1 ++ c2). split.
  - rewrite Hb2, Hb1, rev_app_distr, app_assoc. reflexivity.
  - rewrite Ha1, Ha2, app_assoc. reflexivity.
Qed.

(** Reaching depends on the position only, not on the captures. *)
Lemma reach_same_position (x y y' : mstate) :
  before y' = before y -> after y' = after y -> reach x y -> reach x y'.
Proof. intros Hb Ha [c [H1 H2]]. exists c. rewrite Hb, Ha. now split. Qed.

Lemma reach_from_same_position (x x' y : mstate) :
  before x' = before x -> after x' = after x -> reach x y -> reach x' y.
Proof. intros Hb Ha [c [H1 H2]]. exists c. rewrite Hb, Ha. now split. Qed.

Lemma reach_advance (x : mstate) (a : ascii) (l : list ascii) :
  after x = a :: l -> reach x (advance x a l).
Proof. intros H. exists [a]. split; [reflexivity | exact H]. Qed.

Lemma reach_length (x y : mstate) :
  reach x y -> pos y + length (after y) = pos x + length (after x).
Proof.
  intros [c [Hb Ha]]. unfold pos. rewrite Hb, Ha, !length_app, length_rev. lia.
Qed.

Lemma reach_pos (x y : mstate) : reach x y -> pos x <= pos y.
Proof. intros [c [Hb Ha]]. unfold pos. rewrite Hb, length_app. lia. Qed.

Lemma match_text_reach (fl : flags) (t : list ascii) :
  forall x y, match_text fl t x = Some y -> reach x y.
Proof.
  induction t as [|c t IH]; intros x y; simpl.
  - intros [= ->]. apply reach_refl.
  - destruct (after x) as [|a l] eqn:Ha; [discriminate|].
    destruct (same_char fl c a); [|discriminate].
    intros H. apply (reach_trans x (advance x a l)); [now apply reach_advance | now apply IH].
Qed.

Lemma rep_local body inner greedy :
  local body ->
  forall n mn mx k k' x,
    (forall y, reach x y -> k y = k' y) ->
    rep body inner greedy k n mn mx x = rep body inner greedy k' n mn mx x.
Proof.
  intros Hbody. induction n as [|n IH]; intros mn mx k k' x Hk; simpl; [reflexivity|].
  rewrite (Hk x (reach_refl x)).
  set (xr := {| before := before x; after := after x; caps := drop_caps inner (caps x) |}).
  assert (Hd : body (fun y => if (mn =? 0) && (pos y =? pos x) then None
                              else rep body inner greedy k n (Nat.pred mn) (dec_max mx) y) xr
               = body (fun y => if (mn =? 0) && (pos y =? pos x) then None
                                else rep body inner greedy k' n (Nat.pred mn) (dec_max mx) y) xr).
  { apply Hbody. intros y Hy. destruct ((mn =? 0) && (pos y =? pos x)); [reflexivity|].
    apply IH. intros z Hz. apply Hk.
    apply (reach_trans x y); [|assumption].
    now apply (reach_from_same_position xr x y). }
  rewrite Hd. reflexivity.
Qed.

Lemma m_local (fl : flags) (r : regex) : local (m fl r).
Proof.
  induction r as [ | c | | neg items | r1 IH1 r2 IH2 | r1 IH1 r2 IH2 | r IH mn mx g
                   | n r IH | | | | r IH | r IH | n ];
    intros k k' x Hk; cbn [m].
  - apply Hk, reach_refl.
  - unfold step_if. destruct (after x) as [|a l] eqn:Ha; [reflexivity|].
    destruct (chr_match fl c a); [|reflexivity]. apply Hk. now apply reach_advance.
  - unfold step_if. destruct (after x) as [|a l] eqn:Ha; [reflexivity|].
    destruct (any_match a); [|reflexivity]. apply Hk. now apply reach_advance.
  - unfold step_if. destruct (after x) as [|a l] eqn:Ha; [reflexivity|].
    destruct (cls_match fl neg items a); [|reflexivity]. apply Hk. now apply reach_advance.
  - apply IH1. intros y Hy. apply IH2. intros z Hz. apply Hk. now apply (reach_trans x y).
  - rewrite (IH1 k k' x Hk), (IH2 k k' x Hk). reflexivity.
  - apply rep_local; assumption.
  - apply IH. intros y Hy. apply Hk. now apply (reach_same_position x y).
  - destruct (is_nil (before x) || (multiline fl && at_line_break (before x)));
      [apply Hk, reach_refl | reflexivity].
  - destruct (is_nil (after x) || (multiline fl && at_line_break (after x)));
      [apply Hk, reach_refl | reflexivity].
  - destruct (xorb (at_word (before x)) (at_word (after x)));
      [apply Hk, reach_refl | reflexivity].
  - destruct (m fl r Some x); [|reflexivity].
    apply Hk. apply (reach_same_position x x); [reflexivity | reflexivity | apply reach_refl].
  - destruct (m fl r Some x); [reflexivity|]. apply Hk, reach_refl.
  - destruct (get_cap n (caps x)); [|apply Hk, reach_refl].
    destruct (match_text fl l x) eqn:Ht; [|reflexivity].
    apply Hk. now apply (match_text_reach fl l).
Qed.

(** The counter of the loop does not matter once it is above the bound. *)
Lemma rep_counter body inner greedy k :
  local body ->
  forall n n' mn mx x,
    mn + length (after x) < n -> mn + length (after x) < n' ->
    rep body inner greedy k n mn mx x = rep body inner greedy k n' mn mx x.
Proof.
  intros Hbody. induction n as [|n IH]; intros n' mn mx x Hn Hn'; [lia|].
  destruct n' as [|n']; [lia|]. simpl.
  set (xr := {| before := before x; after := after x; caps := drop_caps inner (caps x) |}).
  assert (Hd : body (fun y => if (mn =? 0) && (pos y =? pos x) then None
                              else rep body inner greedy k n (Nat.pred mn) (dec_max mx) y) xr
               = body (fun y => if (mn =? 0) && (pos y =? pos x) then None
                                else rep body inner greedy k n' (Nat.pred mn) (dec_max mx) y) xr).
  { apply Hbody. intros y Hy.
    destruct (Nat.eqb_spec mn 0) as [Hmn|Hmn]; simpl.
    - destruct (Nat.eqb_spec (pos y) (pos x)) as [Hp|Hp]; [reflexivity|].
      assert (Hl := reach_length xr y Hy). assert (Hq := reach_pos xr y Hy).
      unfold pos in Hl, Hq, Hp; cbn [before after xr] in Hl, Hq. apply IH; lia.
    - assert (Hl := reach_length xr y Hy). assert (Hq := reach_pos xr y Hy).
      unfold pos in Hl, Hq; cbn [before after xr] in Hl, Hq. apply IH; lia. }
  rewrite Hd. reflexivity.
Qed.

Lemma m_quant_rep (fl : flags) (r : regex) (mn : nat) (mx : option nat) (g : bool)
  (k : mstate -> option mstate) (x : mstate) :
  m fl (Quant r mn mx g) k x
  = rep (m fl r) (groups_of r) g k (S (mn + length (after x))) mn mx x.
Proof. reflexivity. Qed.

Lemma rep_S body inner g k n mn mx x :
  rep body inner g k (S n) mn mx x
  = if max_is_zero mx then k x
    else
      let d := fun y : mstate =>
                 if (mn =? 0) && (pos y =? pos x) then None
                 else rep body inner g k n (Nat.pred mn) (dec_max mx) y in
      let xr := {| before := before x; after := after x;
                   caps := drop_caps inner (caps x) |} in
      if negb (mn =? 0) then body d xr
      else if g then match body d xr with Some z => Some z | None => k x end
           else match k x with Some z => Some z | None => body d xr end.
Proof. reflexivity. Qed.

(** The equation of RepeatMatcher. *)
Lemma m_quant (fl : flags) (r : regex) (mn : nat) (mx : option nat) (g : bool)
  (k : mstate -> option mstate) (x : mstate) :
  m fl (Quant r mn mx g) k x
  = if max_is_zero mx then k x
    else
      let d := fun y : mstate =>
                 if (mn =? 0) && (pos y =? pos x) then None
                 else m fl (Quant r (Nat.pred mn) (dec_max mx) g) k y in
      let xr := {| before := before x; after := after x;
                   caps := drop_caps (groups_of r) (caps x) |} in
      if negb (mn =? 0) then m fl r d xr
      else if g then match m fl r d xr with Some z => Some z | None => k x end
           else match k x with Some z => Some z | None => m fl r d xr end.
Proof.
  rewrite m_quant_rep, rep_S. destruct (max_is_zero mx); [reflexivity|].
  cbv zeta.
  set (xr := {| before := before x; after := after x;
                caps := drop_caps (groups_of r) (caps x) |}).
  assert (Hd : m fl r (fun y => if (mn =? 0) && (pos y =? pos x) then None
                                else rep (m fl r) (groups_of r) g k (mn + length (after x))
                                         (Nat.pred mn) (dec_max mx) y) xr
               = m fl r (fun y => if (mn =? 0) && (pos y =? pos x) then None
                                  else m fl (Quant r (Nat.pred mn) (dec_max mx) g) k y) xr).
  { apply m_local. intros y Hy. rewrite m_quant_rep.
    assert (Hl := reach_length xr y Hy). assert (Hq := reach_pos xr y Hy).
    unfold pos in Hl, Hq; cbn [before after xr] in Hl, Hq.
    destruct (Nat.eqb_spec mn 0) as [Hmn|Hmn]; cbn [andb].
    - destruct (Nat.eqb_spec (pos y) (pos x)) as [Hp|Hp]; [reflexivity|].
      unfold pos in Hp. apply rep_counter; [apply m_local | lia | lia].
    - apply rep_counter; [apply m_local | lia | lia]. }
  rewrite Hd. reflexivity.
Qed.

(** *** Quantifiers over a pattern that matches one character *)

Lemma single_chr fl c : single fl (Chr c) (chr_match fl c).
Proof. split; reflexivity. Qed.
Lemma single_any fl : single fl Any any_match.
Proof. split; reflexivity. Qed.
Lemma single_cls fl neg items : single fl (Cls neg items) (cls_match fl neg items).
Proof. split; reflexivity. Qed.

Lemma drop_caps_nil (cs : list (nat * list ascii)) : drop_caps [] cs = cs.
Proof.
  unfold drop_caps. induction cs as [|kv cs IH]; [reflexivity|].
  cbn [filter existsb negb]. f_equal. exact IH.
Qed.

Lemma mstate_eta (x : mstate) :
  {| before := before x; after := after x; caps := caps x |} = x.
Proof. now destruct x. Qed.

Lemma step_if_ext (t : ascii -> bool) (k k' : mstate -> option mstate) (x : mstate) :
  (forall a l, after x = a :: l -> k (advance x a l) = k' (advance x a l)) ->
  step_if t k x = step_if t k' x.
Proof.
  intros H. unfold step_if. destruct (after x) as [|a l] eqn:Ha; [reflexivity|].
  destruct (t a); [now apply H | reflexivity].
Qed.

Lemma pos_advance (x : mstate) (a : ascii) (l : list ascii) :
  (pos (advance x a l) =? pos x) = false.
Proof. unfold pos, advance. cbn [before length]. apply Nat.eqb_neq. lia. Qed.

(** A quantifier whose minimum is not reached yet takes one character. *)
Lemma quant_more fl r t (i : nat) mx g k x :
  single fl r t ->
  m fl (Quant r (S i) mx g) k x
  = if max_is_zero mx then k x
    else step_if t (m fl (Quant r i (dec_max mx) g) k) x.
Proof.
  intros [Hg Hs]. rewrite m_quant. destruct (max_is_zero mx); [reflexivity|].
  cbv zeta. rewrite Hg, drop_caps_nil, mstate_eta. simpl negb. cbv iota.
  rewrite Hs. reflexivity.
Qed.

(** A greedy quantifier past its minimum takes one more character when it
    can and the rest then matches; if not, it stops. *)
Lemma quant_greedy fl r t mx k x :
  single fl r t ->
  m fl (Quant r 0 mx true) k x
  = if max_is_zero mx then k x
    else match step_if t (m fl (Quant r 0 (dec_max mx) true) k) x with
         | Some z => Some z
         | None => k x
         end.
Proof.
  intros [Hg Hs]. rewrite m_quant. destruct (max_is_zero mx); [reflexivity|].
  cbv zeta. rewrite Hg, drop_caps_nil, mstate_eta. simpl negb. cbv iota.
  rewrite Hs.
  rewrite (step_if_ext t _ (m fl (Quant r 0 (dec_max mx) true) k) x); [reflexivity|].
  intros a l Ha. simpl Nat.pred. rewrite pos_advance. reflexivity.
Qed.


(** *** Patterns that cannot match *)

Lemma rep_fails body inner g :
  local body -> (forall x, body (fun _ => None) x = None) ->
  forall n mn mx x, rep body inner g (fun _ => None) n mn mx x = None.
Proof.
  intros Hl Hb. induction n as [|n IH]; intros mn mx x; [reflexivity|].
  rewrite rep_S. destruct (max_is_zero mx); [reflexivity|]. cbv zeta.
  set (xr := {| before := before x; after := after x; caps := drop_caps inner (caps x) |}).
  rewrite (Hl _ (fun _ => None) xr).
  - rewrite Hb. destruct (negb (mn =? 0)), g; reflexivity.
  - intros y _. destruct ((mn =? 0) && (pos y =? pos x)); [reflexivity | apply IH].
Qed.

(** A pattern fails when its continuation always fails. *)
Lemma m_fails (fl : flags) (r : regex) :
  forall x, m fl r (fun _ => None) x = None.
Proof.
  induction r as [ | c | | neg items | r1 IH1 r2 IH2 | r1 IH1 r2 IH2 | r IH mn mx g
                   | n r IH | | | | r IH | r IH | n ];
    intros x; cbn [m].
  - reflexivity.
  - unfold step_if. destruct (after x); [reflexivity|]. now destruct (chr_match fl c a).
  - unfold step_if. destruct (after x); [reflexivity|]. now destruct (any_match a).
  - unfold step_if. destruct (after x); [reflexivity|].
    now destruct (cls_match fl neg items a).
  - rewrite (m_local fl r1 _ (fun _ => None) x); [apply IH1|]. intros y _. apply IH2.
  - now rewrite IH1, IH2.
  - apply rep_fails; [apply m_local | apply IH].
  - apply IH.
  - now destruct (is_nil (before x) || (multiline fl && at_line_break (before x))).
  - now destruct (is_nil (after x) || (multiline fl && at_line_break (after x))).
  - now destruct (xorb (at_word (before x)) (at_word (after x))).
  - now destruct (m fl r Some x).
  - now destruct (m fl r Some x).
  - destruct (get_cap n (caps x)); [|reflexivity]. now destruct (match_text fl l x).
Qed.

Lemma m_fails_later (fl : flags) (r : regex) (k : mstate -> option mstate) (x : mstate) :
  (forall y, reach x y -> k y = None) -> m fl r k x = None.
Proof.
  intros H. rewrite (m_local fl r k (fun _ => None) x H). apply m_fails.
Qed.

Lemma in_all_chars (a : ascii) : In a all_chars.
Proof.
  unfold all_chars. rewrite <- (ascii_nat_embedding a). apply in_map.
  apply in_seq. split; [lia|]. simpl. apply nat_ascii_bounded.
Qed.

Lemma within_spec (test P : ascii -> bool) (a : ascii) :
  within test P = true -> P a = false -> test a = false.
Proof.
  unfold within. intros H Hp. rewrite forallb_forall in H.
  specialize (H a (in_all_chars a)). rewrite Hp in H. now destruct (test a).
Qed.

Lemma free_reach (P : ascii -> bool) (x y : mstate) :
  free P (after x) -> reach x y -> free P (after y).
Proof.
  intros H [c [_ Ha]] a Hin. apply H. rewrite Ha. apply in_or_app. now right.
Qed.

Lemma step_if_free (test P : ascii -> bool) k x :
  within test P = true -> free P (after x) -> step_if test k x = None.
Proof.
  intros Hw Hf. unfold step_if. destruct (after x) as [|a l]; [reflexivity|].
  rewrite (within_spec test P a Hw); [reflexivity|]. apply Hf. now left.
Qed.

(** A pattern that requires a character of a kind fails on an input that
    has none left. *)
Lemma requires_fails (fl : flags) (P : ascii -> bool) (r : regex) :
  requires fl P r = true ->
  forall k x, free P (after x) -> m fl r k x = None.
Proof.
  induction r as [ | c | | neg items | r1 IH1 r2 IH2 | r1 IH1 r2 IH2 | r IH mn mx g
                   | n r IH | | | | r IH | r IH | n ];
    intros Hreq k x Hf; cbn [requires] in Hreq; try discriminate.
  - cbn [m]. now apply (step_if_free _ P).
  - cbn [m]. now apply (step_if_free _ P).
  - cbn [m]. now apply (step_if_free _ P).
  - cbn [m]. apply orb_true_iff in Hreq. destruct Hreq as [H1|H2].
    + now apply IH1.
    + apply m_fails_later. intros y Hy. apply IH2; [assumption|].
      now apply (free_reach P x y).
  - cbn [m]. apply andb_true_iff in Hreq. destruct Hreq as [H1 H2].
    rewrite IH1 by assumption. now apply IH2.
  - apply andb_true_iff in Hreq. destruct Hreq as [Hreq Hr].
    apply andb_true_iff in Hreq. destruct Hreq as [Hmn Hmx].
    rewrite m_quant. apply negb_true_iff in Hmx. rewrite Hmx, Hmn. cbv zeta.
    apply IH; assumption.
  - cbn [m]. now apply IH.
  - cbn [m]. now rewrite IH.
Qed.

End MatcherFacts.

(** ** Slug reconciler: the duplicate suffix *)

Section SlugFacts.

Import Re Slug.

Lemma m_Seq fl r1 r2 k x : m fl (Seq r1 r2) k x = m fl r1 (m fl r2 k) x.
Proof. reflexivity. Qed.
Lemma m_Chr fl c k x : m fl (Chr c) k x = step_if (chr_match fl c) k x.
Proof. reflexivity. Qed.
Lemma m_Cls fl neg items k x :
  m fl (Cls neg items) k x = step_if (cls_match fl neg items) k x.
Proof. reflexivity. Qed.
Lemma m_Group fl n r k x :
  m fl (Group n r) k x
  = m fl r (fun y => k {| before := before y; after := after y;
                          caps := set_cap n (consumed x y) (caps y) |}) x.
Proof. reflexivity. Qed.
Lemma m_Bol fl k x :
  m fl Bol k x
  = if is_nil (before x) || (multiline fl && at_line_break (before x)) then k x else None.
Proof. reflexivity. Qed.
Lemma m_Eol fl k x :
  m fl Eol k x
  = if is_nil (after x) || (multiline fl && at_line_break (after x)) then k x else None.
Proof. reflexivity. Qed.

Lemma get_cap_set_same n v cs : get_cap n (set_cap n v cs) = Some v.
Proof. unfold set_cap. simpl. now rewrite Nat.eqb_refl. Qed.

Lemma get_cap_drop_other n j cs :
  n <> j -> get_cap n (drop_caps [j] cs) = get_cap n cs.
Proof.
  intros Hne. unfold drop_caps. induction cs as [|[i v] cs IH]; [reflexivity|].
  simpl in *. rewrite orb_false_r.
  destruct (Nat.eqb_spec i j) as [->|Hij]; simpl.
  - destruct (Nat.eqb_spec j n); [congruence | exact IH].
  - rewrite IH. reflexivity.
Qed.

Lemma get_cap_set_other n j v cs :
  n <> j -> get_cap n (set_cap j v cs) = get_cap n cs.
Proof.
  intros Hne. unfold set_cap. cbn [get_cap].
  destruct (Nat.eqb_spec j n); [congruence|]. now apply get_cap_drop_other.
Qed.

(** A pattern anchored at the start of the input matches at the start
    only. *)
Lemma search_anchored (r : regex) (aft : list ascii) :
  forall bef, bef <> [] -> search plain (Seq Bol r) bef aft = None.
Proof.
  induction aft as [|a aft IH]; intros bef Hne.
  - cbn [search]. unfold match_here. rewrite m_Seq, m_Bol. cbn [start_state before].
    destruct bef; [congruence | reflexivity].
  - cbn [search]. unfold match_here. rewrite m_Seq, m_Bol. cbn [start_state before].
    destruct bef as [|b bef]; [congruence|]. cbn [is_nil multiline plain andb orb].
    rewrite IH; [reflexivity | discriminate].
Qed.

Lemma exec_anchored (r : regex) (s : string) :
  exec plain (Seq Bol r) s
  = match m plain r Some (start_state [] (list_ascii_of_string s)) with
    | Some y => Some (result_of (start_state [] (list_ascii_of_string s)) y)
    | None => None
    end.
Proof.
  unfold exec. destruct (list_ascii_of_string s) as [|a l].
  - cbn [search]. unfold match_here. rewrite m_Seq, m_Bol.
    cbn [start_state before is_nil orb].
    now destruct (m plain r Some _).
  - cbn [search]. unfold match_here. rewrite m_Seq, m_Bol.
    cbn [start_state before is_nil orb].
    destruct (m plain r Some _); [reflexivity|].
    rewrite search_anchored; [reflexivity | discriminate].
Qed.

Lemma digit_test (a : ascii) : cls_match plain false [CDigit] a = Chars.is_digit a.
Proof.
  unfold cls_match, items_have. cbn. now rewrite orb_false_r, orb_false_r.
Qed.

Lemma dash_test (a : ascii) : chr_match plain "-" a = Ascii.eqb a "-".
Proof. unfold chr_match, items_have. cbn. now rewrite orb_false_r, orb_false_r. Qed.

Lemma suffixDigits_no_dash dash l :
  Ascii.eqb dash "-" = false -> suffixDigits (dash :: l) = None.
Proof. intros H. destruct l as [|? [|? [|? ?]]]; cbn [suffixDigits]; now rewrite ?H. Qed.

Lemma suffixDigits_no_digit dash d1 l :
  Chars.is_digit d1 = false -> suffixDigits (dash :: d1 :: l) = None.
Proof.
  intros H. destruct l as [|? [|? ?]]; cbn [suffixDigits];
    now rewrite ?H, ?andb_false_r.
Qed.

Lemma suffixTail_spec (y : mstate) :
  match m plain suffixTail Some y with
  | Some z =>
      exists ds, suffixDigits (after y) = Some ds
                 /\ get_cap 2 (caps z) = Some ds
                 /\ forall n, n <> 2 -> get_cap n (caps z) = get_cap n (caps y)
  | None => suffixDigits (after y) = None
  end.
Proof.
  unfold suffixTail, seq, range. rewrite m_Seq, m_Chr.
  unfold step_if at 1. destruct (after y) as [|dash l] eqn:Hy; [reflexivity|].
  rewrite dash_test. destruct (Ascii.eqb dash "-") eqn:Hdash;
    [|now apply suffixDigits_no_dash].
  rewrite m_Seq, m_Group.
  rewrite (quant_more plain digit _ 0 (Some 2) true _ _ (single_cls plain false [CDigit])).
  cbn [max_is_zero dec_max Nat.pred].
  unfold step_if at 1. cbn [advance after].
  destruct l as [|d1 l]; [reflexivity|].
  rewrite digit_test. destruct (Chars.is_digit d1) eqn:Hd1;
    [|now apply suffixDigits_no_digit].
  rewrite (quant_greedy plain digit _ (Some 1) _ _ (single_cls plain false [CDigit])).
  cbn [max_is_zero dec_max Nat.pred].
  unfold step_if at 1. cbn [advance after].
  destruct l as [|d2 l].
  - (* one digit, then the end *)
    rewrite m_Eol. cbn [is_nil after orb]. exists [d1]. cbn [suffixDigits]. rewrite Hdash, Hd1.
    repeat split.
    + cbn [caps]. unfold consumed, pos. cbn [before length advance]. 
      replace (S (S (length (before y))) - S (length (before y))) with 1 by lia.
      cbn [firstn rev app]. apply get_cap_set_same.
    + intros n Hn. cbn [caps advance]. now apply get_cap_set_other.
  - rewrite digit_test. destruct (Chars.is_digit d2) eqn:Hd2.
    + rewrite (quant_greedy plain digit _ (Some 0) _ _ (single_cls plain false [CDigit])).
      cbn [max_is_zero]. rewrite m_Eol. cbn [is_nil after advance orb multiline plain andb].
      destruct l as [|d3 l].
      * exists [d1; d2]. cbn [suffixDigits]. rewrite Hdash, Hd1, Hd2. repeat split.
        -- cbn [caps]. unfold consumed, pos. cbn [before length advance].
           replace (S (S (S (length (before y)))) - S (length (before y))) with 2 by lia.
           cbn [firstn rev app]. apply get_cap_set_same.
        -- intros n Hn. cbn [caps advance]. now apply get_cap_set_other.
      * cbn [suffixDigits]. reflexivity.
    + rewrite m_Eol. cbn [is_nil after advance orb multiline plain andb suffixDigits].
      rewrite Hdash, Hd1, Hd2. destruct l; reflexivity.
Qed.

Lemma consumed_from_start (x0 y : mstate) :
  before x0 = [] -> consumed x0 y = rev (before y).
Proof.
  intros H. unfold consumed, pos. rewrite H. cbn [length]. rewrite Nat.sub_0_r.
  now rewrite firstn_all.
Qed.

(** The greedy  ( .* )  followed by the tail of the pattern. *)
Lemma star_then_suffix (x0 : mstate) (l : list ascii) :
  before x0 = [] ->
  forall bef cs,
    match m plain (star Any)
            (fun y => m plain suffixTail Some
                        {| before := before y; after := after y;
                           caps := set_cap 1 (consumed x0 y) (caps y) |})
            {| before := bef; after := l; caps := cs |} with
    | Some z =>
        exists b ds, splitSuffix l = Some (b, ds)
                     /\ get_cap 1 (caps z) = Some (rev bef ++ b)
                     /\ get_cap 2 (caps z) = Some ds
    | None => splitSuffix l = None
    end.
Proof.
  intros Hx0. induction l as [|a l IH]; intros bef cs; unfold star;
    rewrite (quant_greedy plain Any _ None _ _ (single_any plain));
    cbn [max_is_zero dec_max]; unfold step_if at 1; cbn [after].
  - assert (Ht := suffixTail_spec
                    {| before := bef; after := [];
                       caps := set_cap 1 (consumed x0 {| before := bef; after := [];
                                                         caps := cs |}) cs |}).
    cbn [before after caps] in *.
    destruct (m plain suffixTail Some _) as [z|].
    + destruct Ht as [ds [Hd _]]. discriminate.
    + reflexivity.
  - assert (Hhere :
      match m plain suffixTail Some
              {| before := bef; after := a :: l;
                 caps := set_cap 1 (consumed x0 {| before := bef; after := a :: l;
                                                   caps := cs |}) cs |} with
      | Some z =>
          exists ds, suffixDigits (a :: l) = Some ds
                     /\ get_cap 1 (caps z) = Some (rev bef ++ [])
                     /\ get_cap 2 (caps z) = Some ds
      | None => suffixDigits (a :: l) = None
      end).
    { assert (Ht := suffixTail_spec
                      {| before := bef; after := a :: l;
                         caps := set_cap 1 (consumed x0 {| before := bef; after := a :: l;
                                                           caps := cs |}) cs |}).
      cbn [before after caps] in *.
      destruct (m plain suffixTail Some _) as [z|]; [|exact Ht].
      destruct Ht as [ds [Hd [H2 Hother]]]. exists ds. repeat split; try assumption.
      rewrite Hother by discriminate. rewrite get_cap_set_same.
      rewrite consumed_from_start by assumption. cbn [before]. now rewrite app_nil_r. }
    cbn [before after caps] in *.
    destruct (any_match a) eqn:Hany.
    + specialize (IH (a :: bef) cs). unfold advance. cbn [before caps].
      unfold star in IH.
      destruct (m plain (Quant Any 0 None true) _ {| before := a :: bef; after := l;
                                                     caps := cs |}) as [z|].
      * destruct IH as [b [ds [Hs [H1 H2]]]]. exists (a :: b), ds.
        cbn [splitSuffix]. rewrite Hany, Hs. repeat split; [|assumption].
        rewrite H1. cbn [rev]. now rewrite <- app_assoc.
      * cbn [splitSuffix]. rewrite Hany, IH.
        destruct (m plain suffixTail Some _) as [z|].
        -- destruct Hhere as [ds [Hd [H1 H2]]]. exists [], ds. rewrite Hd. now repeat split.
        -- now rewrite Hhere.
    + cbn [splitSuffix]. rewrite Hany.
      destruct (m plain suffixTail Some _) as [z|].
      * destruct Hhere as [ds [Hd [H1 H2]]]. exists [], ds. rewrite Hd. now repeat split.
      * now rewrite Hhere.
Qed.

(** What [stripWpDuplicateSuffix] computes, with the matcher taken out. *)
Lemma strip_by_splitSuffix (slug : string) :
  stripWpDuplicateSuffix slug
  = match splitSuffix (list_ascii_of_string slug) with
    | Some (b, ds) =>
        match Number (string_of_list_ascii ds) with
        | Some n => if (n <? 2)%Z || (n >? 99)%Z then slug else string_of_list_ascii b
        | None => slug
        end
    | None => slug
    end.
Proof.
  unfold stripWpDuplicateSuffix, duplicateSuffix.
  change (seq [Bol; Group 1 (star Any); Chr "-"; Group 2 (range digit 1 2); Eol])
    with (Seq Bol (Seq (Group 1 (star Any)) suffixTail)).
  rewrite exec_anchored, m_Seq, m_Group.
  assert (H := star_then_suffix (start_state [] (list_ascii_of_string slug))
                 (list_ascii_of_string slug) eq_refl [] []).
  unfold start_state in *.
  destruct (m plain (star Any) _ _) as [z|].
  - destruct H as [b [ds [Hs [H1 H2]]]]. rewrite Hs.
    unfold sub, group, result_of. cbn [groups]. rewrite H1, H2. reflexivity.
  - now rewrite H.
Qed.

Lemma digit_is_not_dash (d : ascii) : Chars.is_digit d = true -> Ascii.eqb d "-" = false.
Proof.
  intros H. destruct (Ascii.eqb_spec d "-") as [->|]; [discriminate | reflexivity].
Qed.

Lemma digit_any_match (d : ascii) : Chars.is_digit d = true -> any_match d = true.
Proof.
  unfold Chars.is_digit, any_match, Chars.is_line_terminator, Chars.in_range.
  intros H. apply andb_true_iff in H. destruct H as [H1 H2].
  apply Nat.leb_le in H1, H2.
  destruct (Nat.eqb_spec (Chars.code d) 10); [lia|].
  destruct (Nat.eqb_spec (Chars.code d) 13); [lia|]. reflexivity.
Qed.

Lemma splitSuffix_digits (ds : list ascii) :
  oneOrTwoDigits (string_of_list_ascii ds) = true -> splitSuffix ds = None.
Proof.
  destruct ds as [|d1 [|d2 [|d3 ds]]]; cbn [string_of_list_ascii oneOrTwoDigits];
    try discriminate; intros H.
  - cbn [splitSuffix suffixDigits]. now destruct (any_match d1).
  - apply andb_true_iff in H. destruct H as [H1 H2].
    cbn [splitSuffix suffixDigits]. rewrite (digit_is_not_dash d1 H1). cbn [andb].
    now destruct (any_match d1), (any_match d2).
Qed.

Lemma suffixDigits_dash (ds : list ascii) :
  oneOrTwoDigits (string_of_list_ascii ds) = true ->
  suffixDigits ("-"%char :: ds) = Some ds.
Proof.
  destruct ds as [|d1 [|d2 [|d3 ds]]]; cbn [string_of_list_ascii oneOrTwoDigits];
    try discriminate; intros H; cbn [suffixDigits].
  - now rewrite H.
  - apply andb_true_iff in H. destruct H as [H1 H2]. now rewrite H1, H2.
Qed.

(** A single-line base followed by a dash and one or two digits splits
    there. *)
Lemma splitSuffix_complete (b ds : list ascii) :
  forallb any_match b = true ->
  oneOrTwoDigits (string_of_list_ascii ds) = true ->
  splitSuffix (b ++ "-"%char :: ds) = Some (b, ds).
Proof.
  intros Hb Hds. induction b as [|a b IH].
  - cbn [app splitSuffix]. change (any_match "-") with true. cbv iota.
    rewrite (splitSuffix_digits ds Hds), (suffixDigits_dash ds Hds). reflexivity.
  - cbn [forallb] in Hb. apply andb_true_iff in Hb. destruct Hb as [Ha Hb].
    cbn [app splitSuffix]. rewrite Ha, (IH Hb). reflexivity.
Qed.

Lemma suffixDigits_sound (l ds : list ascii) :
  suffixDigits l = Some ds ->
  l = "-"%char :: ds /\ oneOrTwoDigits (string_of_list_ascii ds) = true.
Proof.
  destruct l as [|dash [|d1 [|d2 [|d3 l]]]]; cbn [suffixDigits]; try discriminate.
  - destruct (Ascii.eqb_spec dash "-") as [->|]; [|discriminate]. cbn [andb].
    destruct (Chars.is_digit d1) eqn:H1; [|discriminate]. intros [= <-].
    split; [reflexivity | exact H1].
  - destruct (Ascii.eqb_spec dash "-") as [->|]; [|discriminate]. cbn [andb].
    destruct (Chars.is_digit d1) eqn:H1; [|discriminate].
    destruct (Chars.is_digit d2) eqn:H2; [|discriminate]. intros [= <-].
    split; [reflexivity|]. cbn [string_of_list_ascii oneOrTwoDigits]. now rewrite H1, H2.
Qed.

Lemma splitSuffix_sound (l : list ascii) :
  forall b ds,
    splitSuffix l = Some (b, ds) ->
    l = b ++ "-"%char :: ds /\ forallb any_match b = true
    /\ oneOrTwoDigits (string_of_list_ascii ds) = true.
Proof.
  induction l as [|a l IH]; intros b ds; cbn [splitSuffix]; [discriminate|].
  destruct (any_match a) eqn:Ha.
  - destruct (splitSuffix l) as [[b' ds']|] eqn:Hs.
    + intros [= <- <-]. destruct (IH b' ds' eq_refl) as [Hl [Hb Hd]].
      repeat split; [now rewrite Hl | cbn [forallb]; now rewrite Ha, Hb | assumption].
    + destruct (suffixDigits (a :: l)) as [ds'|] eqn:Hd; [|discriminate].
      intros [= <- <-]. apply suffixDigits_sound in Hd. destruct Hd as [Hl Hd].
      now repeat split.
  - destruct (suffixDigits (a :: l)) as [ds'|] eqn:Hd; [|discriminate].
    intros [= <- <-]. apply suffixDigits_sound in Hd. destruct Hd as [Hl Hd].
    now repeat split.
Qed.

Lemma string_of_chars_of_string (s : string) :
  string_of_list_ascii (list_ascii_of_string s) = s.
Proof. apply string_of_list_ascii_of_string. Qed.

End SlugFacts.

(** C1 (counterexample).  The slug [-2] consists of the duplicate suffix
    alone: the remaining base is empty, and the suffix is stripped all the
    same. *)
Lemma strip_suffix_counterexample :
  Slug.stripWpDuplicateSuffix "-2" = ""%string
  /\ Slug.stripWpDuplicateSuffix "-2" <> "-2"%string.
Proof. split; [reflexivity | discriminate]. Qed.

(** C1 (amended).  [stripWpDuplicateSuffix] removes a trailing [-n] written
    with one or two decimal digits exactly when [2 <= n <= 99] and the
    base in front of it has no line terminator -- the base may be empty --
    and otherwise returns the slug unchanged; in particular it maps
    [project-2] and [project-99] to [project] and leaves [project-1],
    [project-100] and [project] as they are. *)
Theorem strip_suffix_spec :
  forall slug : string,
    (forall (base ds : string) (n : Z),
        slug = (base ++ "-" ++ ds)%string ->
        singleLine base = true -> oneOrTwoDigits ds = true ->
        Slug.Number ds = Some n ->
        Slug.stripWpDuplicateSuffix slug
        = if (2 <=? n)%Z && (n <=? 99)%Z then base else slug)
    /\ ((forall base ds : string,
            slug = (base ++ "-" ++ ds)%string ->
            singleLine base = true -> oneOrTwoDigits ds = false) ->
        Slug.stripWpDuplicateSuffix slug = slug)
    /\ map Slug.stripWpDuplicateSuffix
         ["project-2"; "project-99"; "project-1"; "project-100"; "project"]%string
       = ["project"; "project"; "project-1"; "project-100"; "project"]%string.
Proof.
  intros slug. split; [|split].
  - intros base ds n Hslug Hbase Hds Hn.
    rewrite strip_by_splitSuffix. subst slug.
    change (base ++ "-" ++ ds)%string with (base ++ String "-" ds)%string.
    rewrite chars_app. cbn [list_ascii_of_string].
    rewrite splitSuffix_complete;
      [| exact Hbase | now rewrite string_of_chars_of_string].
    rewrite !string_of_chars_of_string, Hn.
    destruct (Z.ltb_spec n 2), (Z.leb_spec 2 n); try lia;
      destruct (Z.gtb_spec n 99), (Z.leb_spec n 99); try lia; reflexivity.
  - intros Hnone. rewrite strip_by_splitSuffix.
    destruct (splitSuffix (list_ascii_of_string slug)) as [[b ds]|] eqn:Hs; [|reflexivity].
    apply splitSuffix_sound in Hs. destruct Hs as [Hl [Hb Hd]].
    exfalso.
    assert (Hfalse : oneOrTwoDigits (string_of_list_ascii ds) = false).
    { apply (Hnone (string_of_list_ascii b)).
      - rewrite <- (string_of_chars_of_string slug), Hl.
        rewrite string_of_chars_app. reflexivity.
      - unfold singleLine. now rewrite list_ascii_of_string_of_list_ascii. }
    congruence.
  - reflexivity.
Qed.

Lemma strip_suffix_spec_witness :
  Slug.stripWpDuplicateSuffix "summer-campaign-17" = "summer-campaign"%string
  /\ Slug.stripWpDuplicateSuffix "page" = "page"%string.
Proof.
  split.
  - apply (proj1 (strip_suffix_spec "summer-campaign-17")
             "summer-campaign"%string "17"%string 17%Z); reflexivity.
  - apply (proj1 (proj2 (strip_suffix_spec "page"))).
    intros base ds Hslug _. exfalso.
    do 4 (destruct base as [|? base]; [discriminate|]; injection Hslug as _ Hslug).
    destruct base; discriminate.
Defined.

(** ** Rich-text sanitiser: idempotence *)

Section NoMatchFacts.

Import Re.

Variable P : ascii -> bool.

Lemma free_cons (a : ascii) (l : list ascii) : free P (a :: l) -> free P l.
Proof. intros H b Hb. apply H. now right. Qed.

(** A pattern that requires a character of a kind the input does not have
    is found nowhere in it. *)
Lemma search_free (fl : flags) (r : regex) (aft : list ascii) :
  requires fl P r = true -> free P aft ->
  forall bef, search fl r bef aft = None.
Proof.
  intros Hreq. induction aft as [|a aft IH]; intros Hf bef; cbn [search]; unfold match_here.
  - now rewrite (requires_fails fl P r Hreq).
  - rewrite (requires_fails fl P r Hreq) by exact Hf.
    rewrite IH; [reflexivity | now apply (free_cons a)].
Qed.



Lemma replace_first_free (fl : flags) (r : regex) (f : result -> string) (s : string) :
  requires fl P r = true -> free P (list_ascii_of_string s) -> replace_first fl r f s = s.
Proof.
  intros Hreq Hf. unfold replace_first. now rewrite (search_free fl r _ Hreq Hf).
Qed.





End NoMatchFacts.

Section PlainFacts.




Lemma last_cons (A : Type) (l : list A) :
  forall a b : A, last (b :: l) a = last l b.
Proof.
  induction l as [|c l IH]; intros a b; [reflexivity|].
  change (last (b :: c :: l) a) with (last (c :: l) a). now rewrite !IH.
Qed.

Lemma trimEnd_cons (a : ascii) (s : string) :
  Str.trimEnd (String a s)
  = match Str.trimEnd s with
    | EmptyString => if Chars.is_space a then EmptyString else String a EmptyString
    | String b t => String a (String b t)
    end.
Proof. reflexivity. Qed.

Lemma trimEnd_last (l : list ascii) (a : ascii) :
  Chars.is_space (last l a) = false ->
  Str.trimEnd (string_of_list_ascii (a :: l)) = string_of_list_ascii (a :: l).
Proof.
  revert a. induction l as [|b l IH]; intros a H.
  - cbn in *. now rewrite H.
  - change (string_of_list_ascii (a :: b :: l))
      with (String a (string_of_list_ascii (b :: l))).
    rewrite trimEnd_cons, (IH b); [reflexivity|].
    now rewrite <- (last_cons _ l a b).
Qed.


End PlainFacts.

Section SanitiserFacts.

Import Re RichText.

Variable e : env.








End SanitiserFacts.

(** On the input of the counterexample the sanitiser consults neither the
    site addresses nor the URL parser. *)
Lemma sanitizer_not_idempotent (e : RichText.env) :
  RichText.sanitize e (Some "**Note:** use &lt;div&gt; tags"%string)
  = Some "**Note:** use <div> tags"%string
  /\ RichText.sanitize e (RichText.sanitize e (Some "**Note:** use &lt;div&gt; tags"%string))
     = Some "**Note:** use  tags"%string.
Proof. split; vm_compute; reflexivity. Qed.




(** ** Rich-text sanitiser: recovery of flattened tables *)

Section StepFacts.

Import Re.

Lemma step_chr fl c a l bef cs k :
  chr_match fl c a = true ->
  m fl (Chr c) k {| before := bef; after := a :: l; caps := cs |}
  = k {| before := a :: bef; after := l; caps := cs |}.
Proof. intros H. rewrite m_Chr. unfold step_if. cbn [after]. now rewrite H. Qed.

Lemma stop_chr fl c a l bef cs k :
  chr_match fl c a = false ->
  m fl (Chr c) k {| before := bef; after := a :: l; caps := cs |} = None.
Proof. intros H. rewrite m_Chr. unfold step_if. cbn [after]. now rewrite H. Qed.



Lemma consumed_app (x y : mstate) (c : list ascii) :
  before y = rev c ++ before x -> consumed x y = c.
Proof.
  intros H. unfold consumed, pos. rewrite H, length_app, length_rev.
  replace (length c + length (before x) - length (before x)) with (length (rev c))
    by (rewrite length_rev; lia).
  rewrite firstn_app, firstn_all, Nat.sub_diag. cbn [firstn].
  now rewrite app_nil_r, rev_involutive.
Qed.

End StepFacts.

Section ParagraphFacts.

Import Re RichText.










End ParagraphFacts.

Section PlainParagraphs.

Import Re RichText.





End PlainParagraphs.

Section RecoveryFacts.

Import Re RichText.


Lemma substring_none (n : nat) (s : string) : substring n 0 s = ""%string.
Proof.
  revert n. induction s as [|a s IH]; intros [|n]; try reflexivity. apply IH.
Qed.






















(** *** The recovered table has no paragraph left *)













End RecoveryFacts.




(** ** Slug de-duplication: the survivor rule on dated records *)

Section SurvivorFacts.

Import Slug.

Variable T : Type.
Variable slug : T -> string.
Variable date : T -> option string.
Variable id : T -> option Z.
Variable Date_parse : string -> option Z.

Local Notation "'pick'" := (pickPreferredBySlug T slug date id Date_parse).
Local Notation "'step'" := (dedupeStep T slug date id Date_parse).
Local Notation "'key' x" := (stripWpDuplicateSuffix (slug x)) (at level 10, x at level 9).

Local Notation "'dated'" := (hasDateAndId T date id Date_parse).
Local Notation "'beats'" := (survivesOver T slug date id Date_parse).
Local Notation "'represented'" := (representedIn T slug date id Date_parse).

Lemma beats_refl (a : T) (d i : Z) : dated a d i -> beats a a.
Proof.
  intros H. exists d, i, d, i. repeat split; try apply H.
  right. split; [reflexivity|]. right. split; [reflexivity | lia].
Qed.

Lemma beats_trans (a b c : T) : beats a b -> beats b c -> beats a c.
Proof.
  intros (da & ia & db & ib & [Ha1 Ha2] & [Hb1 Hb2] & Hab)
         (db' & ib' & dc & ic & [Hb1' Hb2'] & [Hc1 Hc2] & Hbc).
  rewrite Hb1 in Hb1'. rewrite Hb2 in Hb2'. injection Hb1' as <-. injection Hb2' as <-.
  exists da, ia, dc, ic. repeat split; try assumption.
  unfold atLeastAsGood in *.
  destruct Hab as [[H1 H2]|[H1 H2]], Hbc as [[H3 H4]|[H3 H4]].
  - congruence.
  - left. split; congruence.
  - left. split; congruence.
  - right. split; [congruence | lia].
Qed.

(** Between two records with timestamps and identifiers the comparator
    returns one that is at least as good as both. *)
Lemma pick_is_best (a b : T) (da ia db ib : Z) :
  dated a da ia -> dated b db ib ->
  (pick a b = a \/ pick a b = b) /\ beats (pick a b) a /\ beats (pick a b) b.
Proof.
  intros [Ha1 Ha2] [Hb1 Hb2].
  assert (Haa : beats a a) by (apply (beats_refl a da ia); now split).
  assert (Hbb : beats b b) by (apply (beats_refl b db ib); now split).
  unfold pickPreferredBySlug. rewrite Ha1, Hb1, Ha2, Hb2.
  destruct (isWpDuplicateSlug (slug a)) eqn:Hda, (isWpDuplicateSlug (slug b)) eqn:Hdb;
    cbn [Bool.eqb negb].
  - destruct (Z.eqb_spec da db) as [Hd|Hd]; cbn [negb].
    + destruct (Z.eqb_spec ia ib) as [Hi|Hi]; cbn [negb].
      * split; [now left|]. split; [assumption|].
        exists da, ia, db, ib. repeat split; try assumption.
        right. rewrite Hda, Hdb. split; [reflexivity|]. right. split; [assumption | lia].
      * destruct (ia >? ib)%Z eqn:Hgt.
        -- apply Z.gtb_lt in Hgt. split; [now left|]. split; [assumption|].
           exists da, ia, db, ib. repeat split; try assumption.
           right. rewrite Hda, Hdb. split; [reflexivity|]. right. split; [assumption | lia].
        -- rewrite Z.gtb_ltb in Hgt. apply Z.ltb_ge in Hgt.
           split; [now right|]. split; [|assumption].
           exists db, ib, da, ia. repeat split; try assumption.
           right. rewrite Hda, Hdb. split; [reflexivity|]. right. split; [congruence | lia].
    + destruct (da >? db)%Z eqn:Hgt.
      * apply Z.gtb_lt in Hgt. split; [now left|]. split; [assumption|].
        exists da, ia, db, ib. repeat split; try assumption.
        right. rewrite Hda, Hdb. split; [reflexivity|]. left. lia.
      * rewrite Z.gtb_ltb in Hgt. apply Z.ltb_ge in Hgt.
        split; [now right|]. split; [|assumption].
        exists db, ib, da, ia. repeat split; try assumption.
        right. rewrite Hda, Hdb. split; [reflexivity|]. left. lia.
  - split; [now right|]. split; [|assumption].
    exists db, ib, da, ia. repeat split; try assumption. left. now split.
  - split; [now left|]. split; [assumption|].
    exists da, ia, db, ib. repeat split; try assumption. left. now split.
  - destruct (Z.eqb_spec da db) as [Hd|Hd]; cbn [negb].
    + destruct (Z.eqb_spec ia ib) as [Hi|Hi]; cbn [negb].
      * split; [now left|]. split; [assumption|].
        exists da, ia, db, ib. repeat split; try assumption.
        right. rewrite Hda, Hdb. split; [reflexivity|]. right. split; [assumption | lia].
      * destruct (ia >? ib)%Z eqn:Hgt.
        -- apply Z.gtb_lt in Hgt. split; [now left|]. split; [assumption|].
           exists da, ia, db, ib. repeat split; try assumption.
           right. rewrite Hda, Hdb. split; [reflexivity|]. right. split; [assumption | lia].
        -- rewrite Z.gtb_ltb in Hgt. apply Z.ltb_ge in Hgt.
           split; [now right|]. split; [|assumption].
           exists db, ib, da, ia. repeat split; try assumption.
           right. rewrite Hda, Hdb. split; [reflexivity|]. right. split; [congruence | lia].
    + destruct (da >? db)%Z eqn:Hgt.
      * apply Z.gtb_lt in Hgt. split; [now left|]. split; [assumption|].
        exists da, ia, db, ib. repeat split; try assumption.
        right. rewrite Hda, Hdb. split; [reflexivity|]. left. lia.
      * rewrite Z.gtb_ltb in Hgt. apply Z.ltb_ge in Hgt.
        split; [now right|]. split; [|assumption].
        exists db, ib, da, ia. repeat split; try assumption.
        right. rewrite Hda, Hdb. split; [reflexivity|]. left. lia.
Qed.

Lemma map_set_keeps_others (k k' : string) (v w : T) (mp : list (string * T)) :
  In (k', v) mp -> k' <> k -> In (k', v) (map_set T k w mp).
Proof.
  intros Hin Hne. induction mp as [|[k0 x] mp IH]; [contradiction|].
  cbn [map_set]. destruct (String.eqb_spec k0 k) as [->|Hk].
  - destruct Hin as [[= <- <-]|Hin]; [congruence | now right].
  - destruct Hin as [Heq|Hin]; [now left | right; now apply IH].
Qed.

Lemma map_set_has (k : string) (w : T) (mp : list (string * T)) :
  In (k, w) (map_set T k w mp).
Proof.
  induction mp as [|[k0 x] mp IH]; [now left|].
  cbn [map_set]. destruct (String.eqb_spec k0 k) as [->|Hk]; [now left | now right].
Qed.

Lemma map_get_unique (k : string) (v : T) (mp : list (string * T)) :
  NoDup (map fst mp) -> In (k, v) mp -> map_get T k mp = Some v.
Proof.
  induction mp as [|[k0 x] mp IH]; intros Hnd Hin; [contradiction|].
  cbn [map fst] in Hnd. inversion Hnd as [|? ? Hnotin Hnd']; subst.
  cbn [map_get]. destruct Hin as [[= -> ->]|Hin].
  - now rewrite String.eqb_refl.
  - destruct (String.eqb_spec k0 k) as [->|Hk]; [|now apply IH].
    exfalso. apply Hnotin. apply (in_map fst) in Hin. exact Hin.
Qed.

Lemma dedupe_step_represented (items seen : list T) (mp : list (string * T)) (item : T) :
  (forall x, In x items -> exists d i, dated x d i) ->
  In item items ->
  dedupeInvariant T slug items mp ->
  represented seen mp ->
  represented (seen ++ [item]) (step mp item).
Proof.
  intros Hdated Hitem [Hnd Hvals] Hrep x Hx.
  destruct (Hdated item Hitem) as (di & ii & Hdi).
  unfold dedupeStep.
  destruct (map_get T (key item) mp) as [existing|] eqn:Hget.
  - assert (Hex := map_get_some T _ _ _ Hget).
    destruct (Hvals _ Hex) as [_ Hexin]. cbn [snd] in Hexin.
    destruct (Hdated existing Hexin) as (de & ie & Hde).
    destruct (pick_is_best existing item de ie di ii Hde Hdi) as (_ & Hb1 & Hb2).
    apply in_app_or in Hx. destruct Hx as [Hx|[<-|[]]].
    + destruct (Hrep x Hx) as (v & Hin & Hbv).
      destruct (string_dec (key x) (key item)) as [Heq|Hne].
      * exists (pick existing item). split; [rewrite Heq; apply map_set_has|].
        rewrite Heq in Hin. rewrite (map_get_unique _ _ _ Hnd Hin) in Hget.
        injection Hget as ->. now apply (beats_trans _ existing).
      * exists v. split; [now apply map_set_keeps_others | assumption].
    + exists (pick existing item). split; [apply map_set_has | assumption].
  - apply in_app_or in Hx. destruct Hx as [Hx|[<-|[]]].
    + destruct (Hrep x Hx) as (v & Hin & Hbv). exists v. split; [|assumption].
      apply map_set_keeps_others; [assumption|].
      intros Heq. apply (map_get_none T Date_parse (key item) mp Hget). rewrite <- Heq.
      apply (in_map fst) in Hin. exact Hin.
    + exists item. split; [apply map_set_has | now apply (beats_refl item di ii)].
Qed.

Lemma dedupe_fold_represented (items : list T) :
  (forall x, In x items -> exists d i, dated x d i) ->
  forall (todo seen : list T) (mp : list (string * T)),
    (forall x, In x todo -> In x items) ->
    dedupeInvariant T slug items mp ->
    represented seen mp ->
    represented (seen ++ todo) (fold_left step todo mp).
Proof.
  intros Hdated. induction todo as [|x todo IH]; intros seen mp Hsub Hinv Hrep.
  - now rewrite app_nil_r.
  - cbn [fold_left].
    replace (seen ++ x :: todo) with ((seen ++ [x]) ++ todo)
      by (now rewrite <- app_assoc).
    apply IH.
    + intros y Hy. apply Hsub. now right.
    + apply (dedupe_step_inv T slug date id Date_parse); [apply Hsub; now left | assumption].
    + apply (dedupe_step_represented items); try assumption. apply Hsub. now left.
Qed.

(** When every record has a timestamp that parses and a numeric
    identifier, the comparator does select the survivors the rule
    describes: every input record is represented in the result by a record
    of its base slug that is at least as good. *)
Lemma dedupe_survivor_is_best (items : list T) :
  (forall x, In x items -> exists d i, dated x d i) ->
  forall x, In x items ->
    exists v, In v (dedupeBySlug T slug date id Date_parse items)
              /\ key v = key x /\ beats v x.
Proof.
  intros Hdated x Hx.
  assert (Hinv : dedupeInvariant T slug items (fold_left step items [])).
  { apply (dedupe_fold_inv T slug date id Date_parse items items []); [auto|].
    split; [constructor | intros kv []]. }
  assert (Hrep : represented ([] ++ items) (fold_left step items [])).
  { apply (dedupe_fold_represented items Hdated items [] []); [auto | | intros y []].
    split; [constructor | intros kv []]. }
  destruct (Hrep x Hx) as (v & Hin & Hbv). exists v. repeat split; [| |assumption].
  - unfold dedupeBySlug. apply (in_map snd) in Hin. exact Hin.
  - destruct Hinv as [_ Hvals]. now destruct (Hvals _ Hin) as [Hk _].
Qed.

End SurvivorFacts.

(** ** Bounded retry: back-off *)

Section BackoffFacts.

Import Retry.

Context {E T : Type}.
Variable fn : nat -> E + T.
Variables maxRetries delay : Z.


End BackoffFacts.






(** ** Media downloader: effort and file names *)

Section EffortFacts.

Import Retry Download.

Lemma loop_ext (E T : Type) (fn fn' : nat -> E + T) (maxRetries delay : Z) :
  (forall n, fn n = fn' n) ->
  forall n attempt calls,
    loop fn maxRetries delay n attempt calls = loop fn' maxRetries delay n attempt calls.
Proof.
  intros Hext. induction n as [|n IH]; intros attempt calls; simpl.
  - reflexivity.
  - rewrite Hext. destruct (attempt <=? maxRetries)%Z; [|reflexivity].
    destruct (fn' calls); [|reflexivity].
    destruct (attempt =? maxRetries)%Z; [reflexivity|]. now rewrite IH.
Qed.

Lemma calls_of_app (tr tr' : list event) :
  calls_of (tr ++ tr') = calls_of tr + calls_of tr'.
Proof. unfold calls_of. now rewrite filter_app, length_app. Qed.

Lemma processImage_calls (dryRun : bool)
  (axios_get : nat -> string -> error + response)
  (axios_post : nat -> image -> error + option Z) (url : string) :
  calls_of (fst (processImage dryRun axios_get axios_post url)) <= 3.
Proof.
  unfold processImage. destruct (Str.isEmpty url); [cbn; lia|].
  unfold retry. cbn [or_default opt_maxRetries opt_delay].
  destruct (loop_calls_bounded (processAttempt dryRun axios_get axios_post url)
              3%Z 1000%Z (Z.to_nat 3) 1%Z 0) as (Hc & _); try lia.
  destruct (loop (processAttempt dryRun axios_get axios_post url) 3 1000 (Z.to_nat 3) 1 0)
    as [tr out].
  cbn [fst] in *. destruct out; cbn [fst]; change (Z.to_nat 3) with 3 in Hc; lia.
Qed.

Lemma downloadImage_rejects (axios_get : string -> error + response) (url : string) (e : error) :
  axios_get url = inl e -> isNotFound e = false -> downloadImage axios_get url = inl e.
Proof. intros H Hn. unfold downloadImage. rewrite H. cbv beta iota zeta. now rewrite Hn. Qed.

End EffortFacts.

(** X3.  [processImage] never tries an address more than three times and
    never throws: when each of the three attempts to download fails with
    an error other than a 404, it sleeps 1000 ms and 2000 ms between them
    and returns [null]; an empty address is answered with [null] without
    any attempt. *)
Theorem process_image_gives_up_quietly :
  forall (dryRun : bool)
         (axios_get : nat -> string -> Download.error + Download.response)
         (axios_post : nat -> Download.image -> Download.error + option Z)
         (url : string),
    Retry.calls_of (fst (Download.processImage dryRun axios_get axios_post url)) <= 3
    /\ Download.processImage dryRun axios_get axios_post ""%string = ([], None)
    /\ (forall e : nat -> Download.error,
           url <> ""%string ->
           (forall n, n < 3 -> axios_get n url = inl (e n)
                               /\ Download.isNotFound (e n) = false) ->
           snd (Download.processImage dryRun axios_get axios_post url) = None
           /\ Retry.calls_of (fst (Download.processImage dryRun axios_get axios_post url)) = 3
           /\ Retry.delays_of (fst (Download.processImage dryRun axios_get axios_post url))
              = [1000; 2000]%Z).
Proof.
  intros dryRun axios_get axios_post url. split; [apply processImage_calls|].
  split; [reflexivity|].
  intros e Hurl Hfail. unfold Download.processImage.
  destruct url as [|c url]; [congruence|]. cbn [Str.isEmpty].
  assert (Hatt : forall n, n < 3 ->
             Download.processAttempt dryRun axios_get axios_post (String c url) n
             = inl (e n)).
  { intros n Hn. unfold Download.processAttempt.
    destruct (Hfail n Hn) as [Hg Hnf].
    now rewrite (downloadImage_rejects (axios_get n) _ (e n) Hg Hnf). }
  unfold Retry.retry. cbn [Retry.or_default Retry.opt_maxRetries Retry.opt_delay].
  change (Z.to_nat 3) with 3. simpl Retry.loop.
  rewrite (Hatt 0), (Hatt 1), (Hatt 2) by lia. simpl. repeat split.
Qed.

Lemma process_image_gives_up_quietly_witness :
  snd (Download.processImage false
         (fun _ _ => inl (Download.HttpError (Some 503)))
         (fun _ _ => inr (Some 7%Z)) "https://cdn.example.com/a.png") = None
  /\ Retry.calls_of
       (fst (Download.processImage false
               (fun _ _ => inl (Download.HttpError (Some 503)))
               (fun _ _ => inr (Some 7%Z)) "https://cdn.example.com/a.png")) = 3
  /\ Retry.delays_of
       (fst (Download.processImage false
               (fun _ _ => inl (Download.HttpError (Some 503)))
               (fun _ _ => inr (Some 7%Z)) "https://cdn.example.com/a.png"))
     = [1000; 2000]%Z.
Proof.
  apply (proj2 (proj2 (process_image_gives_up_quietly false
                         (fun _ _ => inl (Download.HttpError (Some 503)))
                         (fun _ _ => inr (Some 7%Z)) "https://cdn.example.com/a.png"))
           (fun _ => Download.HttpError (Some 503))).
  - discriminate.
  - intros n _. split; reflexivity.
Defined.

(** X4.  In a dry run [processImage] posts nothing: its trace and result
    do not depend on what an upload would answer, and the identifier it
    returns is [null] or the dummy [-1]. *)
Theorem dry_run_uploads_nothing :
  forall (axios_get : nat -> string -> Download.error + Download.response)
         (axios_post axios_post' : nat -> Download.image -> Download.error + option Z)
         (url : string),
    Download.processImage true axios_get axios_post url
    = Download.processImage true axios_get axios_post' url
    /\ (snd (Download.processImage true axios_get axios_post url) = None
        \/ snd (Download.processImage true axios_get axios_post url) = Some (-1)%Z).
Proof.
  intros axios_get axios_post axios_post' url.
  assert (Hext : forall n,
             Download.processAttempt true axios_get axios_post url n
             = Download.processAttempt true axios_get axios_post' url n).
  { intros n. unfold Download.processAttempt.
    destruct (Download.downloadImage (axios_get n) url) as [e|[img|]]; reflexivity. }
  assert (Hval : forall n v,
             Download.processAttempt true axios_get axios_post url n = inr v ->
             v = None \/ v = Some (-1)%Z).
  { intros n v. unfold Download.processAttempt.
    destruct (Download.downloadImage (axios_get n) url) as [e|[img|]];
      cbn [Download.uploadToStrapi]; intros H; inversion H; auto. }
  split.
  - unfold Download.processImage. destruct (Str.isEmpty url); [reflexivity|].
    unfold Retry.retry. now rewrite (loop_ext _ _ _ _ 3%Z 1000%Z Hext).
  - unfold Download.processImage. destruct (Str.isEmpty url); [now left|].
    unfold Retry.retry. cbn [Retry.or_default Retry.opt_maxRetries Retry.opt_delay].
    change (Z.to_nat 3) with 3. simpl Retry.loop.
    destruct (Download.processAttempt true axios_get axios_post url 0) as [e0|v0] eqn:H0;
      [|cbn; now apply (Hval 0)].
    destruct (Download.processAttempt true axios_get axios_post url 1) as [e1|v1] eqn:H1;
      [|cbn; now apply (Hval 1)].
    destruct (Download.processAttempt true axios_get axios_post url 2) as [e2|v2] eqn:H2;
      [cbn; now left | cbn; now apply (Hval 2)].
Qed.

Section GalleryFacts.

Import Retry Download Gallery.

Variable dryRun : bool.
Variable axios_get : nat -> nat -> string -> error + response.
Variable axios_post : nat -> nat -> image -> error + option Z.

Lemma processGalleryFrom_bounds (urls : list string) :
  forall i,
    length (snd (processGalleryFrom dryRun axios_get axios_post i urls)) <= length urls
    /\ calls_of (fst (processGalleryFrom dryRun axios_get axios_post i urls))
       <= 3 * length urls.
Proof.
  induction urls as [|url urls IH]; intros i; cbn [processGalleryFrom].
  - cbn. lia.
  - assert (Hc := processImage_calls dryRun (axios_get i) (axios_post i) url).
    destruct (processImage dryRun (axios_get i) (axios_post i) url) as [tr id].
    specialize (IH (S i)).
    destruct (processGalleryFrom dryRun axios_get axios_post (S i) urls) as [tr' ids].
    cbn [fst snd] in *. rewrite calls_of_app. destruct IH as [Hl Hk].
    destruct id; cbn [length]; lia.
Qed.

(** The images of a gallery are processed independently of each other. *)
Lemma processGalleryFrom_app (us vs : list string) :
  forall i,
    processGalleryFrom dryRun axios_get axios_post i (us ++ vs)
    = (fst (processGalleryFrom dryRun axios_get axios_post i us)
         ++ fst (processGalleryFrom dryRun axios_get axios_post (i + length us) vs),
       snd (processGalleryFrom dryRun axios_get axios_post i us)
         ++ snd (processGalleryFrom dryRun axios_get axios_post (i + length us) vs)).
Proof.
  induction us as [|u us IH]; intros i.
  - cbn [app length processGalleryFrom fst snd]. rewrite Nat.add_0_r.
    now destruct (processGalleryFrom dryRun axios_get axios_post i vs).
  - cbn [app length processGalleryFrom].
    destruct (processImage dryRun (axios_get i) (axios_post i) u) as [tr id].
    rewrite (IH (S i)). replace (S i + length us) with (i + S (length us)) by lia.
    destruct (processGalleryFrom dryRun axios_get axios_post (S i) us) as [tr1 ids1].
    destruct (processGalleryFrom dryRun axios_get axios_post (i + S (length us)) vs)
      as [tr2 ids2].
    cbn [fst snd]. rewrite app_assoc. now destruct id.
Qed.

End GalleryFacts.

(** X5.  [processGallery] returns at most one identifier per address, in
    the order of the addresses, after at most three download attempts per
    address; an image that cannot be processed is left out and does not
    stop the ones behind it: the result for a list is the result for its
    front followed by the result for its back. *)
Theorem gallery_skips_failures :
  forall (dryRun : bool)
         (axios_get : nat -> nat -> string -> Download.error + Download.response)
         (axios_post : nat -> nat -> Download.image -> Download.error + option Z)
         (us vs : list string),
    length (snd (Gallery.processGallery dryRun axios_get axios_post us)) <= length us
    /\ Retry.calls_of (fst (Gallery.processGallery dryRun axios_get axios_post us))
       <= 3 * length us
    /\ snd (Gallery.processGallery dryRun axios_get axios_post (us ++ vs))
       = snd (Gallery.processGallery dryRun axios_get axios_post us)
           ++ snd (Gallery.processGalleryFrom dryRun axios_get axios_post (length us) vs)
    /\ (forall url : string,
           snd (Gallery.processGallery dryRun axios_get axios_post [url])
           = match snd (Download.processImage dryRun (axios_get 0) (axios_post 0) url) with
             | Some id => [id]
             | None => []
             end).
Proof.
  intros dryRun axios_get axios_post us vs. unfold Gallery.processGallery.
  destruct (processGalleryFrom_bounds dryRun axios_get axios_post us 0) as [Hl Hc].
  split; [exact Hl|]. split; [exact Hc|]. split.
  - rewrite processGalleryFrom_app. reflexivity.
  - intros url. cbn [Gallery.processGalleryFrom].
    destruct (Download.processImage dryRun (axios_get 0) (axios_post 0) url) as [tr id].
    now destruct id.
Qed.

Section FileNameFacts.

Import Chars Download.

Lemma prefix_app (p s : string) : prefix p (p ++ s) = true.
Proof.
  induction p as [|a p IH]; cbn [prefix append]; [now destruct s|].
  destruct (ascii_dec a a); [exact IH | congruence].
Qed.

Lemma prefix_refl (s : string) : prefix s s = true.
Proof.
  induction s as [|a s IH]; cbn [prefix]; [reflexivity|].
  destruct (ascii_dec a a); [exact IH | congruence].
Qed.

Lemma includes_prefix (p s : string) : prefix p s = true -> Str.includes p s = true.
Proof. intros H. destruct s; cbn [Str.includes]; now rewrite H. Qed.

(** What is put behind something that occurs still occurs. *)
Lemma includes_app_r (p s t : string) : Str.includes p (s ++ p ++ t) = true.
Proof.
  induction s as [|a s IH].
  - change (""%string ++ p ++ t)%string with (p ++ t)%string.
    apply includes_prefix, prefix_app.
  - cbn [append Str.includes]. rewrite IH. apply orb_true_r.
Qed.

Lemma includes_app_l (p s t : string) :
  Str.includes p s = true -> Str.includes p (s ++ t) = true.
Proof.
  induction s as [|a s IH]; cbn [Str.includes append].
  - rewrite orb_false_r. intros H. destruct p; [|discriminate]. now destruct t.
  - intros H. apply orb_true_iff in H. destruct H as [H|H].
    + assert (Hp : prefix p (String a s ++ t) = true).
      { clear IH. revert H. generalize (String a s). clear a s.
        induction p as [|c p IHp]; intros s H; [now destruct (s ++ t)%string|].
        destruct s as [|b s]; [discriminate|]. cbn [prefix append] in *.
        destruct (ascii_dec c b); [now apply IHp | discriminate]. }
      cbn [append] in Hp. now rewrite Hp.
    + rewrite (IH H). apply orb_true_r.
Qed.

Lemma ascii_of_code (a : ascii) : ascii_of_N (N.of_nat (code a)) = a.
Proof.
  unfold code, nat_of_ascii. rewrite Nnat.N2Nat.id. apply ascii_N_embedding.
Qed.

Lemma code_small (a : ascii) : (N.of_nat (code a) <? 256)%N = true.
Proof.
  apply N.ltb_lt. assert (H := nat_ascii_bounded a). unfold code. lia.
Qed.

Lemma safeUnit_safe (u : N) : safeChar (safeUnit u) = true.
Proof.
  unfold safeUnit.
  destruct ((u <? 256)%N
            && (is_alnum (ascii_of_N u) || Ascii.eqb (ascii_of_N u) "."
                || Ascii.eqb (ascii_of_N u) "_" || Ascii.eqb (ascii_of_N u) "-")) eqn:H.
  - apply andb_true_iff in H. destruct H as [_ H]. exact H.
  - reflexivity.
Qed.

Lemma safeUnit_keeps (a : ascii) :
  safeChar a = true -> safeUnit (N.of_nat (code a)) = a.
Proof.
  intros H. unfold safeUnit. rewrite code_small, ascii_of_code. cbn [andb].
  unfold safeChar in H. now rewrite H.
Qed.

Lemma cleanFilename_safe (units : list N) : safeName (cleanFilename units) = true.
Proof.
  unfold safeName, cleanFilename. rewrite list_ascii_of_string_of_list_ascii.
  apply forallb_forall. intros a Ha. apply in_map_iff in Ha.
  destruct Ha as (u & <- & _). apply safeUnit_safe.
Qed.

Lemma cleanFilename_length (units : list N) :
  String.length (cleanFilename units) = length units.
Proof.
  unfold cleanFilename. rewrite <- chars_length, list_ascii_of_string_of_list_ascii.
  apply length_map.
Qed.

Lemma cleanFilename_keeps (s : string) :
  safeName s = true -> cleanFilename (units_of s) = s.
Proof.
  unfold safeName, cleanFilename, units_of. rewrite map_map.
  rewrite <- (string_of_list_ascii_of_string s) at 3.
  induction (list_ascii_of_string s) as [|a l IH]; intros H; [reflexivity|].
  cbn [forallb] in H. apply andb_true_iff in H. destruct H as [Ha Hl].
  cbn [map string_of_list_ascii]. rewrite (safeUnit_keeps a Ha). f_equal. now apply IH.
Qed.

(** Without a percent sign there is nothing to decode. *)
Lemma decodeLoop_plain (l : list ascii) :
  (forall a, In a l -> a <> "%"%char) ->
  forall n, length l <= n ->
    decodeLoop n l = Some (map (fun a => N.of_nat (code a)) l).
Proof.
  induction l as [|c l IH]; intros H n Hn; [now destruct n|].
  destruct n as [|n]; [cbn in Hn; lia|]. cbn [decodeLoop].
  destruct (Ascii.eqb_spec c "%") as [->|_].
  - exfalso. apply (H "%"%char); [now left | reflexivity].
  - rewrite IH; [reflexivity | | cbn in Hn; lia].
    intros a Ha. apply H. now right.
Qed.

Lemma safeName_no_percent (s : string) :
  safeName s = true -> forall a, In a (list_ascii_of_string s) -> a <> "%"%char.
Proof.
  unfold safeName. intros H a Ha ->. rewrite forallb_forall in H.
  specialize (H _ Ha). discriminate.
Qed.

Lemma decode_safeName (s : string) :
  safeName s = true -> decodeURIComponent s = Some (units_of s).
Proof.
  intros H. unfold decodeURIComponent, units_of.
  apply decodeLoop_plain; [now apply safeName_no_percent|].
  rewrite chars_length. lia.
Qed.

End FileNameFacts.

(** X6.  Every file name [downloadImage] returns contains a dot, and it
    starts with the cleaned last segment of the address: as many
    characters as the decoded segment has code units, each of them a
    letter, a digit, a dot, an underscore or a hyphen. *)
Theorem downloaded_file_name_is_clean :
  forall (axios_get : string -> Download.error + Download.response)
         (url : string) (img : Download.image),
    Download.downloadImage axios_get url = inr (Some img) ->
    Str.includes "." (Download.filename img) = true
    /\ exists units,
         Download.decodeURIComponent (Download.rawFilename url) = Some units
         /\ prefix (Download.cleanFilename units) (Download.filename img) = true
         /\ safeName (Download.cleanFilename units) = true
         /\ String.length (Download.cleanFilename units) = length units.
Proof.
  intros axios_get url img. unfold Download.downloadImage.
  destruct (axios_get url) as [e|resp].
  - destruct (Download.isNotFound e); discriminate.
  - destruct (Download.decodeURIComponent (Download.rawFilename url)) as [units|] eqn:Hd;
      [|cbn; discriminate].
    intros H. injection H as <-. cbn [Download.filename].
    unfold Download.ensureExtension.
    destruct (Str.includes "." (Download.cleanFilename units)) eqn:Hdot; cbn [negb].
    + split; [exact Hdot|]. exists units. split; [reflexivity|].
      split; [|split; [apply cleanFilename_safe | apply cleanFilename_length]].
      apply prefix_refl.
    + split; [apply includes_app_r|]. exists units. split; [reflexivity|].
      split; [apply prefix_app|].
      split; [apply cleanFilename_safe | apply cleanFilename_length].
Qed.

Lemma downloaded_file_name_is_clean_witness :
  Str.includes "."
    (Download.filename
       {| Download.buffer := "bytes"; Download.filename := "my_photo.webp";
          Download.contentType := "image/webp" |}) = true
  /\ exists units,
       Download.decodeURIComponent
         (Download.rawFilename "https://cdn.example.com/media/my%20photo?size=large")
       = Some units
       /\ prefix (Download.cleanFilename units)
            (Download.filename
               {| Download.buffer := "bytes"; Download.filename := "my_photo.webp";
                  Download.contentType := "image/webp" |}) = true
       /\ safeName (Download.cleanFilename units) = true
       /\ String.length (Download.cleanFilename units) = length units.
Proof.
  apply (downloaded_file_name_is_clean
           (fun _ => inr {| Download.data := "bytes";
                            Download.contentTypeHeader := Some "image/webp"%string |})
           "https://cdn.example.com/media/my%20photo?size=large"
           {| Download.buffer := "bytes"; Download.filename := "my_photo.webp";
              Download.contentType := "image/webp" |}).
  reflexivity.
Defined.

(** X7.  An address whose last segment is already a clean file name with
    a dot (letters, digits, dots, underscores and hyphens only, no query
    string) keeps that name: [downloadImage] neither rewrites it nor adds
    an extension, whatever content type the response declares. *)
Theorem clean_file_name_is_kept :
  forall (axios_get : string -> Download.error + Download.response)
         (url : string) (resp : Download.response),
    axios_get url = inr resp ->
    safeName (Download.rawFilename url) = true ->
    Str.includes "." (Download.rawFilename url) = true ->
    Download.downloadImage axios_get url
    = inr (Some {| Download.buffer := Download.data resp;
                   Download.filename := Download.rawFilename url;
                   Download.contentType :=
                     Download.orElse (Download.contentTypeHeader resp) "image/jpeg" |}).
Proof.
  intros axios_get url resp Hget Hsafe Hdot. unfold Download.downloadImage.
  rewrite Hget, (decode_safeName _ Hsafe). cbv beta iota zeta.
  unfold Download.ensureExtension.
  rewrite (cleanFilename_keeps _ Hsafe), Hdot. reflexivity.
Qed.

Lemma clean_file_name_is_kept_witness :
  Download.downloadImage
    (fun _ => inr {| Download.data := "bytes";
                     Download.contentTypeHeader := Some "application/octet-stream"%string |})
    "https://cdn.example.com/media/team-photo_2024.JPG"
  = inr (Some {| Download.buffer := "bytes";
                 Download.filename := "team-photo_2024.JPG";
                 Download.contentType := "application/octet-stream" |}).
Proof.
  apply (clean_file_name_is_kept
           (fun _ => inr {| Download.data := "bytes";
                            Download.contentTypeHeader := Some "application/octet-stream"%string |})
           "https://cdn.example.com/media/team-photo_2024.JPG"
           {| Download.data := "bytes";
              Download.contentTypeHeader := Some "application/octet-stream"%string |});
    reflexivity.
Defined.

(** ** Slug de-duplication: what the result keeps *)

Section OrderFacts.

Import Slug.

Variable T : Type.
Variable slug : T -> string.
Variable date : T -> option string.
Variable id : T -> option Z.
Variable Date_parse : string -> option Z.

Local Notation "'step'" := (dedupeStep T slug date id Date_parse).
Local Notation "'dedupe'" := (dedupeBySlug T slug date id Date_parse).
Local Notation "'key' x" := (stripWpDuplicateSuffix (slug x)) (at level 10, x at level 9).

Lemma dedupeStep_keys (mp : list (string * T)) (item : T) :
  map fst (step mp item) = addKey (map fst mp) (key item).
Proof.
  unfold dedupeStep, addKey.
  destruct (map_get T (key item) mp); now rewrite map_set_keys.
Qed.

Lemma dedupe_fold_keys (items : list T) :
  forall mp,
    map fst (fold_left step items mp)
    = fold_left addKey (map (fun x => key x) items) (map fst mp).
Proof.
  induction items as [|x items IH]; intros mp; cbn [fold_left map]; [reflexivity|].
  now rewrite IH, dedupeStep_keys.
Qed.

Lemma addKey_keeps (acc : list string) (k k' : string) :
  In k' acc -> In k' (addKey acc k).
Proof.
  intros H. unfold addKey. destruct (in_dec string_dec k acc); [assumption|].
  apply in_or_app. now left.
Qed.

Lemma addKey_has (acc : list string) (k : string) : In k (addKey acc k).
Proof.
  unfold addKey. destruct (in_dec string_dec k acc); [assumption|].
  apply in_or_app. right. now left.
Qed.

Lemma fold_addKey_keeps (keys : list string) :
  forall acc k, In k acc -> In k (fold_left addKey keys acc).
Proof.
  induction keys as [|k' keys IH]; intros acc k H; cbn [fold_left]; [assumption|].
  apply IH. now apply addKey_keeps.
Qed.

Lemma fold_addKey_has (keys : list string) :
  forall acc k, In k keys -> In k (fold_left addKey keys acc).
Proof.
  induction keys as [|k' keys IH]; intros acc k H; [contradiction|].
  cbn [fold_left]. destruct H as [->|H].
  - apply fold_addKey_keeps, addKey_has.
  - now apply IH.
Qed.

Lemma fold_addKey_length (keys : list string) :
  forall acc, length (fold_left addKey keys acc) <= length acc + length keys.
Proof.
  induction keys as [|k keys IH]; intros acc; cbn [fold_left length]; [lia|].
  specialize (IH (addKey acc k)). unfold addKey in *.
  destruct (in_dec string_dec k acc); [lia|].
  rewrite length_app in IH. cbn [length] in IH. lia.
Qed.

(** The keys of the result are the base slugs of the records. *)
Lemma dedupe_keys (items : list T) :
  map (fun x => key x) (dedupe items) = map fst (fold_left step items []).
Proof.
  unfold dedupeBySlug. rewrite map_map.
  destruct (dedupe_fold_inv T slug date id Date_parse items items []) as [_ Hvals].
  { auto. }
  { split; [constructor | intros kv []]. }
  apply map_ext_in. intros kv Hin. now apply Hvals.
Qed.

(** Distinct keys are all new to the map: each record is appended. *)
Lemma dedupe_fold_distinct (items : list T) :
  forall mp,
    NoDup (map fst mp ++ map (fun x => key x) items) ->
    fold_left step items mp = mp ++ map (fun x => (key x, x)) items.
Proof.
  induction items as [|x items IH]; intros mp Hnd; cbn [fold_left map].
  - now rewrite app_nil_r.
  - cbn [map] in Hnd.
    assert (Hnew : ~ In (key x) (map fst mp)).
    { intros Hin. apply NoDup_remove_2 in Hnd. apply Hnd.
      apply in_or_app. now left. }
    assert (Hstep : step mp x = mp ++ [(key x, x)]).
    { unfold dedupeStep.
      destruct (map_get T (key x) mp) as [existing|] eqn:Hget.
      - exfalso. apply Hnew. apply map_get_some in Hget.
        apply (in_map fst) in Hget. exact Hget.
      - clear Hget Hnd IH. induction mp as [|[k' y] mp IHmp]; [reflexivity|].
        cbn [map_set]. destruct (String.eqb_spec k' (key x)) as [Heq|Hne].
        + exfalso. apply Hnew. left. exact Heq.
        + cbn [app]. f_equal. apply IHmp. intros Hin. apply Hnew. now right. }
    rewrite Hstep, IH.
    + rewrite <- app_assoc. reflexivity.
    + rewrite map_app. cbn [map fst]. rewrite <- app_assoc. exact Hnd.
Qed.

Lemma dedupe_distinct_input (items : list T) :
  NoDup (map (fun x => key x) items) -> dedupe items = items.
Proof.
  intros Hnd. unfold dedupeBySlug. rewrite dedupe_fold_distinct by exact Hnd.
  cbn [app]. rewrite map_map. cbn [snd]. apply map_id.
Qed.

End OrderFacts.

(** X8.  [dedupeBySlug] keeps exactly one record per base slug: the base
    slugs of the result are pairwise distinct and are the base slugs of
    the input in the order of their first occurrence, so none is lost;
    every record of the result is a record of the input, and the result
    is no longer than the input. *)
Theorem dedupe_keeps_one_record_per_base_slug :
  forall (T : Type) (slug : T -> string) (date : T -> option string)
         (id : T -> option Z) (Date_parse : string -> option Z) (items : list T),
    let result := Slug.dedupeBySlug T slug date id Date_parse items in
    let key := fun x => Slug.stripWpDuplicateSuffix (slug x) in
    NoDup (map key result)
    /\ map key result = firstOccurrences (map key items)
    /\ (forall x, In x items -> exists v, In v result /\ key v = key x)
    /\ (forall v, In v result -> In v items)
    /\ length result <= length items.
Proof.
  intros T slug date id Date_parse items result key.
  destruct (dedupe_distinct_and_from_input T slug date id Date_parse items) as [Hnd Hin].
  assert (Hkeys : map key result = firstOccurrences (map key items)).
  { unfold result, key, firstOccurrences.
    rewrite dedupe_keys, dedupe_fold_keys. reflexivity. }
  split; [exact Hnd|]. split; [exact Hkeys|]. split; [|split; [exact Hin|]].
  - intros x Hx.
    assert (Hk : In (key x) (map key result)).
    { rewrite Hkeys. apply fold_addKey_has. now apply in_map. }
    apply in_map_iff in Hk. destruct Hk as (v & Hv & Hvin). now exists v.
  - rewrite <- (length_map key result), Hkeys.
    unfold firstOccurrences.
    assert (H := fold_addKey_length (map key items) []).
    cbn [length] in H. now rewrite length_map in H.
Qed.

(** X9.  A list whose base slugs are pairwise distinct already is left as
    it is, and so [dedupeBySlug] is idempotent: running it on its own
    result changes nothing. *)
Theorem dedupe_is_idempotent :
  forall (T : Type) (slug : T -> string) (date : T -> option string)
         (id : T -> option Z) (Date_parse : string -> option Z) (items : list T),
    (NoDup (map (fun x => Slug.stripWpDuplicateSuffix (slug x)) items) ->
     Slug.dedupeBySlug T slug date id Date_parse items = items)
    /\ Slug.dedupeBySlug T slug date id Date_parse
         (Slug.dedupeBySlug T slug date id Date_parse items)
       = Slug.dedupeBySlug T slug date id Date_parse items.
Proof.
  intros T slug date id Date_parse items. split.
  - apply dedupe_distinct_input.
  - apply dedupe_distinct_input.
    apply (dedupe_distinct_and_from_input T slug date id Date_parse items).
Qed.

Lemma dedupe_is_idempotent_witness :
  Slug.dedupeBySlug Slug.post Slug.post_slug Slug.post_date
    (fun p => Some (Slug.post_id p)) (fun _ => None)
    [ {| Slug.post_id := 4; Slug.post_slug := "annual-report"; Slug.post_date := None |};
      {| Slug.post_id := 9; Slug.post_slug := "brand-refresh-2"; Slug.post_date := None |} ]
  = [ {| Slug.post_id := 4; Slug.post_slug := "annual-report"; Slug.post_date := None |};
      {| Slug.post_id := 9; Slug.post_slug := "brand-refresh-2"; Slug.post_date := None |} ].
Proof.
  apply (proj1 (dedupe_is_idempotent Slug.post Slug.post_slug Slug.post_date
                  (fun p => Some (Slug.post_id p)) (fun _ => None)
                  [ {| Slug.post_id := 4; Slug.post_slug := "annual-report";
                       Slug.post_date := None |};
                    {| Slug.post_id := 9; Slug.post_slug := "brand-refresh-2";
                       Slug.post_date := None |} ])).
  vm_compute. repeat constructor; simpl; intuition discriminate.
Defined.

(** X10.  When every record carries a [date] that [Date.parse] reads and
    a numeric [id], the survivor of each base slug is at least as good as
    every input record of that base slug: a record whose slug is not a
    duplicate beats a duplicate one, then the later date wins, then the
    higher identifier. *)
Theorem dedupe_survivor_is_the_preferred_record :
  forall (T : Type) (slug : T -> string) (date : T -> option string)
         (id : T -> option Z) (Date_parse : string -> option Z) (items : list T),
    (forall x, In x items -> exists d i, hasDateAndId T date id Date_parse x d i) ->
    forall x, In x items ->
      exists v, In v (Slug.dedupeBySlug T slug date id Date_parse items)
                /\ Slug.stripWpDuplicateSuffix (slug v) = Slug.stripWpDuplicateSuffix (slug x)
                /\ survivesOver T slug date id Date_parse v x.
Proof.
  intros T slug date id Date_parse items Hdated x Hx.
  now apply dedupe_survivor_is_best.
Qed.

Lemma dedupe_survivor_is_the_preferred_record_witness :
  exists v,
    In v (Slug.dedupeBySlug Slug.post Slug.post_slug Slug.post_date
            (fun p => Some (Slug.post_id p)) Slug.Number
            [ {| Slug.post_id := 10; Slug.post_slug := "case-study-2";
                 Slug.post_date := Some "20240601" |};
              {| Slug.post_id := 11; Slug.post_slug := "case-study-3";
                 Slug.post_date := Some "20200115" |} ])
    /\ Slug.stripWpDuplicateSuffix (Slug.post_slug v)
       = Slug.stripWpDuplicateSuffix
           (Slug.post_slug {| Slug.post_id := 11; Slug.post_slug := "case-study-3";
                              Slug.post_date := Some "20200115" |})
    /\ survivesOver Slug.post Slug.post_slug Slug.post_date
         (fun p => Some (Slug.post_id p)) Slug.Number v
         {| Slug.post_id := 11; Slug.post_slug := "case-study-3";
            Slug.post_date := Some "20200115" |}.
Proof.
  apply (dedupe_survivor_is_the_preferred_record Slug.post Slug.post_slug Slug.post_date
           (fun p => Some (Slug.post_id p)) Slug.Number
           [ {| Slug.post_id := 10; Slug.post_slug := "case-study-2";
                Slug.post_date := Some "20240601" |};
             {| Slug.post_id := 11; Slug.post_slug := "case-study-3";
                Slug.post_date := Some "20200115" |} ]).
  - intros x [<-|[<-|[]]].
    + exists 20240601%Z, 10%Z. split; reflexivity.
    + exists 20200115%Z, 11%Z. split; reflexivity.
  - right. now left.
Defined.

(** X11.  [stripWpDuplicateSuffix] removes nothing but a trailing hyphen
    with one or two digits: the result is the slug itself, or the slug is
    the result followed by [-] and one or two digits whose value lies
    between 2 and 99; so the result is a prefix of the slug and at most
    three characters shorter. *)
Theorem strip_removes_only_a_numeric_suffix :
  forall slug : string,
    (Slug.stripWpDuplicateSuffix slug = slug
     \/ exists (ds : string) (n : Z),
          slug = (Slug.stripWpDuplicateSuffix slug ++ "-" ++ ds)%string
          /\ oneOrTwoDigits ds = true
          /\ Slug.Number ds = Some n /\ (2 <= n <= 99)%Z)
    /\ prefix (Slug.stripWpDuplicateSuffix slug) slug = true
    /\ String.length slug - 3 <= String.length (Slug.stripWpDuplicateSuffix slug)
       <= String.length slug.
Proof.
  intros slug.
  assert (Hcases : Slug.stripWpDuplicateSuffix slug = slug
     \/ exists (ds : string) (n : Z),
          slug = (Slug.stripWpDuplicateSuffix slug ++ "-" ++ ds)%string
          /\ oneOrTwoDigits ds = true
          /\ Slug.Number ds = Some n /\ (2 <= n <= 99)%Z).
  { rewrite strip_by_splitSuffix.
    destruct (splitSuffix (list_ascii_of_string slug)) as [[b ds]|] eqn:Hs; [|now left].
    destruct (Slug.Number (string_of_list_ascii ds)) as [n|] eqn:Hn; [|now left].
    destruct ((n <? 2)%Z || (n >? 99)%Z) eqn:Hr; [now left|].
    right. exists (string_of_list_ascii ds), n.
    apply splitSuffix_sound in Hs. destruct Hs as (Hl & _ & Hd).
    apply orb_false_iff in Hr. destruct Hr as [H2 H99].
    apply Z.ltb_ge in H2. rewrite Z.gtb_ltb in H99. apply Z.ltb_ge in H99.
    repeat split; try assumption; try lia.
    rewrite <- (string_of_chars_of_string slug), Hl, string_of_chars_app. reflexivity. }
  split; [exact Hcases|].
  destruct Hcases as [->|(ds & n & Heq & Hd & _)].
  - split; [apply prefix_refl | lia].
  - split.
    + rewrite Heq at 2. apply prefix_app.
    + assert (Hlen : String.length slug
                     = String.length (Slug.stripWpDuplicateSuffix slug)
                       + S (String.length ds)).
      { rewrite Heq at 1. rewrite <- !chars_length, chars_app, length_app. reflexivity. }
      assert (Hds : String.length ds <= 2).
      { destruct ds as [|d1 [|d2 [|d3 ds]]]; cbn in *; try lia; discriminate. }
      lia.
Qed.

(** ** Global replacement and splitting with one-character patterns *)

Section ScanFacts.

Import Re.

Lemma replace_all_spliced (fl : flags) (r : regex) (f : result -> string) (s : string) :
  replace_all fl r f s = string_of_list_ascii (spliced f (scan_string fl r s)).
Proof. unfold replace_all, spliced. now destruct (scan_string fl r s). Qed.

Lemma spliced_skipped (f : result -> string) (a : ascii) r :
  spliced f (skipped a r) = a :: spliced f r.
Proof.
  destruct r as [[|[sk mr] ms] tail]; unfold skipped, spliced; cbn [fst snd flat_map app];
    reflexivity.
Qed.

Lemma search_here (fl : flags) (r : regex) (bef l : list ascii) (mr : result) :
  match_here fl r bef l = Some mr -> search fl r bef l = Some ([], mr).
Proof. intros H. destruct l; cbn [search]; now rewrite H. Qed.

Lemma search_miss (fl : flags) (r : regex) (bef l : list ascii) (a : ascii) :
  match_here fl r bef (a :: l) = None ->
  search fl r bef (a :: l)
  = match search fl r (a :: bef) l with
    | Some (sk, mr) => Some (a :: sk, mr)
    | None => None
    end.
Proof. intros H. cbn [search]. now rewrite H. Qed.

Lemma search_end (fl : flags) (r : regex) (bef : list ascii) :
  match_here fl r bef [] = None -> search fl r bef [] = None.
Proof. intros H. cbn [search]. now rewrite H. Qed.

(** Nothing matches at the first character: the scan goes on behind it. *)
Lemma scan_miss (fl : flags) (r : regex) (n : nat) (bef l : list ascii) (a : ascii) :
  match_here fl r bef (a :: l) = None ->
  scan (S n) fl r bef (a :: l) = skipped a (scan (S n) fl r (a :: bef) l).
Proof.
  intros H. cbn [scan]. rewrite (search_miss fl r bef l a H).
  destruct (search fl r (a :: bef) l) as [[sk mr]|]; [|reflexivity].
  destruct (Str.isEmpty (matched mr)).
  - destruct (rest mr) as [|b aft']; [reflexivity|].
    destruct (scan n fl r (b :: upto mr) aft') as [[|[sk' mr'] ms] tail]; reflexivity.
  - destruct (scan n fl r (upto mr) (rest mr)) as [ms tail]. reflexivity.
Qed.

(** A match that is not empty: the scan goes on behind it. *)
Lemma scan_hit (fl : flags) (r : regex) (n : nat) (bef l : list ascii) (mr : result) :
  match_here fl r bef l = Some mr -> Str.isEmpty (matched mr) = false ->
  scan (S n) fl r bef l
  = (([], mr) :: fst (scan n fl r (upto mr) (rest mr)),
     snd (scan n fl r (upto mr) (rest mr))).
Proof.
  intros H He. cbn [scan]. rewrite (search_here fl r bef l mr H), He.
  now destruct (scan n fl r (upto mr) (rest mr)).
Qed.

Lemma scan_end (fl : flags) (r : regex) (n : nat) (bef : list ascii) :
  match_here fl r bef [] = None -> scan n fl r bef [] = ([], []).
Proof. intros H. destruct n; [reflexivity|]. cbn [scan]. now rewrite (search_end fl r bef H). Qed.

Lemma spliced_hit (f : result -> string) (mr : result) r :
  spliced f (([], mr) :: fst r, snd r) = list_ascii_of_string (f mr) ++ spliced f r.
Proof. unfold spliced. cbn [fst snd flat_map app]. now rewrite <- app_assoc. Qed.

Section OneCharacter.

Variable fl : flags.
Variable r : regex.
Variable t : ascii -> bool.
Hypothesis Hsingle : single fl r t.

Lemma match_here_single (bef l : list ascii) :
  match_here fl r bef l
  = match l with
    | a :: l' =>
        if t a
        then Some {| index := length bef; matched := String a EmptyString; groups := [];
                     rest := l'; upto := a :: bef |}
        else None
    | [] => None
    end.
Proof.
  destruct Hsingle as [_ Hs]. unfold match_here. rewrite Hs. unfold step_if, start_state.
  cbn [after]. destruct l as [|a l']; [reflexivity|]. destruct (t a); [|reflexivity].
  unfold result_of, advance. cbn [before after caps pos].
  rewrite (consumed_app _ _ [a]); reflexivity.
Qed.

(** A global replacement of single characters by a fixed text. *)
Lemma scan_single (c : string) (l : list ascii) :
  forall n bef,
    length l < n ->
    spliced (fun _ => c) (scan n fl r bef l) = substitute t (list_ascii_of_string c) l.
Proof.
  induction l as [|a l IH]; intros n bef Hn.
  - rewrite scan_end; [reflexivity | now rewrite match_here_single].
  - destruct n as [|n]; [cbn in Hn; lia|]. cbn [length] in Hn.
    assert (Hm := match_here_single bef (a :: l)). cbn [substitute flat_map].
    destruct (t a) eqn:Hta; cbv iota in Hm; rewrite Hta in Hm.
    + rewrite (scan_hit _ _ _ _ _ _ Hm) by reflexivity. rewrite spliced_hit.
      cbn [upto rest]. rewrite IH by lia. reflexivity.
    + rewrite (scan_miss _ _ _ _ _ _ Hm), spliced_skipped, IH by lia. reflexivity.
Qed.

Lemma replace_all_single (c s : string) :
  replace_all fl r (fun _ => c) s
  = string_of_list_ascii (substitute t (list_ascii_of_string c) (list_ascii_of_string s)).
Proof.
  rewrite replace_all_spliced. unfold scan_string. rewrite scan_single; [reflexivity|].
  rewrite chars_length. lia.
Qed.

(** The greedy star of a one-character pattern takes the longest run. *)
Lemma star_single (l : list ascii) :
  forall bef cs,
    m fl (Quant r 0 None true) Some {| before := bef; after := l; caps := cs |}
    = Some {| before := rev (takeRun t l) ++ bef; after := dropRun t l; caps := cs |}.
Proof.
  induction l as [|a l IH]; intros bef cs;
    rewrite (quant_greedy fl r t None _ _ Hsingle); cbn [max_is_zero dec_max];
    unfold step_if; cbn [after].
  - reflexivity.
  - cbn [takeRun dropRun]. destruct (t a); [|reflexivity].
    unfold advance. cbn [before caps]. rewrite IH. cbn [rev]. now rewrite <- app_assoc.
Qed.

Lemma match_here_plus (bef l : list ascii) :
  match_here fl (plus r) bef l
  = match l with
    | a :: l' =>
        if t a
        then Some {| index := length bef;
                     matched := string_of_list_ascii (a :: takeRun t l');
                     groups := [];
                     rest := dropRun t l';
                     upto := rev (takeRun t l') ++ a :: bef |}
        else None
    | [] => None
    end.
Proof.
  unfold match_here, plus, start_state.
  rewrite (quant_more fl r t 0 None true _ _ Hsingle). cbn [max_is_zero dec_max].
  unfold step_if. cbn [after]. destruct l as [|a l']; [reflexivity|].
  destruct (t a); [|reflexivity]. unfold advance. cbn [before caps].
  rewrite star_single. unfold result_of. cbn [before after caps pos].
  rewrite (consumed_app _ _ (a :: takeRun t l')); [reflexivity|].
  cbn [before rev]. now rewrite <- app_assoc.
Qed.

Lemma dropRun_length (l : list ascii) : length (dropRun t l) <= length l.
Proof.
  induction l as [|a l IH]; cbn [dropRun length]; [lia|]. destruct (t a); cbn [length]; lia.
Qed.

Lemma collapse_in_run (c : list ascii) (l : list ascii) :
  collapse t c true l = collapse t c false (dropRun t l).
Proof.
  induction l as [|a l IH]; cbn [collapse dropRun]; [reflexivity|].
  destruct (t a) eqn:Hta; [exact IH|]. cbn [collapse]. now rewrite Hta.
Qed.

(** A global replacement of runs of characters by a fixed text. *)
Lemma scan_plus (c : string) (bound : nat) :
  forall l, length l <= bound ->
  forall n bef,
    length l < n ->
    spliced (fun _ => c) (scan n fl (plus r) bef l)
    = collapse t (list_ascii_of_string c) false l.
Proof.
  induction bound as [|bound IH]; intros l Hb n bef Hn.
  - destruct l; [|cbn in Hb; lia].
    rewrite scan_end; [reflexivity | now rewrite match_here_plus].
  - destruct l as [|a l].
    + rewrite scan_end; [reflexivity | now rewrite match_here_plus].
    + destruct n as [|n]; [cbn in Hn; lia|]. cbn [length] in Hn, Hb.
      assert (Hm := match_here_plus bef (a :: l)). cbn [collapse].
      destruct (t a) eqn:Hta; cbv iota in Hm; rewrite Hta in Hm.
      * rewrite (scan_hit _ _ _ _ _ _ Hm) by reflexivity. rewrite spliced_hit.
        cbn [upto rest]. assert (Hd := dropRun_length l).
        rewrite IH by lia. now rewrite collapse_in_run.
      * rewrite (scan_miss _ _ _ _ _ _ Hm), spliced_skipped, IH by lia. reflexivity.
Qed.

Lemma replace_all_plus (c s : string) :
  replace_all fl (plus r) (fun _ => c) s
  = string_of_list_ascii (collapse t (list_ascii_of_string c) false (list_ascii_of_string s)).
Proof.
  rewrite replace_all_spliced. unfold scan_string.
  rewrite (scan_plus c (length (list_ascii_of_string s))); [reflexivity | lia |].
  rewrite chars_length. lia.
Qed.

Lemma pieces_in_run (l : list ascii) :
  pieces t [] true l = pieces t [] false (dropRun t l).
Proof.
  induction l as [|a l IH]; cbn [pieces dropRun]; [reflexivity|].
  destruct (t a) eqn:Hta; [exact IH|]. cbn [pieces]. now rewrite Hta.
Qed.

(** Splitting at the runs of characters. *)
Lemma split_loop_plus (bound : nat) :
  forall l, length l <= bound ->
  forall n bef piece,
    length l < n ->
    split_loop n fl (plus r) bef piece l = pieces t piece false l.
Proof.
  induction bound as [|bound IH]; intros l Hb n bef piece Hn.
  - destruct l; [|cbn in Hb; lia]. destruct n; [lia|]. reflexivity.
  - destruct l as [|a l]; [destruct n; [lia|]; reflexivity|].
    destruct n as [|n]; [cbn in Hn; lia|]. cbn [length] in Hn, Hb.
    cbn [split_loop pieces]. rewrite match_here_plus.
    destruct (t a) eqn:Hta.
    + cbn [matched Str.isEmpty string_of_list_ascii upto rest]. rewrite andb_false_r.
      assert (Hd := dropRun_length l). rewrite IH by lia. now rewrite pieces_in_run.
    + apply IH; lia.
Qed.

Lemma split_plus (s : string) :
  split fl (plus r) s = pieces t [] false (list_ascii_of_string s).
Proof.
  unfold split. destruct s as [|a s].
  - rewrite match_here_plus. reflexivity.
  - apply (split_loop_plus (length (list_ascii_of_string (String a s)))); [lia|].
    rewrite chars_length. lia.
Qed.

End OneCharacter.

End ScanFacts.

(** ** Escaping and decoding of entities *)

Section EscapeFacts.

Import Re RichText.

Lemma substitute_cons (t : ascii -> bool) (c : list ascii) (a : ascii) (l : list ascii) :
  substitute t c (a :: l) = (if t a then c else [a]) ++ substitute t c l.
Proof. reflexivity. Qed.

Lemma substitute_app (t : ascii -> bool) (c : list ascii) (l1 l2 : list ascii) :
  substitute t c (l1 ++ l2) = substitute t c l1 ++ substitute t c l2.
Proof. unfold substitute. apply flat_map_app. Qed.

Lemma escapeHtml_chars (text : string) :
  escapeHtml text = string_of_list_ascii (flat_map escapeChar (list_ascii_of_string text)).
Proof.
  unfold escapeHtml, RichText.const.
  rewrite (replace_all_single plain _ _ (single_chr plain "'")).
  rewrite (replace_all_single plain _ _ (single_chr plain Str.dquote)).
  rewrite list_ascii_of_string_of_list_ascii.
  rewrite (replace_all_single plain _ _ (single_chr plain ">")).
  rewrite list_ascii_of_string_of_list_ascii.
  rewrite (replace_all_single plain _ _ (single_chr plain "<")).
  rewrite list_ascii_of_string_of_list_ascii.
  rewrite (replace_all_single plain _ _ (single_chr plain "&")).
  rewrite list_ascii_of_string_of_list_ascii.
  f_equal.
  induction (list_ascii_of_string text) as [|a l IH]; [reflexivity|].
  rewrite substitute_cons, !substitute_app, IH. cbn [flat_map]. f_equal. clear.
  destruct a as [[] [] [] [] [] [] [] []]; reflexivity.
Qed.

Lemma escapeChar_no_markup (a b : ascii) : In b (escapeChar a) -> markupChar b = false.
Proof.
  destruct a as [[] [] [] [] [] [] [] []]; cbn;
    intros H; repeat (destruct H as [<-|H]; [reflexivity|]); contradiction.
Qed.

(** The pattern of [decodeHtmlEntities], spelled as the matcher runs it. *)
Lemma entity_matcher (k : mstate -> option mstate) (x : mstate) :
  m plain entity k x
  = m plain (Chr "&")
      (m plain (Group 1 (Alt (seq [Chr "#"; opt (Chr "x"); plus hexdigit]) (plus letter)))
         (m plain (Chr ";") k)) x.
Proof. reflexivity. Qed.

Lemma entity_miss (a : ascii) (bef l : list ascii) :
  chr_match plain "&" a = false -> match_here plain entity bef (a :: l) = None.
Proof.
  intros H. unfold match_here, start_state. rewrite entity_matcher.
  now rewrite stop_chr.
Qed.

Lemma entity_end (bef : list ascii) : match_here plain entity bef [] = None.
Proof. reflexivity. Qed.

(** A greedy run of one-character matches in front of a character that
    ends it. *)
Lemma plus_run (r : regex) (t : ascii -> bool) (k : mstate -> option mstate)
  (run : list ascii) (stop : ascii) :
  single plain r t -> t stop = false ->
  forall (z : mstate) (a : ascii) (l bef : list ascii) cs,
    forallb t (a :: run) = true ->
    k {| before := rev run ++ a :: bef; after := stop :: l; caps := cs |} = Some z ->
    m plain (plus r) k {| before := bef; after := a :: run ++ stop :: l; caps := cs |}
    = Some z.
Proof.
  intros Hs Hstop z a l bef cs Hall Hk. unfold plus.
  rewrite (quant_more plain r t 0 None true _ _ Hs). cbn [max_is_zero dec_max].
  cbn [forallb] in Hall. apply andb_true_iff in Hall. destruct Hall as [Ha Hrun].
  unfold step_if. cbn [after]. rewrite Ha. unfold advance. cbn [before caps].
  revert a bef Ha Hk. induction run as [|b run IH]; intros a bef Ha Hk;
    rewrite (quant_greedy plain r t None _ _ Hs); cbn [max_is_zero dec_max];
    unfold step_if; cbn [after app].
  - rewrite Hstop. exact Hk.
  - cbn [forallb] in Hrun. apply andb_true_iff in Hrun. destruct Hrun as [Hb Hrun].
    rewrite Hb. unfold advance. cbn [before caps].
    rewrite (IH Hrun b (a :: bef) Hb); [reflexivity|].
    cbn [rev] in Hk. now rewrite <- app_assoc in Hk.
Qed.

Lemma letter_test (a : ascii) :
  cls_match plain false [CRange "a" "z"; CRange "A" "Z"] a = Chars.is_alpha a.
Proof. destruct a as [[] [] [] [] [] [] [] []]; reflexivity. Qed.

(** A named reference [&name;] is matched where it stands, with the name
    as its group. *)
Lemma match_named (name : list ascii) (a : ascii) (bef rest : list ascii) :
  forallb Chars.is_alpha (a :: name) = true ->
  match_here plain entity bef ("&"%char :: a :: name ++ ";"%char :: rest)
  = Some {| index := length bef;
            matched := string_of_list_ascii ("&"%char :: a :: name ++ [";"%char]);
            groups := [(1, a :: name)];
            Re.rest := rest;
            upto := ";"%char :: rev name ++ a :: "&"%char :: bef |}.
Proof.
  intros Hall. unfold match_here, start_state. rewrite entity_matcher.
  rewrite step_chr by reflexivity. rewrite m_Group. cbn [m].
  assert (Ha : Chars.is_alpha a = true).
  { cbn [forallb] in Hall. now apply andb_true_iff in Hall. }
  assert (Hhash : chr_match plain "#" a = false).
  { destruct a as [[] [] [] [] [] [] [] []]; try reflexivity; discriminate. }
  change (m plain (seq [Chr "#"; opt (Chr "x"); plus hexdigit]))
    with (fun k => m plain (Chr "#") (m plain (Seq (opt (Chr "x")) (plus hexdigit)) k)).
  cbv beta. rewrite (stop_chr plain "#" a _ _ _ _ Hhash).
  change (m plain (Quant letter 1 None true)) with (m plain (plus letter)).
  rewrite (plus_run letter Chars.is_alpha _ name ";"
             ltac:(split; [reflexivity | intros k x; cbn [m letter];
                           unfold step_if; destruct (after x); [reflexivity|];
                           now rewrite letter_test])
             eq_refl
             {| before := ";"%char :: rev name ++ a :: "&"%char :: bef; after := rest;
                caps := [(1, a :: name)] |}).
  - unfold result_of. cbn [before after caps pos].
    rewrite (consumed_app _ _ ("&"%char :: a :: name ++ [";"%char])); [reflexivity|].
    cbn [before rev]. rewrite rev_app_distr. cbn [rev app]. now rewrite <- !app_assoc.
  - exact Hall.
  - cbn [before after caps].
    rewrite (consumed_app _ _ (a :: name)).
    + reflexivity.
    + cbn [before rev]. now rewrite <- app_assoc.
Qed.

(** The reference [&#39;] is matched where it stands. *)
Lemma match_apostrophe (bef rest : list ascii) :
  match_here plain entity bef (list_ascii_of_string "&#39;" ++ rest)
  = Some {| index := length bef;
            matched := "&#39;";
            groups := [(1, list_ascii_of_string "#39")];
            Re.rest := rest;
            upto := rev (list_ascii_of_string "&#39;") ++ bef |}.
Proof.
  unfold match_here, start_state. rewrite entity_matcher.
  cbn [list_ascii_of_string app].
  rewrite step_chr by reflexivity. rewrite m_Group. cbn [m].
  change (m plain (seq [Chr "#"; opt (Chr "x"); plus hexdigit]))
    with (fun k => m plain (Chr "#") (m plain (opt (Chr "x")) (m plain (plus hexdigit) k))).
  cbv beta. rewrite step_chr by reflexivity.
  unfold opt. rewrite (quant_greedy plain _ _ (Some 1) _ _ (single_chr plain "x")).
  cbn [max_is_zero dec_max]. unfold step_if at 1. cbn [after].
  change (chr_match plain "x" "3") with false. cbv iota.
  match goal with
  | |- context [m plain (plus hexdigit) ?k _] =>
      assert (Hrun := plus_run hexdigit
                        (cls_match plain false
                           [CRange "0" "9"; CRange "a" "f"; CRange "A" "F"])
                        k ["9"%char] ";" (single_cls plain false _) eq_refl
                        {| before := rev (list_ascii_of_string "&#39;") ++ bef;
                           after := rest;
                           caps := [(1, list_ascii_of_string "#39")] |}
                        "3"%char rest ("#"%char :: "&"%char :: bef) [] eq_refl)
  end.
  cbn [app rev] in Hrun. rewrite Hrun.
  - unfold result_of. cbn [before after caps pos].
    rewrite (consumed_app _ _ (list_ascii_of_string "&#39;")); reflexivity.
  - cbn [before after caps rev app].
    rewrite (consumed_app _ _ (list_ascii_of_string "#39")); reflexivity.
Qed.

(** One of the named references [escapeHtml] writes, where it stands. *)
Lemma match_escaped_name (name : string) (bef rest : list ascii) :
  In name ["amp"; "lt"; "gt"; "quot"]%string ->
  match_here plain entity bef
    (list_ascii_of_string ("&" ++ name ++ ";") ++ rest)
  = Some {| index := length bef;
            matched := ("&" ++ name ++ ";")%string;
            groups := [(1, list_ascii_of_string name)];
            Re.rest := rest;
            upto := rev (list_ascii_of_string ("&" ++ name ++ ";")) ++ bef |}.
Proof.
  intros [<-|[<-|[<-|[<-|[]]]]].
  - exact (match_named (list_ascii_of_string "mp") "a" bef rest eq_refl).
  - exact (match_named (list_ascii_of_string "t") "l" bef rest eq_refl).
  - exact (match_named (list_ascii_of_string "t") "g" bef rest eq_refl).
  - exact (match_named (list_ascii_of_string "uot") "q" bef rest eq_refl).
Qed.

Lemma decode_escaped (l : list ascii) :
  forall n bef,
    length (flat_map escapeChar l) < n ->
    spliced decodeEntity (scan n plain entity bef (flat_map escapeChar l)) = l.
Proof.
  induction l as [|a l IH]; intros n bef Hn.
  - rewrite scan_end; [reflexivity | apply entity_end].
  - destruct n as [|n]; [lia|].
    cbn [flat_map] in *. rewrite length_app in Hn.
    assert (Hnamed : forall name c,
               In name ["amp"; "lt"; "gt"; "quot"]%string ->
               decodeEntity
                 {| index := length bef;
                    matched := ("&" ++ name ++ ";")%string;
                    groups := [(1, list_ascii_of_string name)];
                    Re.rest := flat_map escapeChar l;
                    upto := rev (list_ascii_of_string ("&" ++ name ++ ";")) ++ bef |}
               = String c EmptyString ->
               length (flat_map escapeChar l) < n ->
               spliced decodeEntity
                 (scan (S n) plain entity bef
                    (list_ascii_of_string ("&" ++ name ++ ";") ++ flat_map escapeChar l))
               = c :: l).
    { intros name c Hin Hdec Hlen.
      rewrite (scan_hit plain entity n bef _ _ (match_escaped_name name bef _ Hin)).
      - rewrite spliced_hit, Hdec. cbn [upto Re.rest]. rewrite IH by lia. reflexivity.
      - cbn [matched]. repeat (destruct Hin as [<-|Hin]; [reflexivity|]). contradiction. }
    set (tail := flat_map escapeChar l) in *. clearbody tail.
    unfold escapeChar in *.
    destruct (Ascii.eqb_spec a "&") as [->|Hamp];
      [|destruct (Ascii.eqb_spec a "<") as [->|Hlt];
        [|destruct (Ascii.eqb_spec a ">") as [->|Hgt];
          [|destruct (Ascii.eqb_spec a Str.dquote) as [->|Hdq];
            [|destruct (Ascii.eqb_spec a "'") as [->|Hap]]]]];
      cbn [length list_ascii_of_string Nat.add] in Hn.
    + apply (Hnamed "amp"%string); [cbn; tauto | reflexivity | lia].
    + apply (Hnamed "lt"%string); [cbn; tauto | reflexivity | lia].
    + apply (Hnamed "gt"%string); [cbn; tauto | reflexivity | lia].
    + apply (Hnamed "quot"%string); [cbn; tauto | reflexivity | lia].
    + rewrite (scan_hit plain entity n bef _ _ (match_apostrophe bef _)) by reflexivity.
      rewrite spliced_hit. cbn [upto Re.rest]. rewrite IH by lia. reflexivity.
    + cbn [app]. rewrite scan_miss.
      * rewrite spliced_skipped, IH by lia. reflexivity.
      * apply entity_miss. unfold chr_match, items_have. cbn [existsb item_has ignoreCase plain].
        rewrite !orb_false_r. now apply Ascii.eqb_neq.
Qed.

End EscapeFacts.

(** X12.  [escapeHtml] leaves none of the characters [<], [>], the double
    quote and the apostrophe in its output, and [decodeHtmlEntities] undoes
    it: decoding the escaped form of a text gives the text back. *)
Theorem escape_then_decode_is_identity :
  forall text : string,
    RichText.decodeHtmlEntities (RichText.escapeHtml text) = text
    /\ forallb (fun a => negb (markupChar a))
         (list_ascii_of_string (RichText.escapeHtml text)) = true.
Proof.
  intros text. rewrite escapeHtml_chars. split.
  - unfold RichText.decodeHtmlEntities. rewrite replace_all_spliced. unfold Re.scan_string.
    rewrite list_ascii_of_string_of_list_ascii, decode_escaped.
    + apply string_of_list_ascii_of_string.
    + rewrite <- (list_ascii_of_string_of_list_ascii (flat_map escapeChar _)) at 1.
      rewrite chars_length. lia.
  - rewrite list_ascii_of_string_of_list_ascii. apply forallb_forall. intros b Hb.
    apply in_flat_map in Hb. destruct Hb as (a & _ & Hb).
    now rewrite (escapeChar_no_markup a b Hb).
Qed.

(** ** Tag slugs *)

Section TagSlugFacts.

Import Re Tags.

Lemma chr_match_plain (c a : ascii) : chr_match plain c a = Ascii.eqb a c.
Proof.
  unfold chr_match, items_have. cbn [existsb item_has ignoreCase plain andb].
  now rewrite !orb_false_r.
Qed.

Lemma match_here_edgeDash (bef l : list ascii) :
  match_here plain edgeDash bef l
  = match l with
    | a :: l' =>
        if isDash a && (is_nil bef || is_nil l')
        then Some {| index := length bef; matched := String a EmptyString;
                     groups := [(1, [a])]; rest := l'; upto := a :: bef |}
        else None
    | [] => None
    end.
Proof.
  unfold match_here, start_state, edgeDash. rewrite m_Group. cbn [m].
  unfold step_if. cbn [before after is_nil multiline plain andb orb].
  destruct l as [|a l'].
  - cbn [after]. destruct (is_nil bef); cbn [orb]; reflexivity.
  - rewrite !orb_false_r. unfold isDash. rewrite <- (chr_match_plain "-" a).
    destruct (chr_match plain "-" a) eqn:Hd; cbn [andb].
    + destruct (is_nil bef) eqn:Hb; cbn [orb after].
      * unfold advance. cbn [before after caps].
        rewrite (consumed_app _ _ [a]) by reflexivity.
        unfold result_of. cbn [before after caps pos].
        rewrite (consumed_app _ _ [a]) by reflexivity. reflexivity.
      * unfold advance. cbn [before after caps is_nil].
        destruct l' as [|b l'']; cbn [is_nil orb]; [|reflexivity].
        rewrite (consumed_app _ _ [a]) by reflexivity.
        unfold result_of. cbn [before after caps pos].
        rewrite (consumed_app _ _ [a]) by reflexivity. reflexivity.
    + destruct (is_nil bef); cbn [orb after]; reflexivity.
Qed.

Lemma dropLastDash_cons (a b : ascii) (l : list ascii) :
  dropLastDash (a :: b :: l) = a :: dropLastDash (b :: l).
Proof. reflexivity. Qed.

(** Behind the first character only a hyphen at the very end matches. *)
Lemma scan_edgeDash_inside (l : list ascii) :
  forall n bef,
    is_nil bef = false -> length l < n ->
    spliced (fun _ => ""%string) (scan n plain edgeDash bef l) = dropLastDash l.
Proof.
  induction l as [|a l IH]; intros n bef Hb Hn.
  - rewrite scan_end; [reflexivity | now rewrite match_here_edgeDash].
  - destruct n as [|n]; [cbn in Hn; lia|]. cbn [length] in Hn.
    assert (Hm := match_here_edgeDash bef (a :: l)). cbv iota in Hm. rewrite Hb in Hm.
    cbn [orb] in Hm.
    destruct l as [|b l].
    + cbn [is_nil dropLastDash] in *. rewrite andb_true_r in Hm.
      destruct (isDash a) eqn:Hd.
      * rewrite (scan_hit _ _ _ _ _ _ Hm) by reflexivity. rewrite spliced_hit.
        cbn [upto rest]. rewrite scan_end; [reflexivity | now rewrite match_here_edgeDash].
      * rewrite (scan_miss _ _ _ _ _ _ Hm), spliced_skipped.
        rewrite scan_end; [reflexivity | now rewrite match_here_edgeDash].
    + cbn [is_nil] in Hm. rewrite andb_false_r in Hm.
      rewrite (scan_miss _ _ _ _ _ _ Hm), spliced_skipped, IH; [reflexivity | reflexivity | lia].
Qed.

Lemma dropLastDash_keep (a : ascii) (l : list ascii) :
  isDash a = false -> a :: dropLastDash l = dropLastDash (a :: l).
Proof. intros H. destruct l as [|b l]; cbn [dropLastDash]; [now rewrite H | reflexivity]. Qed.

Lemma replace_all_edgeDash (s : string) :
  replace_all plain edgeDash (fun _ => ""%string) s
  = string_of_list_ascii (trimDashes (list_ascii_of_string s)).
Proof.
  rewrite replace_all_spliced. unfold scan_string. f_equal.
  assert (Hlen : length (list_ascii_of_string s) < S (String.length s))
    by (rewrite chars_length; lia).
  destruct (list_ascii_of_string s) as [|a l].
  - rewrite scan_end; [reflexivity | now rewrite match_here_edgeDash].
  - cbn [length] in Hlen.
    assert (Hm := match_here_edgeDash [] (a :: l)). cbv iota in Hm.
    cbn [is_nil orb] in Hm. rewrite andb_true_r in Hm. cbn [trimDashes].
    destruct (isDash a) eqn:Hd.
    + rewrite (scan_hit _ _ _ _ _ _ Hm) by reflexivity. rewrite spliced_hit.
      cbn [upto rest]. rewrite scan_edgeDash_inside; [reflexivity | reflexivity | lia].
    + rewrite (scan_miss _ _ _ _ _ _ Hm), spliced_skipped.
      rewrite scan_edgeDash_inside; [now apply dropLastDash_keep | reflexivity | lia].
Qed.

Lemma chars_toLowerCase (s : string) :
  list_ascii_of_string (Str.toLowerCase s) = map Chars.to_lower (list_ascii_of_string s).
Proof. induction s as [|a s IH]; cbn; [reflexivity | now rewrite IH]. Qed.

(** [slugifyTag] without the matcher. *)
Lemma slugifyTag_chars (tag : string) :
  slugifyTag tag
  = string_of_list_ascii
      (trimDashes
         (collapse nonSlugTest ["-"%char] false
            (substitute quoteTest []
               (map Chars.to_lower (list_ascii_of_string (Str.trim tag)))))).
Proof.
  unfold slugifyTag. rewrite replace_all_edgeDash. unfold nonSlugRun.
  rewrite (replace_all_plus plain _ _ (single_cls plain true _)).
  rewrite list_ascii_of_string_of_list_ascii. unfold quoteMarks.
  rewrite (replace_all_single plain _ _ (single_cls plain false _)).
  rewrite list_ascii_of_string_of_list_ascii, chars_toLowerCase. reflexivity.
Qed.

Lemma nonSlug_dash (a : ascii) : isDash a = true -> nonSlugTest a = true.
Proof. unfold isDash. intros H. apply Ascii.eqb_eq in H. now subst. Qed.

Lemma slug_or_not (a : ascii) :
  nonSlugTest a = false -> slugChar a = true /\ isDash a = false.
Proof. destruct a as [[] [] [] [] [] [] [] []]; cbn; intros H; try discriminate; now split. Qed.

Lemma slug_keeps (a : ascii) :
  slugChar a = true -> isDash a = false ->
  nonSlugTest a = false /\ quoteTest a = false /\ Chars.to_lower a = a
  /\ Chars.is_space a = false.
Proof.
  destruct a as [[] [] [] [] [] [] [] []]; cbn; intros H1 H2;
    try discriminate; repeat split.
Qed.

Lemma dash_keeps (a : ascii) :
  isDash a = true -> quoteTest a = false /\ Chars.to_lower a = a /\ Chars.is_space a = false.
Proof.
  unfold isDash. intros H. apply Ascii.eqb_eq in H. subst. repeat split.
Qed.

(** Collapsing the runs leaves slug characters, no two hyphens in a row;
    inside a run the output does not start with a hyphen. *)
Lemma collapse_shape (l : list ascii) :
  (forallb slugChar (collapse nonSlugTest ["-"%char] false l) = true
   /\ noDashPair (collapse nonSlugTest ["-"%char] false l) = true)
  /\ (forallb slugChar (collapse nonSlugTest ["-"%char] true l) = true
      /\ noDashPair (collapse nonSlugTest ["-"%char] true l) = true
      /\ startsWithDash (collapse nonSlugTest ["-"%char] true l) = false).
Proof.
  induction l as [|a l [[IH1 IH2] [IH3 [IH4 IH5]]]]; [repeat split|].
  cbn [collapse]. destruct (nonSlugTest a) eqn:Ht.
  - split; [|repeat split; assumption].
    cbn [app forallb noDashPair]. rewrite IH3, IH4.
    destruct (collapse nonSlugTest ["-"%char] true l) as [|b o] eqn:Ho; [now split|].
    cbn [startsWithDash] in IH5. rewrite IH5, andb_false_r. now split.
  - destruct (slug_or_not a Ht) as [Hs Hd].
    assert (H : forallb slugChar (a :: collapse nonSlugTest ["-"%char] false l) = true
                /\ noDashPair (a :: collapse nonSlugTest ["-"%char] false l) = true).
    { cbn [forallb noDashPair]. rewrite Hs, IH1, IH2, Hd.
      destruct (collapse nonSlugTest ["-"%char] false l); now split. }
    split; [exact H|]. destruct H as [H1 H2]. repeat split; try assumption.
Qed.

Lemma dropLastDash_shape (l : list ascii) :
  forallb slugChar l = true -> noDashPair l = true ->
  forallb slugChar (dropLastDash l) = true
  /\ noDashPair (dropLastDash l) = true
  /\ endsWithDash (dropLastDash l) = false
  /\ startsWithDash (dropLastDash l) = startsWithDash l && negb (is_nil (dropLastDash l)).
Proof.
  induction l as [|a l IH]; intros Hall Hnd; [repeat split|].
  cbn [forallb] in Hall. apply andb_true_iff in Hall. destruct Hall as [Ha Hall].
  destruct l as [|b l].
  - cbn [dropLastDash]. destruct (isDash a) eqn:Hd.
    + repeat split. cbn [startsWithDash is_nil negb]. now rewrite andb_false_r.
    + cbn [forallb noDashPair startsWithDash is_nil negb]. unfold endsWithDash.
      cbn [last]. rewrite Ha, Hd. repeat split.
  - rewrite dropLastDash_cons. cbn [noDashPair] in Hnd.
    apply andb_true_iff in Hnd. destruct Hnd as [Hab Hnd].
    destruct (IH Hall Hnd) as (H1 & H2 & H3 & H4).
    cbn [forallb startsWithDash is_nil negb]. rewrite Ha, H1, !andb_true_r.
    split; [reflexivity|]. split; [|split; [|reflexivity]].
    + cbn [noDashPair]. rewrite H2, andb_true_r.
      destruct (dropLastDash (b :: l)) as [|c o] eqn:Ho; [reflexivity|].
      cbn [startsWithDash is_nil negb] in H4. rewrite andb_true_r in H4.
      rewrite H4. exact Hab.
    + unfold endsWithDash in *.
      destruct (dropLastDash (b :: l)) as [|c o] eqn:Ho.
      * cbn [last].
        (* the rest was a single hyphen: [a] is not one *)
        destruct l as [|c l]; [|discriminate].
        cbn [dropLastDash] in Ho. destruct (isDash b) eqn:Hb; [|discriminate].
        rewrite andb_true_r in Hab. now apply negb_true_iff in Hab.
      * exact H3.
Qed.

Lemma trimDashes_shape (l : list ascii) :
  forallb slugChar l = true -> noDashPair l = true ->
  tagSlug (string_of_list_ascii (trimDashes l)) = true.
Proof.
  intros Hall Hnd. unfold tagSlug. rewrite list_ascii_of_string_of_list_ascii.
  destruct l as [|a l]; [reflexivity|]. cbn [trimDashes].
  destruct (isDash a) eqn:Hd.
  - cbn [forallb] in Hall. apply andb_true_iff in Hall. destruct Hall as [_ Hall].
    assert (Hstart : startsWithDash l = false).
    { destruct l as [|b l]; [reflexivity|]. cbn [noDashPair] in Hnd.
      apply andb_true_iff in Hnd. destruct Hnd as [Hab _].
      rewrite Hd in Hab. cbn [andb] in Hab. now apply negb_true_iff in Hab. }
    assert (Hnd' : noDashPair l = true).
    { cbn [noDashPair] in Hnd. apply andb_true_iff in Hnd. now destruct Hnd. }
    destruct (dropLastDash_shape l Hall Hnd') as (H1 & H2 & H3 & H4).
    rewrite H1, H2, H3, H4, Hstart. reflexivity.
  - destruct (dropLastDash_shape (a :: l) Hall Hnd) as (H1 & H2 & H3 & H4).
    rewrite H1, H2, H3, H4. cbn [startsWithDash]. rewrite Hd. reflexivity.
Qed.

Lemma dropLastDash_id (l : list ascii) :
  endsWithDash l = false -> dropLastDash l = l.
Proof.
  unfold endsWithDash. induction l as [|a l IH]; intros H; [reflexivity|].
  destruct l as [|b l].
  - cbn [last] in H. cbn [dropLastDash]. now rewrite H.
  - rewrite dropLastDash_cons, IH; [reflexivity | exact H].
Qed.

Lemma collapse_id (l : list ascii) :
  forallb slugChar l = true -> noDashPair l = true ->
  collapse nonSlugTest ["-"%char] false l = l
  /\ (startsWithDash l = false -> collapse nonSlugTest ["-"%char] true l = l).
Proof.
  induction l as [|a l IH]; intros Hall Hnd; [now split|].
  cbn [forallb] in Hall. apply andb_true_iff in Hall. destruct Hall as [Ha Hall].
  assert (Hnd' : noDashPair l = true).
  { cbn [noDashPair] in Hnd. apply andb_true_iff in Hnd. now destruct Hnd. }
  destruct (IH Hall Hnd') as [IH1 IH2]. cbn [collapse].
  destruct (isDash a) eqn:Hd.
  - rewrite (nonSlug_dash a Hd). split.
    + cbn [app]. unfold isDash in Hd. apply Ascii.eqb_eq in Hd. subst a.
      f_equal. apply IH2.
      destruct l as [|b l]; [reflexivity|]. cbn [noDashPair] in Hnd.
      apply andb_true_iff in Hnd. destruct Hnd as [Hab _].
      cbn [isDash startsWithDash] in *. change (isDash "-") with true in Hab.
      cbn [andb] in Hab. now apply negb_true_iff in Hab.
    + cbn [startsWithDash]. congruence.
  - destruct (slug_keeps a Ha Hd) as (Ht & _). rewrite Ht.
    split; [now rewrite IH1 | intros _; now rewrite IH1].
Qed.

Lemma tagSlug_fixed (s : string) : tagSlug s = true -> slugifyTag s = s.
Proof.
  unfold tagSlug. cbv zeta. intros H.
  apply andb_true_iff in H. destruct H as [H Hend].
  apply andb_true_iff in H. destruct H as [H Hstart].
  apply andb_true_iff in H. destruct H as [Hall Hnd].
  apply negb_true_iff in Hend. apply negb_true_iff in Hstart.
  assert (Hchar : forall a, In a (list_ascii_of_string s) ->
                    quoteTest a = false /\ Chars.to_lower a = a /\ Chars.is_space a = false).
  { intros a Hin. rewrite forallb_forall in Hall. specialize (Hall a Hin).
    destruct (isDash a) eqn:Hd; [now apply dash_keeps|].
    destruct (slug_keeps a Hall Hd) as (_ & H1 & H2 & H3). now repeat split. }
  assert (Htrim : Str.trim s = s).
  { unfold Str.trim. rewrite <- (string_of_list_ascii_of_string s) in *.
    rewrite list_ascii_of_string_of_list_ascii in *.
    destruct (list_ascii_of_string s) as [|a l]; [reflexivity|].
    cbn [string_of_list_ascii Str.trimStart].
    destruct (Hchar a (or_introl eq_refl)) as (_ & _ & Hsp). rewrite Hsp.
    apply (trimEnd_last l a).
    destruct (Hchar (last l a)) as (_ & _ & Hl); [|exact Hl].
    destruct l as [|b l]; [now left|]. right.
    rewrite last_cons. clear. revert b. induction l as [|c l IH]; intros b; [now left|].
    rewrite last_cons. right. apply IH. }
  rewrite slugifyTag_chars, Htrim.
  assert (Hlow : map Chars.to_lower (list_ascii_of_string s) = list_ascii_of_string s).
  { rewrite <- (map_id (list_ascii_of_string s)) at 2. apply map_ext_in.
    intros a Hin. now apply Hchar. }
  rewrite Hlow.
  assert (Hq : substitute quoteTest [] (list_ascii_of_string s) = list_ascii_of_string s).
  { clear Hlow Htrim Hall Hnd Hstart Hend.
    induction (list_ascii_of_string s) as [|a l IH]; [reflexivity|].
    rewrite substitute_cons. destruct (Hchar a (or_introl eq_refl)) as (Hqa & _).
    rewrite Hqa, IH; [reflexivity|]. intros b Hb. apply Hchar. now right. }
  rewrite Hq. destruct (collapse_id _ Hall Hnd) as [Hc _]. rewrite Hc.
  rewrite <- (string_of_list_ascii_of_string s) at 2. f_equal.
  destruct (list_ascii_of_string s) as [|a l]; [reflexivity|].
  cbn [trimDashes]. cbn [startsWithDash] in Hstart. rewrite Hstart.
  now apply dropLastDash_id.
Qed.

End TagSlugFacts.

(** X13.  [slugifyTag] always returns a well-formed slug -- lower-case
    ASCII letters, digits and single hyphens, with no hyphen at either end
    (possibly the empty string) -- it leaves a well-formed slug as it is,
    and so it is idempotent. *)
Theorem slugify_tag_gives_a_slug :
  forall tag : string,
    tagSlug (Tags.slugifyTag tag) = true
    /\ Tags.slugifyTag (Tags.slugifyTag tag) = Tags.slugifyTag tag
    /\ (tagSlug tag = true -> Tags.slugifyTag tag = tag).
Proof.
  intros tag.
  assert (Hshape : tagSlug (Tags.slugifyTag tag) = true).
  { rewrite slugifyTag_chars.
    destruct (collapse_shape
                (substitute quoteTest []
                   (map Chars.to_lower (list_ascii_of_string (Str.trim tag)))))
      as [[H1 H2] _].
    now apply trimDashes_shape. }
  split; [exact Hshape|]. split; [now apply tagSlug_fixed | apply tagSlug_fixed].
Qed.

Lemma slugify_tag_gives_a_slug_witness :
  Tags.slugifyTag "  Brand's Strategy & Design  " = "brands-strategy-design"%string
  /\ Tags.slugifyTag "brands-strategy-design" = "brands-strategy-design"%string.
Proof.
  split; [vm_compute; reflexivity|].
  apply (proj2 (proj2 (slugify_tag_gives_a_slug "brands-strategy-design"))).
  reflexivity.
Defined.

(** ** Client logos *)

Section TokenFacts.

Import Re Logos.

Variable t : ascii -> bool.

(** The pieces are made of the characters outside the runs. *)
Lemma pieces_chars (l : list ascii) :
  forall piece inRun p,
    (forall a, In a piece -> t a = false) ->
    In p (pieces t piece inRun l) ->
    forall a, In a (list_ascii_of_string p) -> t a = false.
Proof.
  induction l as [|a l IH]; intros piece inRun p Hpiece Hin b Hb; cbn [pieces] in Hin.
  - destruct Hin as [<-|[]]. rewrite list_ascii_of_string_of_list_ascii in Hb.
    apply Hpiece. now apply in_rev.
  - destruct (t a) eqn:Hta.
    + destruct inRun.
      * apply (IH [] true p); [intros c [] | assumption | assumption].
      * destruct Hin as [<-|Hin].
        -- rewrite list_ascii_of_string_of_list_ascii in Hb.
           apply Hpiece. now apply in_rev.
        -- apply (IH [] true p); [intros c [] | assumption | assumption].
    + apply (IH (a :: piece) false p); [|assumption|assumption].
      intros c [<-|Hc]; [assumption | now apply Hpiece].
Qed.

(** Every piece is a part of the text. *)
Lemma pieces_parts (l : list ascii) :
  forall piece inRun p,
    In p (pieces t piece inRun l) ->
    exists u v, rev piece ++ l = u ++ list_ascii_of_string p ++ v.
Proof.
  induction l as [|a l IH]; intros piece inRun p Hin; cbn [pieces] in Hin.
  - destruct Hin as [<-|[]]. exists [], [].
    now rewrite list_ascii_of_string_of_list_ascii.
  - assert (Hlater : forall piece' inRun',
               In p (pieces t piece' inRun' l) ->
               rev piece' ++ l = l \/ piece' = a :: piece ->
               exists u v, rev piece ++ a :: l = u ++ list_ascii_of_string p ++ v).
    { intros piece' inRun' Hp Hcase. destruct (IH piece' inRun' p Hp) as (u & v & Huv).
      destruct Hcase as [Hnil| ->].
      - exists (rev piece ++ a :: u), v. rewrite <- Hnil at 1. rewrite Huv.
        now rewrite <- app_assoc.
      - exists u, v. rewrite <- Huv. cbn [rev]. now rewrite <- app_assoc. }
    destruct (t a).
    + destruct inRun.
      * apply (Hlater [] true Hin). now left.
      * destruct Hin as [<-|Hin].
        -- exists [], (a :: l). now rewrite list_ascii_of_string_of_list_ascii.
        -- apply (Hlater [] true Hin). now left.
    + apply (Hlater (a :: piece) false Hin). now right.
Qed.

End TokenFacts.

Section LogoFacts.

Import Re Logos.

Lemma nonAlnum_lowerAlnum (a : ascii) : nonAlnumTest a = negb (lowerAlnum a).
Proof. destruct a as [[] [] [] [] [] [] [] []]; reflexivity. Qed.

Lemma lowerAlnum_no_space (a : ascii) : lowerAlnum a = true -> Chars.is_space a = false.
Proof. destruct a as [[] [] [] [] [] [] [] []]; cbn; intros H; try discriminate; reflexivity. Qed.

(** A text without white space at its ends is its own trimmed form. *)
Lemma trim_fixed (s : string) :
  (forall a, In a (list_ascii_of_string s) -> Chars.is_space a = false) ->
  Str.trim s = s.
Proof.
  intros Hchar. unfold Str.trim. rewrite <- (string_of_list_ascii_of_string s) in *.
  rewrite list_ascii_of_string_of_list_ascii in *.
  destruct (list_ascii_of_string s) as [|a l]; [reflexivity|].
  cbn [string_of_list_ascii Str.trimStart].
  rewrite (Hchar a (or_introl eq_refl)).
  apply (trimEnd_last l a). apply Hchar.
  destruct l as [|b l]; [now left|]. right.
  rewrite last_cons. clear. revert b. induction l as [|c l IH]; intros b; [now left|].
  rewrite last_cons. right. apply IH.
Qed.

Lemma includes_part (p : string) (u v : list ascii) (s : string) :
  list_ascii_of_string s = u ++ list_ascii_of_string p ++ v ->
  Str.includes p s = true.
Proof.
  intros H. rewrite <- (string_of_list_ascii_of_string s), H.
  rewrite !string_of_chars_app, string_of_list_ascii_of_string.
  apply includes_app_r.
Qed.

Lemma to_lower_involutive (a : ascii) : Chars.to_lower (Chars.to_lower a) = Chars.to_lower a.
Proof. destruct a as [[] [] [] [] [] [] [] []]; reflexivity. Qed.

Lemma toLowerCase_idempotent (s : string) :
  Str.toLowerCase (Str.toLowerCase s) = Str.toLowerCase s.
Proof.
  induction s as [|a s IH]; cbn [Str.toLowerCase]; [reflexivity|].
  now rewrite to_lower_involutive, IH.
Qed.

Lemma tokenize_pieces (value : string) :
  tokenize value
  = filter (fun t => 3 <=? String.length t)
      (map Str.trim
         (pieces nonAlnumTest [] false (list_ascii_of_string (Str.toLowerCase value)))).
Proof.
  unfold tokenize, nonAlnumRun.
  now rewrite (split_plus plain _ _ (single_cls plain true _)).
Qed.

End LogoFacts.

(** X14.  Every token that [tokenize] returns is a run of at least three
    lower-case ASCII letters and digits that occurs in the lower-cased
    text; the letter case of the text does not matter. *)
Theorem tokens_are_lowercase_words :
  forall value : string,
    (forall token,
        In token (Logos.tokenize value) ->
        3 <= String.length token
        /\ forallb lowerAlnum (list_ascii_of_string token) = true
        /\ Str.includes token (Str.toLowerCase value) = true)
    /\ Logos.tokenize (Str.toLowerCase value) = Logos.tokenize value.
Proof.
  intros value. split.
  - intros token Hin. rewrite tokenize_pieces in Hin.
    apply filter_In in Hin. destruct Hin as [Hin Hlen].
    apply in_map_iff in Hin. destruct Hin as (p & Htrim & Hp).
    assert (Hchars : forall a, In a (list_ascii_of_string p) -> lowerAlnum a = true).
    { intros a Ha.
      assert (H := pieces_chars nonAlnumTest _ [] false p (fun c (F : In c []) => match F with end)
                     Hp a Ha).
      rewrite nonAlnum_lowerAlnum in H. now apply negb_false_iff in H. }
    assert (Hp' : Str.trim p = p).
    { apply trim_fixed. intros a Ha. apply lowerAlnum_no_space. now apply Hchars. }
    rewrite Hp' in Htrim. subst token.
    split; [now apply Nat.leb_le|]. split.
    + apply forallb_forall. exact Hchars.
    + destruct (pieces_parts nonAlnumTest _ [] false p Hp) as (u & v & Huv).
      now apply (includes_part p u v).
  - rewrite !tokenize_pieces. now rewrite toLowerCase_idempotent.
Qed.

Section BestLogo.

Import Logos.

Variable tokens : list string.

Local Notation "'score' l" := (scoreLogoCandidate (filenameOf l) tokens)
  (at level 10, l at level 9).

Local Notation "'firstBest'" := (firstBestOf tokens).

Lemma better_firstBest (seen : list logo) (best : option candidate) (l : logo) :
  firstBest seen best -> firstBest (seen ++ [l]) (better tokens best l).
Proof.
  unfold firstBestOf, better. destruct best as [b|]; cbv zeta.
  - intros (pre & l0 & post & Hseen & Hid & Hsc & Hpre & Hpost). cbv zeta.
    destruct (Z.gtb_spec (score l) (c_score b)) as [Hgt|Hle].
    + exists seen, l, []. cbn [c_id c_score]. repeat split; try reflexivity.
      * intros p Hp. rewrite Hseen in Hp. apply in_app_or in Hp.
        destruct Hp as [Hp|[<-|Hp]].
        -- specialize (Hpre p Hp). lia.
        -- lia.
        -- specialize (Hpost p Hp). lia.
      * intros q [].
    + exists pre, l0, (post ++ [l]). repeat split; try assumption.
      * rewrite Hseen, <- app_assoc. reflexivity.
      * intros q Hq. apply in_app_or in Hq. destruct Hq as [Hq|[<-|[]]].
        -- now apply Hpost.
        -- lia.
  - intros ->. exists [], l, []. cbn [c_id c_score app]. repeat split; try reflexivity.
    + intros p [].
    + intros q [].
Qed.

Lemma fold_better_firstBest (todo : list logo) :
  forall seen best,
    firstBest seen best -> firstBest (seen ++ todo) (fold_left (better tokens) todo best).
Proof.
  induction todo as [|l todo IH]; intros seen best H; cbn [fold_left].
  - now rewrite app_nil_r.
  - replace (seen ++ l :: todo) with ((seen ++ [l]) ++ todo) by (now rewrite <- app_assoc).
    apply IH. now apply better_firstBest.
Qed.

(** The score counts ten for [logo] and three for each token found. *)
Lemma score_counts (filename : string) :
  scoreLogoCandidate filename tokens
  = ((if Str.includes "logo" (Str.toLowerCase filename) then 10 else 0)
     + 3 * Z.of_nat
             (length (filter (fun token =>
                                negb (Str.isEmpty token)
                                && Str.includes token (Str.toLowerCase filename))
                             tokens)))%Z.
Proof.
  unfold scoreLogoCandidate. cbv zeta.
  generalize (if Str.includes "logo" (Str.toLowerCase filename) then 10%Z else 0%Z).
  induction tokens as [|token toks IH]; intros z; cbn [fold_left filter length]; [lia|].
  rewrite IH.
  destruct (negb (Str.isEmpty token) && Str.includes token (Str.toLowerCase filename));
    cbn [length]; lia.
Qed.

End BestLogo.

(** X15.  [findBestLogoId] returns the identifier of the first logo with
    the highest score, provided that score is at least 10; such a logo
    has [logo] in its lower-cased file name or at least four of the
    work's tokens.  It returns [null] exactly when no logo scores 10. *)
Theorem best_logo_is_the_first_maximum :
  forall (client slug : string) (logos : list Logos.logo),
    match Logos.findBestLogoId client slug logos with
    | Some i =>
        exists pre l post,
          logos = pre ++ l :: post
          /\ Logos.id l = i
          /\ (10 <= logoScore client slug l)%Z
          /\ (forall p, In p pre -> (logoScore client slug p < logoScore client slug l)%Z)
          /\ (forall q, In q post -> (logoScore client slug q <= logoScore client slug l)%Z)
          /\ (Str.includes "logo" (Str.toLowerCase (Logos.filenameOf l)) = true
              \/ 4 <= length (tokensFound client slug l))
    | None => forall l, In l logos -> (logoScore client slug l < 10)%Z
    end.
Proof.
  intros client slug logos. unfold Logos.findBestLogoId. cbv zeta.
  assert (H := fold_better_firstBest (Logos.tokensOf client slug) logos [] None eq_refl).
  cbn [app] in H. unfold firstBestOf in H.
  destruct (fold_left (Logos.better (Logos.tokensOf client slug)) logos None) as [b|].
  - cbv zeta in H. destruct H as (pre & l & post & Hl & Hid & Hsc & Hpre & Hpost).
    destruct (Z.ltb_spec (Logos.c_score b) 10) as [Hlow|Hhigh].
    + intros x Hx. unfold logoScore. rewrite Hl in Hx. apply in_app_or in Hx.
      destruct Hx as [Hx|[<-|Hx]].
      * specialize (Hpre x Hx). lia.
      * lia.
      * specialize (Hpost x Hx). lia.
    + exists pre, l, post. unfold logoScore. repeat split; try assumption.
      * now symmetry.
      * lia.
      * rewrite Hsc in Hhigh. rewrite score_counts in Hhigh. unfold tokensFound.
        destruct (Str.includes "logo" (Str.toLowerCase (Logos.filenameOf l)));
          [now left | right; lia].
  - subst logos. intros l [].
Qed.

(** ** The duplicate suffix in the back-fill script *)

Section NumericSuffix.

Import Re Logos.

(** The greedy star of a one-character pattern in front of the end of
    the input. *)
Lemma star_to_end (r : regex) (t : ascii -> bool) (l : list ascii) :
  single plain r t ->
  forall bef cs,
    m plain (Quant r 0 None true) (m plain Eol Some)
      {| before := bef; after := l; caps := cs |}
    = if forallb t l
      then Some {| before := rev l ++ bef; after := []; caps := cs |}
      else None.
Proof.
  intros Hs. induction l as [|a l IH]; intros bef cs;
    rewrite (quant_greedy plain r t None _ _ Hs); cbn [max_is_zero dec_max];
    unfold step_if; cbn [after forallb].
  - reflexivity.
  - destruct (t a); cbn [andb]; [|reflexivity].
    unfold advance. cbn [before caps]. rewrite IH.
    destruct (forallb t l); [|reflexivity].
    cbn [rev]. now rewrite <- app_assoc.
Qed.

Lemma digit_single : single plain digit Chars.is_digit.
Proof.
  split; [reflexivity|]. intros k x. cbn [m digit]. unfold step_if.
  destruct (after x) as [|a l]; [reflexivity|].
  replace (cls_match plain false [CDigit] a) with (Chars.is_digit a); [reflexivity|].
  unfold cls_match, items_have. cbn [existsb item_has ignoreCase plain andb xorb].
  now rewrite !orb_false_r.
Qed.

Lemma match_here_numericSuffix (bef l : list ascii) :
  match_here plain numericSuffix bef l
  = match l with
    | a :: d :: ds =>
        if Ascii.eqb a "-" && forallb Chars.is_digit (d :: ds)
        then Some {| index := length bef;
                     matched := string_of_list_ascii (a :: d :: ds);
                     groups := [];
                     rest := [];
                     upto := rev ds ++ d :: a :: bef |}
        else None
    | _ => None
    end.
Proof.
  unfold match_here, start_state.
  change (m plain numericSuffix Some)
    with (m plain (Chr "-") (m plain (plus digit) (m plain Eol Some))).
  rewrite m_Chr. unfold step_if. cbn [after]. destruct l as [|a l]; [reflexivity|].
  rewrite chr_match_plain. destruct (Ascii.eqb a "-") eqn:Ha; cbn [andb];
    [|now destruct l].
  unfold advance, plus. cbn [before caps].
  rewrite (quant_more plain digit Chars.is_digit 0 None true _ _ digit_single).
  cbn [max_is_zero dec_max]. unfold step_if. cbn [after].
  destruct l as [|d ds]; [reflexivity|]. cbn [forallb].
  destruct (Chars.is_digit d); cbn [andb]; [|reflexivity].
  unfold advance. cbn [before caps]. rewrite (star_to_end digit Chars.is_digit ds digit_single).
  destruct (forallb Chars.is_digit ds); [|reflexivity].
  unfold result_of. cbn [before after caps pos].
  rewrite (consumed_app _ _ (a :: d :: ds)); [reflexivity|].
  cbn [before rev]. now rewrite <- !app_assoc.
Qed.

(** The pattern is found at the hyphen in front of the final digits, and
    nowhere before it. *)
Lemma search_numericSuffix (base : list ascii) (d : ascii) (ds : list ascii) :
  forallb Chars.is_digit (d :: ds) = true ->
  forall bef,
    exists mr,
      search plain numericSuffix bef (base ++ "-"%char :: d :: ds) = Some (base, mr)
      /\ rest mr = [].
Proof.
  intros Hd. induction base as [|a base IH]; intros bef.
  - cbn [app]. eexists. split.
    + apply search_here. rewrite match_here_numericSuffix.
      change (Ascii.eqb "-" "-") with true. rewrite Hd. reflexivity.
    + reflexivity.
  - cbn [app]. rewrite search_miss.
    + destruct (IH (a :: bef)) as (mr & Hs & Hr). rewrite Hs. now exists mr.
    + rewrite match_here_numericSuffix.
      destruct (base ++ "-"%char :: d :: ds) as [|b l] eqn:Hl; [reflexivity|].
      destruct (Ascii.eqb a "-"); [|reflexivity]. cbn [andb].
      replace (forallb Chars.is_digit (b :: l)) with false; [reflexivity|].
      rewrite <- Hl, forallb_app. cbn [forallb].
      change (Chars.is_digit "-") with false. cbn [andb]. now rewrite andb_false_r.
Qed.

Lemma strip_numeric_suffix (base ds : string) :
  ds <> ""%string -> forallb Chars.is_digit (list_ascii_of_string ds) = true ->
  stripWpDuplicateSuffix (base ++ "-" ++ ds) = base.
Proof.
  intros Hne Hd. unfold stripWpDuplicateSuffix, replace_first.
  rewrite !chars_app. destruct ds as [|d ds]; [congruence|].
  cbn [list_ascii_of_string app] in *.
  destruct (search_numericSuffix (list_ascii_of_string base) d (list_ascii_of_string ds) Hd [])
    as (mr & Hs & Hr).
  rewrite Hs, Hr. cbn [list_ascii_of_string app]. rewrite app_nil_r.
  apply string_of_list_ascii_of_string.
Qed.

(** The client's stripper leaves the slug alone or removes a hyphen with
    one or two digits. *)
Lemma strip_suffix_cases (slug : string) :
  Slug.stripWpDuplicateSuffix slug = slug
  \/ exists ds : string,
       slug = (Slug.stripWpDuplicateSuffix slug ++ "-" ++ ds)%string
       /\ oneOrTwoDigits ds = true.
Proof.
  rewrite strip_by_splitSuffix.
  destruct (splitSuffix (list_ascii_of_string slug)) as [[b ds]|] eqn:Hs; [|now left].
  destruct (Slug.Number (string_of_list_ascii ds)) as [n|] eqn:Hn; [|now left].
  destruct ((n <? 2)%Z || (n >? 99)%Z) eqn:Hr; [now left|].
  right. exists (string_of_list_ascii ds).
  apply splitSuffix_sound in Hs. destruct Hs as (Hl & _ & Hd).
  split; [|assumption].
  rewrite <- (string_of_chars_of_string slug), Hl, string_of_chars_app. reflexivity.
Qed.

Lemma oneOrTwoDigits_digits (ds : string) :
  oneOrTwoDigits ds = true ->
  ds <> ""%string /\ forallb Chars.is_digit (list_ascii_of_string ds) = true.
Proof.
  destruct ds as [|d1 [|d2 [|d3 ds]]]; cbn [oneOrTwoDigits list_ascii_of_string forallb];
    try discriminate.
  - intros ->. now split.
  - intros H. rewrite andb_true_r. now split.
Qed.

End NumericSuffix.

(** X16.  The back-fill script's [stripWpDuplicateSuffix] removes every
    trailing hyphen followed by digits, whatever the number; so it agrees
    with the WordPress client's on every slug the client treats as a
    duplicate, and goes further on suffixes the client keeps. *)
Theorem backfill_strip_agrees_on_duplicates :
  (forall base ds : string,
      ds <> ""%string -> forallb Chars.is_digit (list_ascii_of_string ds) = true ->
      Logos.stripWpDuplicateSuffix (base ++ "-" ++ ds) = base)
  /\ (forall slug : string,
         Slug.isWpDuplicateSlug slug = true ->
         Logos.stripWpDuplicateSuffix slug = Slug.stripWpDuplicateSuffix slug).
Proof.
  split; [apply strip_numeric_suffix|].
  intros slug Hdup. unfold Slug.isWpDuplicateSlug in Hdup.
  apply negb_true_iff in Hdup. apply String.eqb_neq in Hdup.
  destruct (strip_suffix_cases slug) as [Heq|(ds & Hs & Hd)]; [contradiction|].
  destruct (oneOrTwoDigits_digits ds Hd) as [Hne Hdig].
  rewrite Hs at 1. now apply strip_numeric_suffix.
Qed.

Lemma backfill_strip_agrees_on_duplicates_witness :
  Logos.stripWpDuplicateSuffix ("acme-rebrand" ++ "-" ++ "100") = "acme-rebrand"%string
  /\ Logos.stripWpDuplicateSuffix "acme-rebrand-2"
     = Slug.stripWpDuplicateSuffix "acme-rebrand-2".
Proof.
  split.
  - apply (proj1 backfill_strip_agrees_on_duplicates "acme-rebrand"%string "100"%string);
      [discriminate | reflexivity].
  - apply (proj2 backfill_strip_agrees_on_duplicates "acme-rebrand-2"%string). reflexivity.
Defined.

(** ** Search index: counting words *)

Section WordFacts.

Import Re SearchIndex.

Lemma space_single : single plain space Chars.is_space.
Proof.
  split; [reflexivity|]. intros k x. cbn [m space]. unfold step_if.
  destruct (after x) as [|a l]; [reflexivity|].
  replace (cls_match plain false [CSpace] a) with (Chars.is_space a); [reflexivity|].
  unfold cls_match, items_have. cbn [existsb item_has ignoreCase plain andb xorb].
  now rewrite !orb_false_r.
Qed.

Lemma collapse_words (l : list ascii) :
  (forall inWord,
      countWords inWord (collapse Chars.is_space [" "%char] false l) = countWords inWord l)
  /\ countWords false (collapse Chars.is_space [" "%char] true l) = countWords false l.
Proof.
  induction l as [|a l [IH1 IH2]]; [now split|].
  cbn [collapse]. destruct (Chars.is_space a) eqn:Ha.
  - split.
    + intros inWord. cbn [app countWords]. change (Chars.is_space " ") with true.
      cbv iota. now rewrite Ha.
    + cbn [countWords]. now rewrite Ha.
  - split.
    + intros inWord. cbn [countWords]. now rewrite Ha, IH1.
    + cbn [countWords]. now rewrite Ha, IH1.
Qed.

Lemma collapse_spacesOnly (l : list ascii) :
  forall inRun, spacesOnly (collapse Chars.is_space [" "%char] inRun l).
Proof.
  induction l as [|a l IH]; intros inRun b Hb Hs; [contradiction|].
  cbn [collapse] in Hb. destruct (Chars.is_space a) eqn:Ha.
  - destruct inRun.
    + now apply (IH true).
    + cbn [app] in Hb. destruct Hb as [<-|Hb]; [reflexivity | now apply (IH true)].
  - destruct Hb as [<-|Hb]; [congruence | now apply (IH false)].
Qed.

Lemma trimStart_words (s : string) :
  countWords false (list_ascii_of_string (Str.trimStart s))
  = countWords false (list_ascii_of_string s).
Proof.
  induction s as [|a s IH]; [reflexivity|]. cbn [Str.trimStart].
  destruct (Chars.is_space a) eqn:Ha; [|reflexivity].
  cbn [list_ascii_of_string countWords]. now rewrite Ha.
Qed.

Lemma trimEnd_words (s : string) :
  forall inWord,
    countWords inWord (list_ascii_of_string (Str.trimEnd s))
    = countWords inWord (list_ascii_of_string s).
Proof.
  induction s as [|a s IH]; intros inWord; [reflexivity|].
  rewrite trimEnd_cons. cbn [list_ascii_of_string countWords].
  destruct (Str.trimEnd s) as [|b t] eqn:Ht.
  - cbn [list_ascii_of_string countWords] in IH.
    destruct (Chars.is_space a) eqn:Ha.
    + now rewrite <- IH.
    + cbn [list_ascii_of_string countWords]. now rewrite Ha, <- IH.
  - change (list_ascii_of_string (String a (String b t)))
      with (a :: list_ascii_of_string (String b t)).
    cbn [countWords]. now rewrite !IH.
Qed.

Lemma trimStart_incl (s : string) (a : ascii) :
  In a (list_ascii_of_string (Str.trimStart s)) -> In a (list_ascii_of_string s).
Proof.
  induction s as [|b s IH]; [tauto|]. cbn [Str.trimStart].
  destruct (Chars.is_space b); [|tauto].
  intros H. right. now apply IH.
Qed.

Lemma trimEnd_incl (s : string) (a : ascii) :
  In a (list_ascii_of_string (Str.trimEnd s)) -> In a (list_ascii_of_string s).
Proof.
  induction s as [|b s IH]; [tauto|]. rewrite trimEnd_cons.
  destruct (Str.trimEnd s) as [|c t].
  - destruct (Chars.is_space b); [contradiction|]. intros [<-|[]]. now left.
  - intros [<-|H]; [now left | right; now apply IH].
Qed.

Lemma trim_incl (s : string) (a : ascii) :
  In a (list_ascii_of_string (Str.trim s)) -> In a (list_ascii_of_string s).
Proof. intros H. now apply trimStart_incl, trimEnd_incl. Qed.

Lemma trim_words (s : string) :
  countWords false (list_ascii_of_string (Str.trim s))
  = countWords false (list_ascii_of_string s).
Proof. unfold Str.trim. now rewrite trimEnd_words, trimStart_words. Qed.

(** The pieces between the spaces that are not empty are the words. *)
Lemma splitChar_words (s : string) :
  spacesOnly (list_ascii_of_string s) ->
  exists p ps,
    Str.splitChar " " s = p :: ps
    /\ countWords false (list_ascii_of_string s) = nonEmptyCount (p :: ps)
    /\ countWords true (list_ascii_of_string s) = nonEmptyCount ps.
Proof.
  induction s as [|a s IH]; intros Hs.
  - exists EmptyString, []. repeat split.
  - destruct IH as (p & ps & Hsplit & Hfalse & Htrue).
    { intros b Hb. apply Hs. now right. }
    cbn [Str.splitChar list_ascii_of_string countWords]. rewrite Hsplit.
    destruct (Ascii.eqb_spec a " ") as [->|Hne].
    + exists EmptyString, (p :: ps). change (Chars.is_space " ") with true. cbv iota.
      repeat split; assumption.
    + assert (Ha : Chars.is_space a = false).
      { destruct (Chars.is_space a) eqn:Hsp; [|reflexivity].
        exfalso. apply Hne. apply Hs; [now left | assumption]. }
      rewrite Ha. exists (String a p), ps. repeat split.
      * rewrite Htrue. reflexivity.
      * exact Htrue.
Qed.

Lemma wordCount_words (input : string) :
  wordCount input = Z.of_nat (countWords false (list_ascii_of_string input)).
Proof.
  unfold wordCount, whitespaceRun. cbv zeta.
  rewrite (replace_all_plus plain space Chars.is_space space_single).
  cbn [list_ascii_of_string].
  set (o := collapse Chars.is_space [" "%char] false (list_ascii_of_string input)).
  destruct (splitChar_words (Str.trim (string_of_list_ascii o))) as (p & ps & Hsplit & Hc & _).
  { intros a Ha. apply trim_incl in Ha. rewrite list_ascii_of_string_of_list_ascii in Ha.
    now apply (collapse_spacesOnly (list_ascii_of_string input) false). }
  rewrite Hsplit. fold (nonEmptyCount (p :: ps)). rewrite <- Hc, trim_words.
  rewrite list_ascii_of_string_of_list_ascii. unfold o.
  now rewrite (proj1 (collapse_words (list_ascii_of_string input))).
Qed.

End WordFacts.

(** X17.  [wordCount] counts the words of a text, its maximal runs of
    characters that are not white space; [estimateReadTimeMinutes] is that
    count divided by 200 and rounded up, but never less than one minute. *)
Theorem read_time_counts_words :
  forall text : string,
    SearchIndex.wordCount text = Z.of_nat (countWords false (list_ascii_of_string text))
    /\ (1 <= SearchIndex.estimateReadTimeMinutes text)%Z
    /\ (SearchIndex.wordCount text <= 200 * SearchIndex.estimateReadTimeMinutes text)%Z
    /\ (SearchIndex.estimateReadTimeMinutes text = 1%Z
        \/ (200 * (SearchIndex.estimateReadTimeMinutes text - 1)
            < SearchIndex.wordCount text)%Z).
Proof.
  intros text. split; [apply wordCount_words|].
  unfold SearchIndex.estimateReadTimeMinutes. cbv zeta.
  set (c := SearchIndex.wordCount text).
  assert (Hc : (0 <= c)%Z) by (unfold c; rewrite wordCount_words; lia).
  assert (Hd := Z.div_mod (c + 200 - 1) 200 ltac:(lia)).
  assert (Hm := Z.mod_pos_bound (c + 200 - 1) 200 ltac:(lia)).
  split; [lia|]. split; [lia|].
  destruct (Z.max_spec 1 ((c + 200 - 1) / 200)) as [[Hlt ->]|[Hge ->]]; [right; lia | now left].
Qed.

(** ** CSV parser: lists in a cell *)

Section ListCellFacts.

Import Str.

Lemma trimStart_shape (s : string) :
  match trimStart s with
  | EmptyString => True
  | String a _ => Chars.is_space a = false
  end.
Proof.
  induction s as [|a s IH]; [exact I|]. cbn [trimStart].
  destruct (Chars.is_space a) eqn:Ha; [exact IH | exact Ha].
Qed.

(** What [trimEnd] returns is empty or ends with a character that is not
    white space, and it starts as its argument does. *)
Lemma trimEnd_shape (s : string) :
  match trimEnd s with
  | EmptyString => True
  | String a t =>
      Chars.is_space (last (list_ascii_of_string t) a) = false
      /\ exists s', s = String a s'
  end.
Proof.
  induction s as [|a s IH]; [exact I|]. rewrite trimEnd_cons.
  destruct (trimEnd s) as [|b t].
  - destruct (Chars.is_space a) eqn:Ha; [exact I|]. split; [exact Ha | now exists s].
  - destruct IH as [Hlast _]. split; [|now exists s].
    cbn [list_ascii_of_string]. now rewrite last_cons.
Qed.

Lemma trim_trimmed (s : string) :
  match s with
  | EmptyString => True
  | String a t =>
      Chars.is_space a = false /\ Chars.is_space (last (list_ascii_of_string t) a) = false
  end ->
  trim s = s.
Proof.
  destruct s as [|a t]; [reflexivity|]. intros [Ha Hl].
  unfold trim. cbn [trimStart]. rewrite Ha.
  rewrite <- (string_of_list_ascii_of_string t).
  change (String a (string_of_list_ascii (list_ascii_of_string t)))
    with (string_of_list_ascii (a :: list_ascii_of_string t)).
  now apply trimEnd_last.
Qed.

Lemma trim_idempotent (s : string) : trim (trim s) = trim s.
Proof.
  apply trim_trimmed. unfold trim.
  assert (Hs := trimStart_shape s). assert (He := trimEnd_shape (trimStart s)).
  destruct (trimEnd (trimStart s)) as [|a t]; [exact I|].
  destruct He as [Hl (s' & Hs')]. rewrite Hs' in Hs. now split.
Qed.

Lemma splitChar_pieces_lack (sep : ascii) (s : string) :
  forall p, In p (splitChar sep s) -> lacks sep p.
Proof.
  induction s as [|a s IH]; intros p Hp; cbn [splitChar] in Hp.
  - destruct Hp as [<-|[]]. intros b [].
  - destruct (Ascii.eqb_spec a sep) as [->|Hne].
    + destruct Hp as [<-|Hp]; [intros b [] | now apply IH].
    + destruct (splitChar sep s) as [|q qs] eqn:Hq.
      * destruct Hp as [<-|[]]. intros b [<-|[]]. exact Hne.
      * destruct Hp as [<-|Hp].
        -- intros b [<-|Hb]; [exact Hne|]. apply (IH q); [now left | exact Hb].
        -- apply IH. now right.
Qed.

Lemma lacks_trim (sep : ascii) (s : string) : lacks sep s -> lacks sep (trim s).
Proof. intros H a Ha. apply H. now apply trim_incl. Qed.

(** The pieces of a list joined with the separator. *)
Lemma splitChar_concat (sep : ascii) (t : string) (ts : list string) :
  lacks sep t -> Forall (lacks sep) ts ->
  splitChar sep (String.concat (String sep EmptyString) (t :: ts)) = t :: ts.
Proof.
  revert t. induction ts as [|u ts IH]; intros t Ht Hts.
  - cbn [String.concat]. now apply splitChar_lacks.
  - inversion Hts as [|? ? Hu Hts']; subst.
    change (String.concat (String sep EmptyString) (t :: u :: ts))
      with (t ++ String sep EmptyString
              ++ String.concat (String sep EmptyString) (u :: ts))%string.
    change (String sep EmptyString ++ String.concat (String sep EmptyString) (u :: ts))%string
      with (String sep (String.concat (String sep EmptyString) (u :: ts))).
    rewrite (splitChar_app sep t _ Ht). f_equal. now apply IH.
Qed.

(** The same with a space behind each separator. *)
Lemma splitChar_concat_spaced (sep : ascii) (t : string) (ts : list string) :
  lacks sep t -> Forall (lacks sep) ts -> sep <> " "%char ->
  splitChar sep (String.concat (String sep (String " " EmptyString)) (t :: ts))
  = t :: map (String " "%char) ts.
Proof.
  intros Ht Hts Hsp. revert t Ht. induction ts as [|u ts IH]; intros t Ht.
  - cbn [String.concat map]. now apply splitChar_lacks.
  - inversion Hts as [|? ? Hu Hts']; subst.
    assert (Hcons : String.concat (String sep (String " " EmptyString)) (t :: u :: ts)
                    = (t ++ String sep
                         (String.concat (String sep (String " " EmptyString))
                            (String " " u :: ts)))%string).
    { destruct ts; reflexivity. }
    rewrite Hcons, (splitChar_app sep t _ Ht). f_equal. cbn [map].
    apply (IH Hts' (String " " u)).
    intros b [<-|Hb]; [congruence | now apply Hu].
Qed.

Lemma clean_entries (sep : ascii) (ts : list string) :
  Forall (cleanEntry sep) ts ->
  filter (fun t => negb (isEmpty t)) (map trim ts) = ts.
Proof.
  induction ts as [|t ts IH]; intros H; [reflexivity|].
  inversion H as [|? ? (Hne & Htrim & _) Hts]; subst.
  cbn [map filter]. rewrite Htrim. destruct t; [congruence|].
  cbn [isEmpty negb]. f_equal. now apply IH.
Qed.

Lemma clean_entries_spaced (sep : ascii) (ts : list string) :
  Forall (cleanEntry sep) ts ->
  filter (fun t => negb (isEmpty t)) (map trim (map (String " "%char) ts)) = ts.
Proof.
  intros H. rewrite map_map.
  rewrite (map_ext _ trim); [now apply (clean_entries sep)|].
  intros t. unfold trim. reflexivity.
Qed.

Lemma parsed_entries_clean (sep : ascii) (s t : string) :
  In t (filter (fun t => negb (isEmpty t)) (map trim (splitChar sep s))) ->
  cleanEntry sep t.
Proof.
  intros H. apply filter_In in H. destruct H as [Hin Hne].
  apply in_map_iff in Hin. destruct Hin as (p & <- & Hp).
  repeat split.
  - intros Heq. rewrite Heq in Hne. discriminate.
  - apply trim_idempotent.
  - apply lacks_trim. now apply (splitChar_pieces_lack sep s).
Qed.

Lemma joined_entries (sep : ascii) (ts : list string) :
  sep <> " "%char -> Forall (cleanEntry sep) ts ->
  filter (fun t => negb (isEmpty t))
         (map trim (splitChar sep (String.concat (String sep EmptyString) ts))) = ts
  /\ filter (fun t => negb (isEmpty t))
       (map trim (splitChar sep (String.concat (String sep (String " " EmptyString)) ts)))
     = ts.
Proof.
  intros Hsp Hall. destruct ts as [|t ts]; [now split|].
  assert (Hlacks : Forall (lacks sep) (t :: ts)).
  { apply Forall_impl with (P := cleanEntry sep); [|exact Hall]. now intros x (_ & _ & H). }
  inversion Hlacks as [|? ? Ht Hts]; subst. split.
  - rewrite (splitChar_concat sep t ts Ht Hts). now apply (clean_entries sep).
  - rewrite (splitChar_concat_spaced sep t ts Ht Hts Hsp). cbn [map filter].
    inversion Hall as [|? ? (Hne & Htrim & _) Hall']; subst.
    rewrite Htrim. destruct t as [|a t]; [congruence|]. cbn [isEmpty negb]. f_equal.
    now apply (clean_entries_spaced sep).
Qed.

Lemma concat_not_empty (sep : string) (t : string) (ts : list string) :
  t <> EmptyString -> isEmpty (String.concat sep (t :: ts)) = false.
Proof.
  intros H. destruct t as [|a t]; [congruence|]. destruct ts; reflexivity.
Qed.

End ListCellFacts.

(** X18.  [parseTags] and [parseGalleryUrls] return the entries of a cell
    without white space around them and without the empty ones; no entry
    contains the separator.  They read back what was written: a list of
    such entries joined with the separator, with or without a space behind
    it, parses to the list. *)
Theorem list_cells_round_trip :
  (forall cell t : string,
      (In t (Csv.parseTags cell) -> cleanEntry "," t)
      /\ (In t (Csv.parseGalleryUrls cell) -> cleanEntry ";" t))
  /\ (forall tags : list string,
         Forall (cleanEntry ",") tags ->
         Csv.parseTags (String.concat "," tags) = tags
         /\ Csv.parseTags (String.concat ", " tags) = tags)
  /\ (forall urls : list string,
         Forall (cleanEntry ";") urls ->
         Csv.parseGalleryUrls (String.concat ";" urls) = urls
         /\ Csv.parseGalleryUrls (String.concat "; " urls) = urls).
Proof.
  split; [|split].
  - intros cell t. unfold Csv.parseTags, Csv.parseGalleryUrls.
    destruct (Str.isEmpty cell); split; try contradiction; apply parsed_entries_clean.
  - intros tags Hall. unfold Csv.parseTags.
    destruct tags as [|t ts]; [now split|].
    inversion Hall as [|? ? (Hne & _) _]; subst.
    rewrite !(concat_not_empty _ t ts Hne).
    apply (joined_entries "," (t :: ts)); [discriminate | exact Hall].
  - intros urls Hall. unfold Csv.parseGalleryUrls.
    destruct urls as [|t ts]; [now split|].
    inversion Hall as [|? ? (Hne & _) _]; subst.
    rewrite !(concat_not_empty _ t ts Hne).
    apply (joined_entries ";" (t :: ts)); [discriminate | exact Hall].
Qed.

Lemma list_cells_round_trip_witness :
  Csv.parseTags (String.concat ", " ["brand strategy"; "UX"; "case study"]%string)
  = ["brand strategy"; "UX"; "case study"]%string.
Proof.
  apply (proj2 (proj1 (proj2 list_cells_round_trip)
                  ["brand strategy"; "UX"; "case study"]%string
                  ltac:(repeat constructor; try discriminate;
                        intros a Ha; cbn in Ha;
                        repeat (destruct Ha as [<-|Ha]; [discriminate|]); contradiction))).
Defined.

(** ** Dates of the CSV synchroniser *)

Section DateFacts.

Import Dates.



Lemma endsWith_app (suffix s : string) : endsWith suffix (s ++ suffix) = true.
Proof.
  unfold endsWith. rewrite <- !chars_length, chars_app, length_app.
  apply andb_true_iff. split; [apply Nat.leb_le; lia|].
  apply String.eqb_eq. rewrite !chars_length.
  replace (String.length s + String.length suffix - String.length suffix)
    with (String.length s) by lia.
  clear. induction s as [|a s IH]; cbn [append String.length substring].
  - induction suffix as [|b t IHt]; cbn [String.length substring]; [reflexivity|].
    now rewrite IHt.
  - exact IH.
Qed.

Lemma trim_not_empty_shape (s : string) :
  match Str.trim s with
  | EmptyString => True
  | String a t =>
      Chars.is_space a = false /\ Chars.is_space (last (list_ascii_of_string t) a) = false
  end.
Proof.
  unfold Str.trim.
  assert (Hs := trimStart_shape s). assert (He := trimEnd_shape (Str.trimStart s)).
  destruct (Str.trimEnd (Str.trimStart s)) as [|a t]; [exact I|].
  destruct He as [Hl (s' & Hs')]. rewrite Hs' in Hs. now split.
Qed.

Lemma last_app_one (l : list ascii) (a b : ascii) : last (l ++ [b]) a = b.
Proof. apply last_last. Qed.

End DateFacts.


Section GmtFacts.

Import Dates.

Lemma normalizeWpGmt_fixed (v : string) :
  v <> EmptyString -> Str.trim v = v -> endsWith "Z" v = true -> normalizeWpGmt v = v.
Proof.
  intros Hne Htrim Hz. unfold normalizeWpGmt. cbv zeta. rewrite Htrim.
  destruct v; [congruence|]. cbn [Str.isEmpty]. now rewrite Hz.
Qed.

Lemma trim_with_Z (v : string) :
  v <> EmptyString -> Str.trim v = v -> Str.trim (v ++ "Z") = (v ++ "Z")%string.
Proof.
  intros Hne Htrim. assert (Hshape := trim_not_empty_shape v). rewrite Htrim in Hshape.
  destruct v as [|a t]; [congruence|]. destruct Hshape as [Ha _].
  apply trim_trimmed. cbn [append]. split; [exact Ha|].
  rewrite chars_app. cbn [list_ascii_of_string].
  now rewrite (last_app_one (list_ascii_of_string t) a "Z").
Qed.

End GmtFacts.

(** X20.  [normalizeWpGmt] returns the empty string for a blank value and
    otherwise the trimmed value with a single [Z] ensured at its end; it
    is idempotent, and white space around the value does not matter. *)
Theorem gmt_normalisation_is_idempotent :
  forall dateGmt : string,
    Dates.normalizeWpGmt (Dates.normalizeWpGmt dateGmt) = Dates.normalizeWpGmt dateGmt
    /\ Dates.normalizeWpGmt (Str.trim dateGmt) = Dates.normalizeWpGmt dateGmt
    /\ (Str.trim dateGmt = EmptyString -> Dates.normalizeWpGmt dateGmt = EmptyString)
    /\ (Str.trim dateGmt <> EmptyString ->
        Dates.endsWith "Z" (Dates.normalizeWpGmt dateGmt) = true
        /\ (Dates.normalizeWpGmt dateGmt = Str.trim dateGmt
            \/ Dates.normalizeWpGmt dateGmt = (Str.trim dateGmt ++ "Z")%string)).
Proof.
  intros dateGmt.
  assert (Htrim : Dates.normalizeWpGmt (Str.trim dateGmt) = Dates.normalizeWpGmt dateGmt).
  { unfold Dates.normalizeWpGmt. now rewrite trim_idempotent. }
  assert (Hcases : Str.trim dateGmt = EmptyString /\ Dates.normalizeWpGmt dateGmt = EmptyString
                   \/ Str.trim dateGmt <> EmptyString
                      /\ Dates.endsWith "Z" (Dates.normalizeWpGmt dateGmt) = true
                      /\ Str.trim (Dates.normalizeWpGmt dateGmt) = Dates.normalizeWpGmt dateGmt
                      /\ Dates.normalizeWpGmt dateGmt <> EmptyString
                      /\ (Dates.normalizeWpGmt dateGmt = Str.trim dateGmt
                          \/ Dates.normalizeWpGmt dateGmt = (Str.trim dateGmt ++ "Z")%string)).
  { unfold Dates.normalizeWpGmt. cbv zeta.
    destruct (Str.trim dateGmt) as [|a v] eqn:Hv; [now left|]. right.
    split; [discriminate|]. cbn [Str.isEmpty].
    destruct (Dates.endsWith "Z" (String a v)) eqn:Hz.
    - split; [exact Hz|]. split; [rewrite <- Hv; apply trim_idempotent|].
      split; [discriminate | now left].
    - split; [apply endsWith_app|]. split.
      + apply trim_with_Z; [discriminate|]. rewrite <- Hv. apply trim_idempotent.
      + split; [discriminate | now right]. }
  split; [|split; [exact Htrim|]].
  - destruct Hcases as [[_ ->]|(_ & Hz & Ht & Hne & _)]; [reflexivity|].
    now apply normalizeWpGmt_fixed.
  - destruct Hcases as [[He Hn]|(Hne & Hz & _ & _ & Hor)]; split; try tauto; congruence.
Qed.

Lemma gmt_normalisation_is_idempotent_witness :
  Dates.endsWith "Z" (Dates.normalizeWpGmt " 2024-06-01T09:00:00 ") = true
  /\ (Dates.normalizeWpGmt " 2024-06-01T09:00:00 " = Str.trim " 2024-06-01T09:00:00 "
      \/ Dates.normalizeWpGmt " 2024-06-01T09:00:00 "
         = (Str.trim " 2024-06-01T09:00:00 " ++ "Z")%string).
Proof.
  apply (proj2 (proj2 (proj2 (gmt_normalisation_is_idempotent " 2024-06-01T09:00:00 ")))).
  discriminate.
Defined.

(** X21.  Every file that [isOriginalFile] accepts for upload is sent with
    a media type of its own: [getMimeType] gives an image type or
    [application/pdf] for it, never the fallback
    [application/octet-stream]; the extension is compared without regard
    to letter case. *)
Theorem accepted_files_have_a_media_type :
  forall (extname : string -> string) (filename : string),
    Upload.isOriginalFile extname filename = true ->
    In (Upload.getMimeType extname filename)
       ["image/jpeg"; "image/png"; "image/webp"; "image/gif"; "application/pdf"]%string
    /\ Upload.getMimeType extname filename <> "application/octet-stream"%string
    /\ Str.startsWith "." filename = false.
Proof.
  intros extname filename. unfold Upload.isOriginalFile, Upload.getMimeType. cbv zeta.
  destruct (Str.startsWith "." filename); [discriminate|].
  destruct (Str.startsWith "thumbnail_" filename); [discriminate|].
  destruct (Str.startsWith "small_" filename); [discriminate|].
  destruct (Str.startsWith "medium_" filename); [discriminate|].
  destruct (Str.startsWith "large_" filename); [discriminate|].
  intros H. apply existsb_exists in H. destruct H as (ext & Hin & Heq).
  apply String.eqb_eq in Heq. rewrite Heq.
  cbn in Hin.
  repeat (destruct Hin as [<-|Hin];
          [cbn; split; [tauto | split; [discriminate | reflexivity]]|]).
  contradiction.
Qed.

Lemma accepted_files_have_a_media_type_witness :
  In (Upload.getMimeType (fun _ => ".JPG"%string) "team-photo.JPG")
     ["image/jpeg"; "image/png"; "image/webp"; "image/gif"; "application/pdf"]%string
  /\ Upload.getMimeType (fun _ => ".JPG"%string) "team-photo.JPG"
     <> "application/octet-stream"%string
  /\ Str.startsWith "." "team-photo.JPG" = false.
Proof.
  apply (accepted_files_have_a_media_type (fun _ => ".JPG"%string) "team-photo.JPG").
  reflexivity.
Defined.

(** ** Patching the strings of a value *)

Section PatchFacts.

Import Js Patch.

Variable patchFn : string -> string.

(** Induction on values, with the entries of arrays and objects. *)
Lemma value_induction (P : value -> Prop) :
  P Undefined -> P Null -> (forall b, P (Bool b)) -> (forall n, P (Num n)) ->
  (forall s, P (Str s)) ->
  (forall items, Forall P items -> P (Arr items)) ->
  (forall props, Forall (fun kv => P (snd kv)) props -> P (Obj props)) ->
  forall v, P v.
Proof.
  intros Hu Hn Hb Hnum Hs Ha Ho.
  fix IH 1. intros [| |b|n|s|items|props].
  - exact Hu.
  - exact Hn.
  - apply Hb.
  - apply Hnum.
  - apply Hs.
  - apply Ha. induction items as [|x items IHl]; constructor; [apply IH | exact IHl].
  - apply Ho. induction props as [|[k x] props IHl]; constructor; [apply IH | exact IHl].
Qed.

Lemma ordinary_items (items : list value) :
  ordinary (Arr items) -> Forall ordinary items.
Proof.
  cbn [ordinary]. induction items as [|x items IH]; intros H; constructor.
  - now destruct H.
  - apply IH. now destruct H.
Qed.

Lemma ordinary_props (props : list (string * value)) :
  ordinary (Obj props) ->
  NoDup (map fst props) /\ ~ In "__proto__"%string (map fst props)
  /\ Forall (fun kv => ordinary (snd kv)) props.
Proof.
  cbn [ordinary]. intros (Hnd & Hproto & Hall). split; [exact Hnd|]. split; [exact Hproto|].
  clear Hnd Hproto. induction props as [|[k x] props IH]; constructor.
  - now destruct Hall.
  - apply IH. now destruct Hall.
Qed.

Lemma define_absent (k : string) (v : value) (props : list (string * value)) :
  ~ In k (map fst props) -> define k v props = props ++ [(k, v)].
Proof.
  induction props as [|[k' x] props IH]; intros Hn; [reflexivity|].
  cbn [define]. destruct (String.eqb_spec k' k) as [->|Hne].
  - exfalso. apply Hn. now left.
  - cbn [app]. f_equal. apply IH. intros Hin. apply Hn. now right.
Qed.

(** Assigning properties with distinct ordinary names lists them in
    order. *)
Lemma fold_assign_distinct (res : list (string * (value * bool))) :
  forall acc : list (string * value),
    NoDup (map fst acc ++ map fst res) ->
    ~ In "__proto__"%string (map fst res) ->
    fold_left (fun next kr => assign (fst kr) (fst (snd kr)) next) res acc
    = acc ++ map (fun kr => (fst kr, fst (snd kr))) res.
Proof.
  induction res as [|[k r] res IH]; intros acc Hnd Hproto; cbn [fold_left map].
  - now rewrite app_nil_r.
  - cbn [fst snd map] in *.
    assert (Hk : k <> "__proto__"%string) by (intros ->; apply Hproto; now left).
    unfold assign at 2. apply String.eqb_neq in Hk. rewrite Hk.
    rewrite define_absent.
    + rewrite IH.
      * now rewrite <- app_assoc.
      * rewrite map_app. cbn [map fst]. now rewrite <- app_assoc.
      * intros Hin. apply Hproto. now right.
    + apply NoDup_remove_2 in Hnd. intros Hin. apply Hnd. apply in_or_app. now left.
Qed.

Lemma existsb_map (A B : Type) (f : B -> bool) (g : A -> B) (l : list A) :
  existsb f (map g l) = existsb (fun x => f (g x)) l.
Proof. induction l as [|a l IH]; cbn [map existsb]; [reflexivity | now rewrite IH]. Qed.

Lemma map_fixed (A : Type) (f : A -> A) (l : list A) :
  map f l = l -> forall x, In x l -> f x = x.
Proof.
  induction l as [|a l IH]; intros H x Hx; [contradiction|].
  cbn [map] in H. injection H as Ha Hl. destruct Hx as [<-|Hx]; [exact Ha | now apply IH].
Qed.

(** The flag of a patched value is exact. *)
Lemma patch_flag_exact (obj : value) :
  ordinary obj ->
  (snd (patchObjectStrings patchFn obj) = false -> fst (patchObjectStrings patchFn obj) = obj)
  /\ (snd (patchObjectStrings patchFn obj) = true -> fst (patchObjectStrings patchFn obj) <> obj).
Proof.
  induction obj as [| |b|n|s|items IH|props IH] using value_induction; intros Hord;
    cbn [patchObjectStrings fst snd]; try (split; [reflexivity | discriminate]).
  - split.
    + intros H. apply negb_false_iff, String.eqb_eq in H. now rewrite H.
    + intros H Heq. apply negb_true_iff, String.eqb_neq in H. congruence.
  - apply ordinary_items in Hord. rewrite map_map. split.
    + intros H. f_equal. rewrite <- (map_id items) at 2. apply map_ext_in.
      intros x Hx. rewrite Forall_forall in IH, Hord.
      apply (IH x Hx (Hord x Hx)).
      destruct (snd (patchObjectStrings patchFn x)) eqn:Hs; [|reflexivity].
      rewrite existsb_map in H.
      assert (Hex : existsb (fun y => snd (patchObjectStrings patchFn y)) items = true).
      { apply existsb_exists. now exists x. }
      congruence.
    + intros H Heq. injection Heq as Heq. rewrite existsb_map in H.
      apply existsb_exists in H. destruct H as (x & Hx & Hs).
      rewrite Forall_forall in IH, Hord.
      apply (proj2 (IH x Hx (Hord x Hx)) Hs).
      now apply (map_fixed _ (fun y => fst (patchObjectStrings patchFn y)) items).
  - apply ordinary_props in Hord. destruct Hord as (Hnd & Hproto & Hord).
    set (res := map (fun kv : string * value =>
                       let (k, v) := kv in (k, patchObjectStrings patchFn v)) props).
    assert (Hkeys : map fst res = map fst props).
    { unfold res. rewrite map_map. apply map_ext. now intros [k v]. }
    rewrite (fold_assign_distinct res []);
      [|cbn [map app]; now rewrite Hkeys | now rewrite Hkeys].
    cbn [app]. unfold res. rewrite map_map, existsb_map.
    rewrite Forall_forall in IH, Hord. split.
    + intros H. f_equal. rewrite <- (map_id props) at 2. apply map_ext_in.
      intros [k v] Hin. cbn [fst snd]. f_equal.
      apply (IH (k, v) Hin (Hord (k, v) Hin)). cbn [snd].
      destruct (snd (patchObjectStrings patchFn v)) eqn:Hs; [|reflexivity].
      assert (Hex : existsb (fun kv : string * value =>
                               snd (snd (let (k0, v0) := kv in
                                         (k0, patchObjectStrings patchFn v0)))) props = true).
      { apply existsb_exists. exists (k, v). now split. }
      congruence.
    + intros H Heq. injection Heq as Heq.
      apply existsb_exists in H. destruct H as ([k v] & Hin & Hs). cbn [snd] in Hs.
      apply (proj2 (IH (k, v) Hin (Hord (k, v) Hin)) Hs).
      assert (Hfix := map_fixed _ _ props Heq (k, v) Hin). cbn [fst snd] in Hfix.
      now injection Hfix.
Qed.

End PatchFacts.

(** X22.  The [changed] flag of [patchObjectStrings] is exact: for a value
    whose objects have distinct property names, none of them [__proto__],
    the flag is [false] exactly when the patched value equals the value;
    in particular a patch that changes no string leaves everything as it
    is. *)
Theorem patch_flag_is_exact :
  forall (patchFn : string -> string) (obj : Js.value),
    ordinary obj ->
    (snd (Patch.patchObjectStrings patchFn obj) = false
     <-> fst (Patch.patchObjectStrings patchFn obj) = obj)
    /\ ((forall s, patchFn s = s) ->
        Patch.patchObjectStrings patchFn obj = (obj, false)).
Proof.
  intros patchFn obj Hord. destruct (patch_flag_exact patchFn obj Hord) as [Hf Ht].
  assert (Hiff : snd (Patch.patchObjectStrings patchFn obj) = false
                 <-> fst (Patch.patchObjectStrings patchFn obj) = obj).
  { split; [exact Hf|]. intros Heq.
    destruct (snd (Patch.patchObjectStrings patchFn obj)) eqn:Hs; [|reflexivity].
    exfalso. now apply Ht. }
  split; [exact Hiff|].
  intros Hid.
  assert (Hflag : forall v, snd (Patch.patchObjectStrings patchFn v) = false).
  { clear -Hid. induction v as [| |b|n|s|items IH|props IH] using value_induction;
      cbn [Patch.patchObjectStrings snd]; try reflexivity.
    - rewrite Hid. now rewrite String.eqb_refl.
    - rewrite existsb_map. apply not_true_iff_false. intros H.
      apply existsb_exists in H. destruct H as (x & Hx & Hs).
      rewrite Forall_forall in IH. rewrite (IH x Hx) in Hs. discriminate.
    - rewrite existsb_map. apply not_true_iff_false. intros H.
      apply existsb_exists in H. destruct H as ([k v] & Hin & Hs).
      rewrite Forall_forall in IH. cbn [snd] in Hs.
      assert (Hv := IH (k, v) Hin). cbn [snd] in Hv. congruence. }
  rewrite (surjective_pairing (Patch.patchObjectStrings patchFn obj)).
  rewrite (proj1 Hiff (Hflag obj)), (Hflag obj). reflexivity.
Qed.

Lemma patch_flag_is_exact_witness :
  snd (Patch.patchObjectStrings Str.trim
         (Js.Obj [("title"%string, Js.Str "Annual report");
                  ("blocks"%string, Js.Arr [Js.Str " intro "; Js.Num 3])])) = false
  <-> fst (Patch.patchObjectStrings Str.trim
             (Js.Obj [("title"%string, Js.Str "Annual report");
                      ("blocks"%string, Js.Arr [Js.Str " intro "; Js.Num 3])]))
      = Js.Obj [("title"%string, Js.Str "Annual report");
                ("blocks"%string, Js.Arr [Js.Str " intro "; Js.Num 3])].
Proof.
  apply (proj1 (patch_flag_is_exact Str.trim
                  (Js.Obj [("title"%string, Js.Str "Annual report");
                           ("blocks"%string, Js.Arr [Js.Str " intro "; Js.Num 3])])
                  ltac:(cbn; repeat split;
                        [repeat constructor; cbn; intuition discriminate
                        | intuition discriminate]))).
Defined.

(** ** Strapi entries *)

Section EntryFacts.

Import Js Media Entry.










End EntryFacts.



(** ** The local environment files *)

Section EnvTables.

Import Env.

Lemma get_set_same (k v : string) (t : table) : get k (set k v t) = Some v.
Proof.
  induction t as [|[k' x] t IH]; cbn [set get].
  - now rewrite String.eqb_refl.
  - destruct (String.eqb_spec k' k) as [->|Hne]; cbn [get].
    + now rewrite String.eqb_refl.
    + apply String.eqb_neq in Hne. now rewrite Hne.
Qed.

Lemma get_set_other (k k' v : string) (t : table) :
  k' <> k -> get k' (set k v t) = get k' t.
Proof.
  intros Hne. induction t as [|[k0 x] t IH]; cbn [set get].
  - apply not_eq_sym in Hne. apply String.eqb_neq in Hne. now rewrite Hne.
  - destruct (String.eqb_spec k0 k) as [->|Hk]; cbn [get].
    + apply not_eq_sym in Hne. apply String.eqb_neq in Hne. now rewrite Hne.
    + now rewrite IH.
Qed.

Lemma get_set (k k' v : string) (t : table) :
  get k' (set k v t) = if String.eqb k k' then Some v else get k' t.
Proof.
  destruct (String.eqb_spec k k') as [->|Hne].
  - apply get_set_same.
  - apply get_set_other. congruence.
Qed.

Lemma get_none_keys (k : string) (t : table) :
  get k t = None <-> ~ In k (map fst t).
Proof.
  induction t as [|[k' x] t IH]; cbn [get map fst In]; [tauto|].
  destruct (String.eqb_spec k' k) as [->|Hne].
  - split; [discriminate | tauto].
  - rewrite IH. tauto.
Qed.

Lemma set_keys (k v : string) (t : table) :
  map fst (set k v t)
  = match get k t with
    | Some _ => map fst t
    | None => map fst t ++ [k]
    end.
Proof.
  induction t as [|[k' x] t IH]; cbn [set get map fst app]; [reflexivity|].
  destruct (String.eqb_spec k' k) as [->|Hne]; [reflexivity|].
  cbn [map fst]. rewrite IH. now destruct (get k t).
Qed.

Lemma set_distinct (k v : string) (t : table) :
  NoDup (map fst t) -> NoDup (map fst (set k v t)).
Proof.
  intros H. rewrite set_keys. destruct (get k t) eqn:Hg; [exact H|].
  apply get_none_keys in Hg.
  apply NoDup_rev in H. rewrite <- (rev_involutive (map fst t ++ [k])).
  apply NoDup_rev. rewrite rev_app_distr. cbn [rev app].
  constructor; [|exact H]. now rewrite <- in_rev.
Qed.

Lemma set_all (P : string -> string -> Prop) (k v : string) (t : table) :
  P k v -> Forall (fun kv => P (fst kv) (snd kv)) t ->
  Forall (fun kv => P (fst kv) (snd kv)) (set k v t).
Proof.
  intros Hk Ht. induction Ht as [|[k' x] t Hx Ht IH]; cbn [set].
  - now constructor.
  - destruct (String.eqb_spec k' k) as [->|Hne]; constructor; auto.
Qed.

Lemma get_in (k v : string) (t : table) : get k t = Some v -> In (k, v) t.
Proof.
  induction t as [|[k' x] t IH]; cbn [get]; [discriminate|].
  destruct (String.eqb_spec k' k) as [->|Hne].
  - intros [= ->]. now left.
  - intros H. right. now apply IH.
Qed.

Lemma merge_distinct (be fe : table) :
  NoDup (map fst be) -> NoDup (map fst (merge be fe)).
Proof.
  unfold merge. revert be. induction fe as [|[k v] fe IH]; intros be H; [exact H|].
  cbn [fold_left fst snd]. apply IH. now apply set_distinct.
Qed.

(** The spread of the frontend object over the backend object holds the
    frontend value of a key both have. *)
Lemma get_merge (k : string) (be fe : table) :
  NoDup (map fst fe) ->
  get k (merge be fe)
  = match get k fe with
    | Some v => Some v
    | None => get k be
    end.
Proof.
  unfold merge. revert be. induction fe as [|[k' v] fe IH]; intros be Hd; [reflexivity|].
  cbn [fold_left fst snd get map] in *. inversion Hd as [|? ? Hnotin Hd']; subst.
  rewrite (IH _ Hd'). rewrite get_set.
  destruct (String.eqb_spec k' k) as [->|Hne]; [|reflexivity].
  apply get_none_keys in Hnotin. now rewrite Hnotin.
Qed.

Lemma isSet_set_other (k k' v : string) (t : table) :
  k' <> k -> isSet k' (set k v t) = isSet k' t.
Proof. intros H. unfold isSet. now rewrite get_set_other. Qed.

(** The loop over the entries: a variable that is set stays; one that is
    not takes the value of its entry unless that is empty. *)
Lemma get_fill (k : string) (entries env : table) :
  NoDup (map fst entries) ->
  get k (fill entries env)
  = if isSet k env then get k env
    else match get k entries with
         | Some v => if Str.isEmpty v then get k env else Some v
         | None => get k env
         end.
Proof.
  unfold fill. revert env. induction entries as [|[k' v] es IH]; intros env Hd.
  - cbn [fold_left get]. now destruct (isSet k env).
  - cbn [fold_left fst snd get map] in *. inversion Hd as [|? ? Hnotin Hd']; subst.
    rewrite (IH _ Hd'). clear IH.
    destruct (String.eqb_spec k' k) as [->|Hne].
    + apply get_none_keys in Hnotin. rewrite Hnotin.
      destruct (isSet k env) eqn:Hs; cbn [negb andb]; [now rewrite Hs|].
      destruct (Str.isEmpty v) eqn:Hv; cbn [negb]; [now rewrite Hs|].
      unfold isSet at 1. rewrite get_set_same, Hv. reflexivity.
    + assert (Hk : k <> k') by congruence.
      destruct (negb (isSet k' env) && negb (Str.isEmpty v)); [|reflexivity].
      now rewrite (isSet_set_other _ _ _ _ Hk), (get_set_other _ _ _ _ Hk).
Qed.

End EnvTables.

Section EnvLineFacts.

Import Env Str.

Lemma indexOf_prefix (c : ascii) (s : string) :
  forall i, indexOf c s = Some i -> lacks c (substring 0 i s).
Proof.
  induction s as [|a s IH]; intros i; cbn [indexOf]; [discriminate|].
  destruct (Ascii.eqb_spec a c) as [->|Hne].
  - intros [= <-]. intros b [].
  - destruct (indexOf c s) as [j|]; [|discriminate]. cbn [option_map].
    intros [= <-]. cbn [substring]. intros b [<-|Hb]; [exact Hne|].
    now apply (IH j eq_refl).
Qed.

Lemma indexOf_app (c : ascii) (k t : string) :
  lacks c k -> indexOf c (k ++ String c t) = Some (String.length k).
Proof.
  induction k as [|a k IH]; intros Hk; cbn [append indexOf String.length].
  - now rewrite Ascii.eqb_refl.
  - assert (Ha : a <> c) by (apply Hk; now left).
    apply Ascii.eqb_neq in Ha. rewrite Ha, IH; [reflexivity|].
    intros b Hb. apply Hk. now right.
Qed.

Lemma substring_whole (s : string) : substring 0 (String.length s) s = s.
Proof. induction s as [|a s IH]; cbn [substring String.length]; [reflexivity | now rewrite IH]. Qed.

Lemma substring_app_prefix (k t : string) :
  substring 0 (String.length k) (k ++ t)%string = k.
Proof.
  induction k as [|a k IH]; cbn [append String.length substring].
  - now destruct t.
  - now rewrite IH.
Qed.

Lemma substring_app_suffix (k t : string) (n : nat) :
  substring (String.length k + n) (String.length t - n) (k ++ t)%string
  = substring n (String.length t - n) t.
Proof. induction k as [|a k IH]; cbn [append String.length substring Nat.add]; [reflexivity | exact IH]. Qed.

Lemma startsWith_hash (c : ascii) (s t : string) :
  startsWith "#" (String c s) = startsWith "#" (String c t).
Proof.
  unfold startsWith. cbn [prefix]. destruct (ascii_dec "#" c); [|reflexivity].
  now destruct s, t.
Qed.

Lemma trim_head (c : ascii) (t : string) :
  Chars.is_space c = false -> exists t', trim (String c t) = String c t'.
Proof.
  intros Hc. unfold trim. cbn [trimStart]. rewrite Hc.
  assert (H := trimEnd_shape (String c t)). rewrite trimEnd_cons in *.
  destruct (trimEnd t) as [|b u].
  - rewrite Hc. now exists ""%string.
  - now exists (String b u).
Qed.

(** What a line binds is clean. *)
Lemma parseLine_clean (rawLine k v : string) :
  parseLine rawLine = Some (k, v) -> cleanKey k /\ trim v = v.
Proof.
  unfold parseLine. cbv zeta.
  assert (Hshape := trim_not_empty_shape rawLine).
  destruct (trim rawLine) as [|c rest] eqn:Hline; [discriminate|].
  destruct Hshape as [Hc _]. cbn [isEmpty orb].
  destruct (startsWith "#" (String c rest)) eqn:Hhash; [discriminate|].
  destruct (indexOf "=" (String c rest)) as [idx|] eqn:Hidx; [|discriminate].
  destruct (isEmpty (trim (slice 0 idx (String c rest)))) eqn:He; [discriminate|].
  intros [= <- <-]. split; [|apply trim_idempotent].
  unfold slice in *. rewrite Nat.sub_0_r in *.
  repeat split.
  - intros H. now rewrite H in He.
  - apply trim_idempotent.
  - intros a Ha. apply trim_incl in Ha. now apply (indexOf_prefix _ _ _ Hidx).
  - destruct idx as [|i]; [discriminate|]. cbn [substring] in *.
    destruct (trim_head c (substring 0 i rest) Hc) as (t' & ->).
    now rewrite (startsWith_hash c t' rest).
Qed.

Lemma last_behind (A : Type) (l m : list A) (c a : A) :
  last (l ++ c :: m) a = last m c.
Proof.
  induction l as [|b l IH]; cbn [app].
  - apply last_cons.
  - rewrite <- IH. destruct l; reflexivity.
Qed.

(** A line of the form key=value binds the key to the value. *)
Lemma parseLine_binding (k v : string) :
  cleanKey k -> trim v = v -> parseLine (k ++ "=" ++ v)%string = Some (k, v).
Proof.
  intros (Hne & Htrim & Hlacks & Hhash) Hv.
  assert (Hline : trim (k ++ "=" ++ v)%string = (k ++ "=" ++ v)%string).
  { apply trim_trimmed.
    assert (Hk := trim_not_empty_shape k). rewrite Htrim in Hk.
    destruct k as [|a t]; [congruence|]. destruct Hk as [Ha _].
    cbn [append]. split; [exact Ha|].
    rewrite chars_app. cbn [list_ascii_of_string append].
    rewrite last_behind.
    assert (Hs := trim_not_empty_shape v). rewrite Hv in Hs.
    destruct v as [|b u]; [reflexivity|]. destruct Hs as [_ Hl].
    cbn [list_ascii_of_string]. now rewrite last_cons. }
  unfold parseLine. cbv zeta. rewrite Hline.
  destruct k as [|a t]; [congruence|].
  cbn [append isEmpty orb].
  change (String a (t ++ String "=" v)%string) with (String a t ++ String "=" v)%string.
  replace (startsWith "#" (String a t ++ String "=" v)%string) with false
    by (symmetry; etransitivity;
        [exact (startsWith_hash a (t ++ String "=" v)%string t) | exact Hhash]).
  rewrite (indexOf_app "=" (String a t) v Hlacks).
  unfold slice, sliceFrom. rewrite Nat.sub_0_r, substring_app_prefix, Htrim.
  cbn [isEmpty].
  replace (String.length (String a t ++ String "=" v)%string - (String.length (String a t) + 1))
    with (String.length (String "=" v) - 1)
    by (rewrite <- !chars_length, chars_app, length_app; lia).
  rewrite substring_app_suffix. cbn [String.length substring Nat.sub].
  rewrite Nat.sub_0_r, substring_whole, Hv. reflexivity.
Qed.

Lemma parseLine_comment (t : string) : parseLine ("#" ++ t)%string = None.
Proof.
  unfold parseLine. cbv zeta. cbn [append].
  destruct (trim_head "#" t eq_refl) as (t' & ->).
  unfold startsWith. cbn [isEmpty orb prefix]. now destruct t'.
Qed.

Lemma parseLine_render (l : envLine) :
  wellFormed l ->
  parseLine (render l)
  = match l with
    | Binding k v => Some (k, v)
    | _ => None
    end.
Proof.
  destruct l as [k v|t|]; cbn [wellFormed render].
  - intros (Hk & _ & Hv & _). now apply parseLine_binding.
  - intros _. apply parseLine_comment.
  - reflexivity.
Qed.

End EnvLineFacts.

Section LineBreakFacts.

Import Env Chars Str Re.

Lemma opt_cr (k : mstate -> option mstate) (x : mstate) :
  m plain (opt (Chr CR)) k x
  = match step_if (chr_match plain CR) k x with
    | Some z => Some z
    | None => k x
    end.
Proof.
  unfold opt. rewrite (quant_greedy plain (Chr CR) _ (Some 1) _ _ (single_chr plain CR)).
  cbn [max_is_zero dec_max Nat.pred]. f_equal.
  unfold step_if. destruct (after x) as [|a l]; [reflexivity|].
  destruct (chr_match plain CR a); [|reflexivity].
  rewrite (quant_greedy plain (Chr CR) _ (Some 0) _ _ (single_chr plain CR)). reflexivity.
Qed.

Lemma lineBreak_here (bef l : list ascii) :
  match_here plain lineBreak bef l
  = match l with
    | a :: l' =>
        if Ascii.eqb a LF
        then Some {| index := length bef; matched := String LF EmptyString; groups := [];
                     rest := l'; upto := a :: bef |}
        else if Ascii.eqb a CR
        then match l' with
             | b :: l'' =>
                 if Ascii.eqb b LF
                 then Some {| index := length bef;
                              matched := String CR (String LF EmptyString);
                              groups := []; rest := l''; upto := b :: a :: bef |}
                 else None
             | [] => None
             end
        else None
    | [] => None
    end.
Proof.
  unfold match_here, lineBreak. rewrite m_Seq, opt_cr.
  unfold step_if, start_state. cbn [after].
  destruct l as [|a l']; [now rewrite m_Chr|].
  rewrite chr_match_plain.
  destruct (Ascii.eqb_spec a LF) as [->|Hlf].
  - cbn [Ascii.eqb Bool.eqb CR LF]. change (Ascii.eqb LF CR) with false. cbv iota.
    rewrite step_chr by reflexivity.
    unfold result_of. cbn [before after caps pos].
    rewrite (consumed_app _ _ [LF]); reflexivity.
  - destruct (Ascii.eqb_spec a CR) as [->|Hcr].
    + unfold advance. cbn [before after caps].
      destruct l' as [|b l''].
      * rewrite m_Chr. unfold step_if. cbn [after].
        rewrite stop_chr by reflexivity. reflexivity.
      * destruct (Ascii.eqb_spec b LF) as [->|Hb].
        -- rewrite step_chr by reflexivity.
           unfold result_of. cbn [before after caps pos].
           rewrite (consumed_app _ _ [CR; LF]); reflexivity.
        -- rewrite stop_chr by (rewrite chr_match_plain; now apply Ascii.eqb_neq).
           rewrite stop_chr by reflexivity. reflexivity.
    + rewrite stop_chr by (rewrite chr_match_plain; now apply Ascii.eqb_neq).
      reflexivity.
Qed.

End LineBreakFacts.

Section LineSplitFacts.

Import Env Chars Str Re.

Lemma any_match_plain (a : ascii) :
  any_match a = true -> Ascii.eqb a LF = false /\ Ascii.eqb a CR = false.
Proof. destruct a as [[] [] [] [] [] [] [] []]; cbn; intros H; try discriminate; now split. Qed.

Lemma lineBreak_miss (bef l : list ascii) (a : ascii) :
  any_match a = true -> match_here plain lineBreak bef (a :: l) = None.
Proof.
  intros H. destruct (any_match_plain a H) as [Hlf Hcr].
  now rewrite lineBreak_here, Hlf, Hcr.
Qed.

(** Inside a line nothing is cut. *)
Lemma split_loop_line (line : list ascii) :
  forallb any_match line = true ->
  forall n bef piece tail,
    split_loop (length line + n) plain lineBreak bef piece (line ++ tail)
    = split_loop n plain lineBreak (rev line ++ bef) (rev line ++ piece) tail.
Proof.
  induction line as [|a line IH]; intros Hall n bef piece tail; [reflexivity|].
  cbn [forallb] in Hall. apply andb_true_iff in Hall. destruct Hall as [Ha Hall].
  cbn [length Nat.add app split_loop]. rewrite (lineBreak_miss _ _ _ Ha).
  rewrite (IH Hall). cbn [rev]. now rewrite <- !app_assoc.
Qed.

Lemma lineEnd_cut (windows : bool) (bef tail : list ascii) :
  exists mr,
    match_here plain lineBreak bef (list_ascii_of_string (lineEnd windows) ++ tail) = Some mr
    /\ isEmpty (matched mr) = false /\ rest mr = tail.
Proof.
  destruct windows; cbn [lineEnd list_ascii_of_string app]; rewrite lineBreak_here;
    cbn; eexists; repeat split.
Qed.

Lemma split_loop_lines (windows : bool) (ls : list string) :
  Forall (fun l => singleLine l = true) ls ->
  forall (l0 : list ascii) n bef piece,
    forallb any_match l0 = true ->
    length (l0 ++ joinedLines windows ls) < n ->
    split_loop n plain lineBreak bef piece (l0 ++ joinedLines windows ls)
    = string_of_list_ascii (rev piece ++ l0) :: ls.
Proof.
  intros Hall. induction Hall as [|l ls Hl Hls IH]; intros l0 n bef piece H0 Hn.
  - cbn [joinedLines flat_map] in *. rewrite length_app in Hn. cbn [length] in Hn.
    replace n with (length l0 + (n - length l0)) by lia.
    rewrite (split_loop_line l0 H0).
    destruct (n - length l0) as [|n'] eqn:Hd; [lia|].
    cbn [split_loop]. now rewrite rev_app_distr, rev_involutive.
  - cbn [joinedLines flat_map] in *. fold (joinedLines windows ls) in *.
    rewrite length_app in Hn.
    replace n with (length l0 + (n - length l0)) by lia.
    rewrite (split_loop_line l0 H0).
    rewrite <- app_assoc.
    destruct (lineEnd_cut windows (rev l0 ++ bef)
                (list_ascii_of_string l ++ joinedLines windows ls))
      as (mr & Hm & Hne & Hrest).
    assert (Hlen : 0 < length (list_ascii_of_string (lineEnd windows))) by (destruct windows; cbn; lia).
    rewrite !length_app in Hn.
    destruct (n - length l0) as [|n'] eqn:Hd; [lia|].
    destruct (list_ascii_of_string (lineEnd windows)
              ++ list_ascii_of_string l ++ joinedLines windows ls) as [|a aft'] eqn:Haft.
    { destruct windows; discriminate. }
    cbn [split_loop]. rewrite Hm, Hne, andb_false_r, Hrest.
    rewrite rev_app_distr, rev_involutive. f_equal.
    rewrite (IH (list_ascii_of_string l) n' (upto mr) []); [| exact Hl |].
    + cbn [rev app]. now rewrite string_of_list_ascii_of_string.
    + rewrite length_app. destruct windows; cbn [lineEnd list_ascii_of_string length] in *; lia.
Qed.

Lemma chars_joined (windows : bool) (l : string) (ls : list string) :
  list_ascii_of_string (String.concat (lineEnd windows) (l :: ls))
  = list_ascii_of_string l ++ joinedLines windows ls.
Proof.
  revert l. induction ls as [|l' ls IH]; intros l.
  - cbn [String.concat joinedLines flat_map]. now rewrite app_nil_r.
  - change (String.concat (lineEnd windows) (l :: l' :: ls))
      with (l ++ lineEnd windows ++ String.concat (lineEnd windows) (l' :: ls))%string.
    rewrite !chars_app, IH. cbn [joinedLines flat_map]. now rewrite <- app_assoc.
Qed.

(** Lines joined by line ends are split into the lines again. *)
Lemma split_joined (windows : bool) (l : string) (ls : list string) :
  Forall (fun l => singleLine l = true) (l :: ls) ->
  split plain lineBreak (String.concat (lineEnd windows) (l :: ls)) = l :: ls.
Proof.
  intros Hall. inversion Hall as [|? ? Hl Hls]; subst.
  assert (Hchars := chars_joined windows l ls).
  unfold split.
  destruct (String.concat (lineEnd windows) (l :: ls)) as [|a t] eqn:Hs.
  - cbn [list_ascii_of_string] in Hchars. symmetry in Hchars.
    apply app_eq_nil in Hchars. destruct Hchars as [H1 H2].
    destruct l; [|discriminate]. destruct ls as [|l' ls]; [reflexivity|].
    destruct windows; discriminate.
  - rewrite Hchars.
    rewrite (split_loop_lines windows ls Hls (list_ascii_of_string l)); [| exact Hl |].
    + cbn [rev app]. now rewrite string_of_list_ascii_of_string.
    + rewrite <- Hchars, chars_length. lia.
Qed.

End LineSplitFacts.

Section DotEnvFacts.

Import Env Str.

Local Notation step :=
  (fun (out : table) (rawLine : string) =>
     match parseLine rawLine with
     | Some (key, value) => assign key value out
     | None => out
     end).

Local Notation clean :=
  (fun kv : string * string =>
     cleanKey (fst kv) /\ fst kv <> "__proto__"%string /\ trim (snd kv) = snd kv).

Lemma parse_fold_clean (lines : list string) :
  forall out,
    NoDup (map fst out) /\ Forall clean out ->
    NoDup (map fst (fold_left step lines out)) /\ Forall clean (fold_left step lines out).
Proof.
  induction lines as [|l lines IH]; intros out Hout; [exact Hout|].
  cbn [fold_left]. apply IH. destruct Hout as [Hd Hc].
  destruct (parseLine l) as [[k v]|] eqn:Hl; [|now split].
  destruct (parseLine_clean _ _ _ Hl) as [Hk Hv].
  unfold assign. destruct (String.eqb_spec k "__proto__") as [->|Hne]; [now split|].
  split; [now apply set_distinct|].
  apply (set_all (fun k v => cleanKey k /\ k <> "__proto__"%string /\ trim v = v)); auto.
Qed.

Lemma parseDotEnv_distinct (contents : option string) :
  NoDup (map fst (parseDotEnv contents)).
Proof. apply parse_fold_clean. split; constructor. Qed.

Lemma get_assign (k k' v : string) (out : table) :
  k' <> "__proto__"%string ->
  get k' (assign k v out) = if String.eqb k k' then Some v else get k' out.
Proof.
  intros Hp. unfold assign. destruct (String.eqb_spec k "__proto__") as [->|Hne].
  - apply not_eq_sym in Hp. apply String.eqb_neq in Hp. now rewrite Hp.
  - apply get_set.
Qed.

Lemma get_parse_fold (k : string) (lines : list envLine) :
  k <> "__proto__"%string -> Forall wellFormed lines ->
  forall out,
    get k (fold_left step (map render lines) out)
    = fold_left
        (fun acc l =>
           match l with
           | Binding k' v => if String.eqb k' k then Some v else acc
           | _ => acc
           end)
        lines (get k out).
Proof.
  intros Hp Hall. induction Hall as [|l lines Hl Hls IH]; intros out; [reflexivity|].
  cbn [map fold_left]. rewrite IH, (parseLine_render l Hl). f_equal.
  destruct l as [k' v|t|]; [|reflexivity|reflexivity].
  now apply get_assign.
Qed.

Lemma singleLine_app (s t : string) :
  singleLine (s ++ t)%string = singleLine s && singleLine t.
Proof. unfold singleLine. now rewrite chars_app, forallb_app. Qed.

Lemma render_singleLine (l : envLine) : wellFormed l -> singleLine (render l) = true.
Proof.
  destruct l as [k v|t|]; cbn [wellFormed render].
  - intros (_ & Hk & _ & Hv). now rewrite !singleLine_app, Hk, Hv.
  - intros Ht. now rewrite singleLine_app, Ht.
  - reflexivity.
Qed.

Lemma no_proto_entry (contents : option string) :
  get "__proto__" (parseDotEnv contents) = None.
Proof.
  destruct (get "__proto__" (parseDotEnv contents)) as [v|] eqn:Hg; [|reflexivity].
  apply get_in in Hg.
  assert (H : Forall clean (parseDotEnv contents))
    by (apply parse_fold_clean; split; constructor).
  rewrite Forall_forall in H. destruct (H _ Hg) as (_ & Hp & _). now elim Hp.
Qed.

End DotEnvFacts.

(** X24. The object that parseDotEnv returns has distinct keys; every key
    is not empty, has no white space at its ends, contains no equals sign,
    does not start with a number sign and is not __proto__; every value
    has no white space at its ends. *)
Theorem dotenv_entries_are_clean (contents : option string) :
  NoDup (map fst (Env.parseDotEnv contents))
  /\ Forall (fun kv => cleanKey (fst kv)
                       /\ fst kv <> "__proto__"%string
                       /\ Str.trim (snd kv) = snd kv)
            (Env.parseDotEnv contents).
Proof. apply parse_fold_clean. split; constructor. Qed.

(** X25. A file of lines key=value, comment lines and blank lines, with
    LF or CR LF between them, is read back: parseDotEnv binds a key to the
    value of the last line that binds it, and to nothing when no line
    does; the key __proto__ is never bound. *)
Theorem dotenv_reads_back_its_lines (windows : bool) (lines : list envLine) (k : string) :
  Forall wellFormed lines ->
  Env.get k (Env.parseDotEnv (Some (String.concat (lineEnd windows) (map render lines))))
  = if String.eqb k "__proto__" then None else lastBinding k lines.
Proof.
  intros Hall. destruct (String.eqb_spec k "__proto__") as [->|Hp]; [apply no_proto_entry|].
  unfold Env.parseDotEnv, Env.textOf, lastBinding.
  destruct lines as [|l lines]; [reflexivity|].
  cbn [map]. rewrite split_joined.
  - exact (get_parse_fold k (l :: lines) Hp Hall []).
  - change (render l :: map render lines) with (map render (l :: lines)).
    apply Forall_map. eapply Forall_impl; [|exact Hall].
    intros x. apply render_singleLine.
Qed.

Lemma dotenv_reads_back_its_lines_witness :
  Env.get "WP_URL"
    (Env.parseDotEnv
       (Some (String.concat (lineEnd true)
                (map render [Comment " the site"; Binding "WP_URL" "https://a.example";
                             Blank; Binding "WP URL" "x=y";
                             Binding "WP_URL" "https://b.example"]))))
  = Some "https://b.example"%string.
Proof.
  apply (dotenv_reads_back_its_lines true
           [Comment " the site"; Binding "WP_URL" "https://a.example";
            Blank; Binding "WP URL" "x=y"; Binding "WP_URL" "https://b.example"]
           "WP_URL").
  repeat constructor; try discriminate;
    intros a Ha; cbn in Ha;
    repeat (destruct Ha as [Ha|Ha]; [subst a; discriminate|]); destruct Ha.
Defined.

Section LocalEnvFacts.

Import Env Str.

Lemma isSet_filled (k : string) (env : table) :
  inherited k = false -> isSet k env = filled (get k env).
Proof. intros H. unfold isSet, filled. now destruct (get k env). Qed.

Lemma get_files (fe be : option string) (env : table) (k : string) :
  get k (fill (merge (parseDotEnv be) (parseDotEnv fe)) env)
  = fromFiles (parseDotEnv fe) (parseDotEnv be) env k.
Proof.
  rewrite get_fill by (apply merge_distinct, parseDotEnv_distinct).
  rewrite get_merge by apply parseDotEnv_distinct. reflexivity.
Qed.

End LocalEnvFacts.

(** X26. After loadLocalEnv a variable that read as truthy (set and not
    empty, or a name process.env inherits) is as it was; one that did not
    takes the value of frontend/.env, or of
    backend/.env when the frontend file does not bind it, unless that
    value is empty.  WP_URL, if still not set, then takes the value of
    PUBLIC_WP_URL; STRAPI_API_TOKEN, if still not set, takes the trimmed
    text of TOKEN.txt unless that is empty. *)
Theorem local_env_precedence (frontendText backendText tokenText : option string)
  (env : Env.table) (k : string) :
  Env.get k (Env.loadLocalEnv frontendText backendText tokenText env)
  = let files := fromFiles (Env.parseDotEnv frontendText) (Env.parseDotEnv backendText) env in
    if String.eqb k "WP_URL" then
      if filled (files "WP_URL"%string) then files "WP_URL"%string
      else if filled (files "PUBLIC_WP_URL"%string) then files "PUBLIC_WP_URL"%string
      else files "WP_URL"%string
    else if String.eqb k "STRAPI_API_TOKEN" then
      if filled (files "STRAPI_API_TOKEN"%string) then files "STRAPI_API_TOKEN"%string
      else if Str.isEmpty (Str.trim (Env.textOf tokenText))
      then files "STRAPI_API_TOKEN"%string
      else Some (Str.trim (Env.textOf tokenText))
    else files k.
Proof.
  cbv zeta. unfold Env.loadLocalEnv. cbv zeta.
  set (env1 := Env.fill _ env).
  assert (H1 : forall key, Env.get key env1
                           = fromFiles (Env.parseDotEnv frontendText)
                               (Env.parseDotEnv backendText) env key)
    by (intros key; apply get_files).
  rewrite !isSet_filled by reflexivity.
  set (env2 := if negb (filled (Env.get "WP_URL" env1)) && filled (Env.get "PUBLIC_WP_URL" env1)
               then _ else env1).
  assert (H2 : forall key,
             Env.get key env2
             = if String.eqb "WP_URL" key
               then if filled (Env.get "WP_URL" env1) then Env.get "WP_URL" env1
                    else if filled (Env.get "PUBLIC_WP_URL" env1)
                         then Env.get "PUBLIC_WP_URL" env1
                         else Env.get "WP_URL" env1
               else Env.get key env1).
  { intros key. subst env2.
    destruct (filled (Env.get "WP_URL" env1)) eqn:Hw; cbn [negb andb].
    - destruct (String.eqb_spec "WP_URL" key) as [<-|]; reflexivity.
    - destruct (filled (Env.get "PUBLIC_WP_URL" env1)) eqn:Hpub.
      + rewrite get_set. destruct (String.eqb "WP_URL" key); [|reflexivity].
        destruct (Env.get "PUBLIC_WP_URL" env1); [reflexivity | discriminate].
      + destruct (String.eqb_spec "WP_URL" key) as [<-|]; reflexivity. }
  assert (Ht : Env.get "STRAPI_API_TOKEN" env2 = Env.get "STRAPI_API_TOKEN" env1)
    by (rewrite H2; reflexivity).
  rewrite Ht, <- !H1.
  rewrite (String.eqb_sym k "WP_URL"), (String.eqb_sym k "STRAPI_API_TOKEN").
  assert (Hset : forall v,
             Env.get k (Env.set "STRAPI_API_TOKEN" v env2)
             = if String.eqb "WP_URL" k then Env.get k env2
               else if String.eqb "STRAPI_API_TOKEN" k then Some v else Env.get k env2).
  { intros v. rewrite get_set.
    destruct (String.eqb_spec "WP_URL" k) as [<-|]; reflexivity. }
  destruct (filled (Env.get "STRAPI_API_TOKEN" env1)) eqn:Htok; cbn [negb];
    [|destruct (Str.isEmpty (Str.trim (Env.textOf tokenText))) eqn:He; cbn [negb]];
    rewrite ?Hset, H2;
    (destruct (String.eqb_spec "WP_URL" k) as [<-|Hk]; [reflexivity|]);
    (destruct (String.eqb_spec "STRAPI_API_TOKEN" k) as [<-|Hk']; [|reflexivity]);
    rewrite ?Htok; reflexivity.
Qed.

Section EnvFileFacts.

Import Env Str.

Lemma envFileLine_parseLine (line : string) : envFileLine line = parseLine line.
Proof.
  unfold envFileLine, parseLine. cbv zeta.
  destruct (isEmpty (trim line) || startsWith "#" (trim line)); [reflexivity|].
  destruct (indexOf "=" (trim line)) as [[|i]|]; [|reflexivity|reflexivity].
  unfold slice. cbn [Nat.sub]. now rewrite substring_none.
Qed.

Lemma get_loadEnvFile (k : string) (lines : list envLine) :
  Forall wellFormed lines ->
  forall env,
    get k (fold_left
             (fun e line =>
                match envFileLine line with
                | Some (key, value) => if isDefined key e then e else set key value e
                | None => e
                end)
             (map render lines) env)
    = fromFile lines env k.
Proof.
  intros Hall. induction Hall as [|l lines Hl Hls IH]; intros env.
  - unfold fromFile. cbn [map fold_left firstBinding].
    destruct (get k env); [reflexivity | now destruct (inherited k)].
  - cbn [map fold_left]. rewrite IH, envFileLine_parseLine, (parseLine_render l Hl).
    unfold fromFile.
    destruct l as [k' v|t|]; cbn [firstBinding]; [|reflexivity|reflexivity].
    unfold isDefined.
    destruct (String.eqb_spec k' k) as [->|Hne].
    + destruct (get k env) as [w|] eqn:Hg; [now rewrite Hg|].
      destruct (inherited k); [now rewrite Hg|]. now rewrite get_set_same.
    + assert (Hk : k <> k') by congruence.
      destruct (get k' env); [reflexivity|].
      destruct (inherited k'); [reflexivity|]. now rewrite (get_set_other _ _ _ _ Hk).
Qed.

End EnvFileFacts.

(** X27. loadDefaultEnv of the clean-up scripts never overwrites a
    variable that is defined, not even an empty one; a variable that is
    not defined takes the value of the first line of frontend/.env that
    binds it.  WP_URL, if then empty or missing, takes the value of
    PUBLIC_WP_URL. *)
Theorem env_file_never_overwrites (windows : bool) (lines : list envLine)
  (env : Env.table) (k : string) :
  Forall wellFormed lines ->
  Env.get k (Env.loadDefaultEnv
               (Some (String.concat (lineEnd windows) (map render lines))) env)
  = if String.eqb k "WP_URL" then
      if filled (fromFile lines env "WP_URL"%string) then fromFile lines env "WP_URL"%string
      else if filled (fromFile lines env "PUBLIC_WP_URL"%string)
           then fromFile lines env "PUBLIC_WP_URL"%string
           else fromFile lines env "WP_URL"%string
    else fromFile lines env k.
Proof.
  intros Hall. unfold Env.loadDefaultEnv. cbv zeta.
  set (env1 := Env.loadEnvFile _ env).
  assert (H1 : forall key, Env.get key env1 = fromFile lines env key).
  { intros key. subst env1. unfold Env.loadEnvFile.
    destruct lines as [|l lines].
    - cbn. unfold fromFile. cbn [firstBinding].
      destruct (Env.get key env); [reflexivity | now destruct (Env.inherited key)].
    - cbn [map]. rewrite split_joined.
      + exact (get_loadEnvFile key (l :: lines) Hall env).
      + change (render l :: map render lines) with (map render (l :: lines)).
        apply Forall_map. eapply Forall_impl; [|exact Hall].
        intros x. apply render_singleLine. }
  rewrite <- !H1, !isSet_filled by reflexivity.
  rewrite (String.eqb_sym k "WP_URL").
  destruct (filled (Env.get "WP_URL" env1)) eqn:Hw; cbn [negb andb].
  - destruct (String.eqb_spec "WP_URL" k) as [<-|]; reflexivity.
  - destruct (filled (Env.get "PUBLIC_WP_URL" env1)) eqn:Hpub.
    + rewrite get_set. destruct (String.eqb "WP_URL" k); [|reflexivity].
      destruct (Env.get "PUBLIC_WP_URL" env1); [reflexivity | discriminate].
    + destruct (String.eqb_spec "WP_URL" k) as [<-|]; reflexivity.
Qed.

Lemma env_file_never_overwrites_witness :
  Env.get "WP_USER"
    (Env.loadDefaultEnv
       (Some (String.concat (lineEnd false)
                (map render [Binding "WP_USER" "first"; Comment ""; Binding "WP_USER" "second"])))
       [("WP_URL", ""); ("HOME", "/root")])
  = Some "first"%string
  /\ Env.get "WP_URL"
       (Env.loadDefaultEnv
          (Some (String.concat (lineEnd false)
                   (map render [Binding "WP_URL" "https://a.example";
                                Binding "PUBLIC_WP_URL" "https://b.example"])))
          [("WP_URL", ""); ("HOME", "/root")])
     = Some "https://b.example"%string.
Proof.
  split.
  - apply (env_file_never_overwrites false
             [Binding "WP_USER" "first"; Comment ""; Binding "WP_USER" "second"]
             [("WP_URL", ""); ("HOME", "/root")] "WP_USER").
    repeat constructor; try discriminate;
      intros a Ha; cbn in Ha;
      repeat (destruct Ha as [Ha|Ha]; [subst a; discriminate|]); destruct Ha.
  - apply (env_file_never_overwrites false
             [Binding "WP_URL" "https://a.example";
              Binding "PUBLIC_WP_URL" "https://b.example"]
             [("WP_URL", ""); ("HOME", "/root")] "WP_URL").
    repeat constructor; try discriminate;
      intros a Ha; cbn in Ha;
      repeat (destruct Ha as [Ha|Ha]; [subst a; discriminate|]); destruct Ha.
Defined.

(** ** Hosts, file names and addresses *)

Section HostFacts.

Import Chars Str Re RichText.



Lemma stripChars_prefix (p s : string) :
  prefix p s = false ->
  stripChars (list_ascii_of_string p) (list_ascii_of_string s) = None.
Proof.
  revert s. induction p as [|c p IH]; intros s H.
  - destruct s; discriminate.
  - destruct s as [|a s]; [reflexivity|]. cbn [prefix list_ascii_of_string stripChars] in *.
    destruct (ascii_dec c a) as [<-|Hne].
    + rewrite Ascii.eqb_refl. now apply IH.
    + apply not_eq_sym in Hne. apply Ascii.eqb_neq in Hne. now rewrite Hne.
Qed.






End HostFacts.



Section QueryFacts.

Import Str.

Lemma hd_splitChar_app (c : ascii) (s t : string) :
  lacks c s ->
  hd EmptyString (splitChar c (s ++ t)%string)
  = (s ++ hd EmptyString (splitChar c t))%string.
Proof.
  induction s as [|a s IH]; intros Hs; [reflexivity|].
  cbn [append splitChar].
  assert (Ha : a <> c) by (apply Hs; now left).
  apply Ascii.eqb_neq in Ha. rewrite Ha.
  assert (IH' := IH (fun b Hb => Hs b (or_intror Hb))).
  destruct (splitChar c (s ++ t)%string) as [|p ps] eqn:Hsp.
  - now elim (splitChar_not_nil c (s ++ t)%string).
  - cbn [hd] in *. now rewrite IH'.
Qed.

Lemma hd_splitChar_cut (c : ascii) (s t : string) :
  lacks c s -> hd EmptyString (splitChar c (s ++ String c t)%string) = s.
Proof.
  intros Hs. rewrite (hd_splitChar_app c s (String c t) Hs).
  cbn [splitChar]. rewrite Ascii.eqb_refl. cbn [hd].
  clear. induction s as [|a s IH]; cbn [append]; [reflexivity | now rewrite IH].
Qed.

Lemma hd_splitChar_whole (c : ascii) (s : string) :
  lacks c s -> hd EmptyString (splitChar c s) = s.
Proof. intros Hs. now rewrite (splitChar_lacks c s Hs). Qed.

End QueryFacts.

(** X29. pickFilenameFromUrl of the WordPress uploader does not look at
    the query or the fragment of an address: whatever follows the first
    question mark or number sign, the file name is that of the address
    in front of it. *)
Theorem file_name_ignores_query_and_fragment (url tail contentType : string) :
  lacks "#" url -> lacks "?" url ->
  Download.pickFilenameFromUrl (url ++ "?" ++ tail)%string contentType
  = Download.pickFilenameFromUrl url contentType
  /\ Download.pickFilenameFromUrl (url ++ "#" ++ tail)%string contentType
     = Download.pickFilenameFromUrl url contentType.
Proof.
  intros Hh Hq. unfold Download.pickFilenameFromUrl. cbv zeta.
  rewrite (hd_splitChar_whole "#" url Hh), (hd_splitChar_whole "?" url Hq).
  split.
  - rewrite (hd_splitChar_app "#" url _ Hh).
    change ("?" ++ tail)%string with (String "?" tail).
    cbn [Str.splitChar]. change (Ascii.eqb "?" "#") with false. cbv iota.
    destruct (Str.splitChar "#" tail) as [|p ps]; cbn [hd];
      now rewrite (hd_splitChar_cut "?" url _ Hq).
  - change ("#" ++ tail)%string with (String "#" tail).
    now rewrite (hd_splitChar_cut "#" url _ Hh), (hd_splitChar_whole "?" url Hq).
Qed.

Lemma file_name_ignores_query_and_fragment_witness :
  Download.pickFilenameFromUrl "https://cdn.example.com/a/photo.png?size=/large#top" "image/png"
  = Download.pickFilenameFromUrl "https://cdn.example.com/a/photo.png" "image/png".
Proof.
  apply (file_name_ignores_query_and_fragment
           "https://cdn.example.com/a/photo.png" "size=/large#top" "image/png");
    intros a Ha; cbn in Ha;
    repeat (destruct Ha as [Ha|Ha]; [subst a; discriminate|]); destruct Ha.
Defined.

Section ReplaceFacts.

Import Str Urls.

Lemma stripChars_some (cs l r : list ascii) :
  stripChars cs l = Some r -> l = cs ++ r.
Proof.
  revert l. induction cs as [|c cs IH]; intros l; cbn [stripChars app].
  - now intros [= ->].
  - destruct l as [|a l]; [discriminate|].
    destruct (Ascii.eqb_spec a c) as [->|]; [|discriminate].
    intros H. now rewrite (IH l H).
Qed.

Lemma splitOn_not_nil (n : nat) (sep : list ascii) :
  forall piece l, length l <= n -> splitOn (S n) sep piece l <> [].
Proof.
  induction n as [|n IH]; intros piece l Hn.
  - destruct l as [|a l]; [discriminate | cbn [length] in Hn; lia].
  - destruct l as [|a l]; cbn [splitOn]; [discriminate|]. cbn [length] in Hn.
    destruct (stripChars sep (a :: l)); [discriminate | apply IH; lia].
Qed.

Lemma concat_cons (sep p : string) (ps : list string) :
  ps <> [] -> String.concat sep (p :: ps) = (p ++ sep ++ String.concat sep ps)%string.
Proof. destruct ps; [congruence | reflexivity]. Qed.

(** Joining the pieces with the separator they were cut at gives the
    text back. *)
Lemma join_splitOn (sep : string) (n : nat) :
  sep <> EmptyString ->
  forall piece l,
    length l < n ->
    list_ascii_of_string
      (String.concat sep (splitOn n (list_ascii_of_string sep) piece l))
    = rev piece ++ l.
Proof.
  intros Hsep. induction n as [|n IH]; intros piece l Hn; [lia|].
  destruct l as [|a l].
  - cbn [splitOn String.concat]. now rewrite list_ascii_of_string_of_list_ascii, app_nil_r.
  - cbn [splitOn]. cbn [length] in Hn.
    destruct (stripChars (list_ascii_of_string sep) (a :: l)) as [behind|] eqn:Hs.
    + assert (Hl := stripChars_some _ _ _ Hs).
      assert (Hlen : length behind < n).
      { apply (f_equal (@length ascii)) in Hl. rewrite length_app in Hl. cbn [length] in Hl.
        destruct sep; [congruence|]. cbn [list_ascii_of_string length] in Hl. lia. }
      destruct n as [|n']; [lia|].
      rewrite concat_cons by (apply splitOn_not_nil; lia).
      rewrite !chars_app, IH by exact Hlen.
      rewrite list_ascii_of_string_of_list_ascii, Hl. reflexivity.
    + rewrite IH by lia. cbn [rev]. now rewrite <- app_assoc.
Qed.

Lemma replaceEvery_same (from out : string) :
  from <> EmptyString -> replaceEvery from from out = out.
Proof.
  intros H. unfold replaceEvery.
  rewrite <- (string_of_list_ascii_of_string out) at 3.
  rewrite <- (string_of_list_ascii_of_string (String.concat _ _)).
  f_equal. rewrite (join_splitOn from _ H); [reflexivity|].
  rewrite chars_length. lia.
Qed.

Lemma includes_cons (p : string) (a : ascii) (s : string) :
  includes p (String a s) = false -> prefix p (String a s) = false /\ includes p s = false.
Proof. cbn [includes]. intros H. now apply orb_false_iff in H. Qed.

(** A text without the separator is one piece. *)
Lemma splitOn_absent (sep : string) (l : string) :
  includes sep l = false ->
  forall n piece,
    String.length l < n ->
    splitOn n (list_ascii_of_string sep) piece (list_ascii_of_string l)
    = [string_of_list_ascii (rev piece ++ list_ascii_of_string l)].
Proof.
  induction l as [|a l IH]; intros Habs n piece Hn.
  - destruct n as [|n]; [cbn in Hn; lia|]. cbn [splitOn list_ascii_of_string].
    now rewrite app_nil_r.
  - destruct n as [|n]; [cbn in Hn; lia|]. cbn [String.length] in Hn.
    destruct (includes_cons _ _ _ Habs) as [Hp Hi].
    cbn [list_ascii_of_string splitOn].
    change (a :: list_ascii_of_string l) with (list_ascii_of_string (String a l)).
    rewrite (stripChars_prefix _ _ Hp). cbn [list_ascii_of_string].
    rewrite IH by (assumption || lia). cbn [rev]. now rewrite <- app_assoc.
Qed.

Lemma replaceEvery_absent (from to out : string) :
  includes from out = false -> replaceEvery from to out = out.
Proof.
  intros H. unfold replaceEvery. rewrite (splitOn_absent from out H) by lia.
  cbn [String.concat rev app]. apply string_of_list_ascii_of_string.
Qed.

End ReplaceFacts.

(** X30. replaceAllExternalUrls never applies a mapping with an empty
    side, leaves a text unchanged that contains none of the addresses to
    replace, and changes nothing when an address is mapped to itself:
    splitting at an address and joining with the same address gives the
    text back. *)
Theorem replacing_absent_addresses_changes_nothing (value : string)
  (urlMap : list (string * string)) :
  (forall from to,
      In (from, to) urlMap ->
      from = EmptyString \/ to = EmptyString \/ from = to \/ Str.includes from value = false) ->
  Urls.replaceAllExternalUrls value urlMap = value.
Proof.
  unfold Urls.replaceAllExternalUrls.
  induction urlMap as [|[from to] urlMap IH]; intros H; [reflexivity|].
  cbn [fold_left fst snd].
  assert (Hstep : (if Str.isEmpty from || Str.isEmpty to then value
                   else Urls.replaceEvery from to value) = value).
  { destruct (H from to (or_introl eq_refl)) as [->|[->|[<-|Habs]]].
    - reflexivity.
    - now rewrite orb_true_r.
    - destruct from; [reflexivity|]. cbn [Str.isEmpty orb].
      now apply replaceEvery_same.
    - destruct (Str.isEmpty from || Str.isEmpty to); [reflexivity|].
      now apply replaceEvery_absent. }
  rewrite Hstep. apply IH. intros f t Hin. apply H. now right.
Qed.

Lemma replacing_absent_addresses_changes_nothing_witness :
  Urls.replaceAllExternalUrls "see https://a.example/x.png and https://b.example/y.png"
    [("https://c.example/z.png", "https://wp.example/z.png");
     ("https://a.example/x.png", "https://a.example/x.png");
     ("https://b.example/y.png", "")]
  = "see https://a.example/x.png and https://b.example/y.png"%string.
Proof.
  apply replacing_absent_addresses_changes_nothing.
  intros from to [[= <- <-]|[[= <- <-]|[[= <- <-]|[]]]].
  - right. right. right. reflexivity.
  - right. right. left. reflexivity.
  - right. left. reflexivity.
Defined.
